(** * LLRPMain.js: session state machine of the LLRP reader client

    A shallow embedding of [src/llrp/LLRPMain.js].  The closure variables
    of [llrpMain] become a record, every observable action of the code
    (socket write, assignment to one of the two flags, [process.nextTick],
    [emit], [console.log], a call into the decoder) is recorded in a trace,
    and a JavaScript exception is an abnormal completion that stops the
    handler that raised it.  The decoder ([decode.js]), the message class
    and the two tables of type constants are not part of the file: they are
    parameters of the development. *)

From Stdlib Require Import ZArith Strings.Byte Ascii String.
From stdpp Require Import base option list gmap strings.

Local Open Scope Z_scope.

(** ** Buffers *)

Abbreviation Buffer := (list byte).

Definition byteValue (b : byte) : Z := Z.of_N (Byte.to_N b).

Definition hexDigit (n : Z) : ascii :=
  if n <? 10 then ascii_of_N (Z.to_N (48 + n)) else ascii_of_N (Z.to_N (87 + n)).

Definition hexOfByte (b : byte) : string :=
  String (hexDigit (byteValue b / 16)) (String (hexDigit (byteValue b mod 16)) EmptyString).

(** [buf.toString('hex')]: two lowercase digits per byte. *)
Fixpoint toStringHex (buf : Buffer) : string :=
  match buf with
  | [] => EmptyString
  | b :: rest => (hexOfByte b +:+ toStringHex rest)%string
  end.

Definition nibbleOfAscii (c : ascii) : option Z :=
  let n := Z.of_N (N_of_ascii c) in
  if (48 <=? n) && (n <=? 57) then Some (n - 48)
  else if (97 <=? n) && (n <=? 102) then Some (n - 87)
  else if (65 <=? n) && (n <=? 70) then Some (n - 55)
  else None.

(** [new Buffer(text, 'hex')] on the literals of the command catalog. *)
Fixpoint fromHex (text : string) : Buffer :=
  match text with
  | String hi (String lo rest) =>
      match nibbleOfAscii hi, nibbleOfAscii lo with
      | Some h, Some l =>
          match Byte.of_N (Z.to_N (16 * h + l)) with
          | Some b => b :: fromHex rest
          | None => []
          end
      | _, _ => []
      end
  | _ => []
  end.

(** [buf.readUInt8(offset)]; [None] is the [RangeError] of an offset past
    the end. *)
Definition readUInt8 (buf : Buffer) (offset : nat) : option Z :=
  byteValue <$> buf !! offset.

(** [buf.readUInt16BE(offset)]. *)
Definition readUInt16BE (buf : Buffer) (offset : nat) : option Z :=
  match buf !! offset, buf !! S offset with
  | Some hi, Some lo => Some (256 * byteValue hi + byteValue lo)
  | _, _ => None
  end.

(** ** JavaScript values read from the configuration object *)

Inductive JSValue :=
  | JSUndefined
  | JSNull
  | JSBool (b : bool)
  | JSNumber (n : Z)
  | JSString (s : string).

Definition truthy (v : JSValue) : bool :=
  match v with
  | JSUndefined | JSNull => false
  | JSBool b => b
  | JSNumber n => negb (n =? 0)
  | JSString s => negb (String.eqb s EmptyString)
  end.

(** [a || b] *)
Definition jsOr (a b : JSValue) : JSValue := if truthy a then a else b.

(** [config.name]: a missing property reads as [undefined]. *)
Definition property (config : gmap string JSValue) (name : string) : JSValue :=
  default JSUndefined (config !! name).

(** ** Decoded data *)

#[local] Unset Elimination Schemes.
Inductive Param := mkParam {
  type : Z;
  value : Buffer;
  subParameters : list Param
}.
#[local] Set Elimination Schemes.

Record LLRPMessage := mkMessage {
  type_value : Z;
  getParameter : Buffer;
  getTypeName : string
}.

(** The result of [decode.message]/[decode.parameter]; [None] stands for
    a result that is [undefined]. *)
Record Decoder := mkDecoder {
  decode_message : Buffer -> option (list LLRPMessage);
  decode_parameter : Buffer -> option (list Param)
}.

Record MessageConstants := mkMessageC {
  READER_EVENT_NOTIFICATION : Z;
  SET_READER_CONFIG_RESPONSE : Z;
  ADD_ROSPEC_RESPONSE : Z;
  ENABLE_ROSPEC_RESPONSE : Z;
  START_ROSPEC_RESPONSE : Z;
  RO_ACCESS_REPORT : Z;
  KEEPALIVE : Z
}.

Record ParameterConstants := mkParameterC {
  ReaderEventNotificationData : Z;
  ROSpecEvent : Z;
  TagReportData : Z;
  EPC96 : Z;
  TagSeenCount : Z
}.

(** [mapSubParameters]: the object [properties], keyed by parameter type;
    a later sub-parameter of the same type overwrites the earlier one. *)
Definition mapSubParameters (params : Param) : gmap Z (list byte) :=
  foldl (fun properties sub => <[type sub := value sub]> properties)
        ∅ (subParameters params).

(** ** The tag object and what the session does *)

Record Tag := mkTag {
  tagID : option string;
  tagSeenCount : Z
}.

(** Callbacks handed to [process.nextTick]. *)
Inductive Tick :=
  | ReportTick (msg : LLRPMessage)
  | DidSeeTagTick (tag : Tag).

Inductive Emitted :=
  | EmitTimeout
  | EmitDisconnect
  | EmitError (err : string)
  | EmitDidSeeTag (tag : Tag).

Inductive LogLine :=
  | LogTimeout
  | LogConnected (ipaddress port : JSValue)
  | LogUndefinedData
  | LogReceiving (typeName : string)
  | LogDisconnected
  | LogError (err : string)
  | LogReport
  | LogTag (id : option string) (count : Z).

Inductive Event :=
  | SetTimeout (ms : Z)
  | Connect (port ipaddress : JSValue)
  | DecodeMessage (data : Buffer)
  | DecodeParameter (block : Buffer)
  | Write (buf : Buffer)
  | AssignReaderConfigSet (v : bool)
  | AssignStartROSpecSent (v : bool)
  | NextTick (t : Tick)
  | Emit (e : Emitted)
  | ConsoleLog (line : LogLine).

(** What the code raises: the errors of reading a property of
    [undefined] and of reading a buffer out of range, and the error
    object that [emit('error', err)] throws back when no listener is
    registered for ['error']. *)
Inductive JSError :=
  | TypeError
  | RangeError
  | Unhandled (err : string).

(** The mutable closure variables, and the queue of [process.nextTick]. *)
Record Session := mkSession {
  isReaderConfigSet : bool;
  isStartROSpecSent : bool;
  tickQueue : list Tick
}.

Definition withReaderConfigSet (v : bool) (s : Session) : Session :=
  {| isReaderConfigSet := v;
     isStartROSpecSent := isStartROSpecSent s;
     tickQueue := tickQueue s |}.

Definition withStartROSpecSent (v : bool) (s : Session) : Session :=
  {| isReaderConfigSet := isReaderConfigSet s;
     isStartROSpecSent := v;
     tickQueue := tickQueue s |}.

Definition enqueue (t : Tick) (s : Session) : Session :=
  {| isReaderConfigSet := isReaderConfigSet s;
     isStartROSpecSent := isStartROSpecSent s;
     tickQueue := tickQueue s ++ [t] |}.

Definition withTickQueue (q : list Tick) (s : Session) : Session :=
  {| isReaderConfigSet := isReaderConfigSet s;
     isStartROSpecSent := isStartROSpecSent s;
     tickQueue := q |}.

Inductive Completion (A : Type) :=
  | Normal (a : A)
  | Throw (e : JSError).
Arguments Normal {A} a.
Arguments Throw {A} e.

Record Result (A : Type) := mkResult {
  outcome : Completion A;
  after : Session;
  trace : list Event
}.
Arguments mkResult {A} _ _ _.
Arguments outcome {A} _.
Arguments after {A} _.
Arguments trace {A} _.

Definition M (A : Type) : Type := Session -> Result A.

Definition ret {A} (a : A) : M A := fun s => mkResult (Normal a) s [].

Definition bind {A B} (m : M A) (f : A -> M B) : M B := fun s =>
  let r := m s in
  match outcome r with
  | Normal a =>
      let r' := f a (after r) in
      mkResult (outcome r') (after r') (trace r ++ trace r')
  | Throw e => mkResult (Throw e) (after r) (trace r)
  end.

Notation "m1 ;; m2" := (bind m1 (fun _ => m2))
  (at level 100, m2 at level 200, right associativity, only parsing).
Notation "x <~ m1 ;; m2" := (bind m1 (fun x => m2))
  (at level 100, m1 at next level, m2 at level 200, right associativity, only parsing).

Definition throw {A} (e : JSError) : M A := fun s => mkResult (Throw e) s [].
Definition tell (e : Event) : M unit := fun s => mkResult (Normal tt) s [e].
Definition when (c : bool) (m : M unit) : M unit := if c then m else ret tt.

Fixpoint forEach {A} (f : A -> M unit) (l : list A) : M unit :=
  match l with
  | [] => ret tt
  | x :: rest => f x ;; forEach f rest
  end.

Definition orThrow {A} (o : option A) (e : JSError) : M A :=
  match o with
  | Some a => ret a
  | None => throw e
  end.

(** What the socket delivers to the handlers registered by [connect].
    Listeners are registered on the object by its user, not by this
    file: [heard] tells whether one is registered for ['error'] when
    the socket reports [err]. *)
Inductive SocketEvent :=
  | Connected
  | TimedOut
  | Data (data : option (list byte))
  | Ended
  | Errored (err : string) (heard : bool).

(** ** The command catalog *)

Definition bSetReaderConfig : Buffer :=
  Eval vm_compute in fromHex "040300000010000000000000e2000580".
Definition bEnableEventsAndReport : Buffer :=
  Eval vm_compute in fromHex "04400000000a00000000".
Definition bAddRoSpec : Buffer :=
  Eval vm_compute in fromHex "04140000005d0000000000b1005300000001000000b2001200b300050000b60009000000000000b700180001000000b8000901000003e800ba000700010100ed001f01000000ee000bffc0015c0005c003ff000d000067ba0000008e01".
Definition bEnableRoSpec : Buffer :=
  Eval vm_compute in fromHex "04180000000e0000000000000001".
Definition bStartRoSpec : Buffer :=
  Eval vm_compute in fromHex "04160000000e0000000000000001".
Definition bKeepaliveAck : Buffer :=
  Eval vm_compute in fromHex "04480000000a00000000".

#[global] Instance byte_eq_decision : EqDecision byte := Byte.byte_eq_dec.

(** ** Reading a trace *)

Definition writesOf (t : list Event) : list (list byte) :=
  omap (fun e => match e with Write buf => Some buf | _ => None end) t.

Definition emitsOf (t : list Event) : list Emitted :=
  omap (fun e => match e with Emit x => Some x | _ => None end) t.

Definition isDecode (e : Event) : bool :=
  match e with
  | DecodeMessage _ | DecodeParameter _ => true
  | _ => false
  end.

Definition decodesOf (t : list Event) : list Event := List.filter isDecode t.

Definition isStartWrite (e : Event) : bool :=
  match e with
  | Write buf => bool_decide (buf = bStartRoSpec)
  | _ => false
  end.

Definition isConfigWrite (e : Event) : bool :=
  match e with
  | Write buf => bool_decide (buf = bSetReaderConfig)
  | _ => false
  end.

Definition countWhere (p : Event -> bool) (t : list Event) : nat :=
  length (List.filter p t).

(** Where the start flag stands along a trace: [StartArmed] is the
    moment between the assignment of [true] and the write that must
    follow it at once. *)
Inductive StartPhase := StartIdle | StartArmed | StartSent.

Definition startStep (ph : StartPhase) (e : Event) : option StartPhase :=
  match ph, e with
  | StartIdle, AssignStartROSpecSent true => Some StartArmed
  | StartArmed, Write buf =>
      if bool_decide (buf = bStartRoSpec) then Some StartSent else None
  | StartArmed, _ => None
  | _, AssignStartROSpecSent true => None
  | _, AssignStartROSpecSent false => Some StartIdle
  | _, Write buf => if bool_decide (buf = bStartRoSpec) then None else Some ph
  | _, _ => Some ph
  end.

(** The same for the configuration flag: the write comes first, then
    the assignment of [true]; nothing assigns [false]. *)
Inductive ConfigPhase := ConfigUnset | ConfigWritten | ConfigSet.

Definition configStep (ph : ConfigPhase) (e : Event) : option ConfigPhase :=
  match ph, e with
  | ConfigWritten, AssignReaderConfigSet true => Some ConfigSet
  | ConfigWritten, _ => None
  | _, AssignReaderConfigSet _ => None
  | ConfigUnset, Write buf =>
      if bool_decide (buf = bSetReaderConfig) then Some ConfigWritten else Some ph
  | ConfigSet, Write buf =>
      if bool_decide (buf = bSetReaderConfig) then None else Some ph
  | _, _ => Some ph
  end.

Fixpoint scan {Q : Type} (step : Q -> Event -> option Q) (q : Q) (t : list Event)
  : option Q :=
  match t with
  | [] => Some q
  | e :: rest =>
      match step q e with
      | Some q' => scan step q' rest
      | None => None
      end
  end.

Definition startPhase (s : Session) : StartPhase :=
  if isStartROSpecSent s then StartSent else StartIdle.

Definition configPhase (s : Session) : ConfigPhase :=
  if isReaderConfigSet s then ConfigSet else ConfigUnset.

(** A piece of trace that takes both flags from their value in [s] to
    their value in [s'] by the permitted moves only. *)
Definition lawful (s : Session) (t : list Event) (s' : Session) : Prop :=
  scan startStep (startPhase s) t = Some (startPhase s') /\
  scan configStep (configPhase s) t = Some (configPhase s').

Definition obeys {A} (m : M A) : Prop :=
  forall s, lawful s (trace (m s)) (after (m s)).

(** *** Vocabulary of the proofs *)

(** Events that move neither flag and are no start or configure write. *)
Definition neutral (e : Event) : bool :=
  match e with
  | Write buf =>
      negb (bool_decide (buf = bStartRoSpec)) &&
      negb (bool_decide (buf = bSetReaderConfig))
  | AssignReaderConfigSet _ | AssignStartROSpecSent _ => false
  | _ => true
  end.

Class Compositional (R : Session -> list Event -> Session -> Prop) := {
  comp_nil : forall s, R s [] s;
  comp_app : forall s t1 s1 t2 s2, R s t1 s1 -> R s1 t2 s2 -> R s (t1 ++ t2) s2
}.

Definition respects (R : Session -> list Event -> Session -> Prop)
  {A} (m : M A) : Prop :=
  forall s, R s (trace (m s)) (after (m s)).

(** Every event of the trace satisfies [P]. *)
Definition emitsOnly (P : Event -> Prop) : Session -> list Event -> Session -> Prop :=
  fun _ t _ => Forall P t.

Definition notWrite (e : Event) : Prop :=
  match e with
  | Write _ => False
  | _ => True
  end.

Definition ticksOf (t : list Event) : list Tick :=
  omap (fun e => match e with NextTick k => Some k | _ => None end) t.

(** The queue grows by exactly the callbacks the trace hands to
    [process.nextTick]. *)
Definition queued : Session -> list Event -> Session -> Prop :=
  fun s t s' => tickQueue s' = tickQueue s ++ ticksOf t.

Definition notNextTick (e : Event) : Prop :=
  match e with
  | NextTick _ => False
  | _ => True
  end.

Definition isEmitTick (t : Tick) : Prop :=
  match t with
  | DidSeeTagTick _ => True
  | ReportTick _ => False
  end.

Definition isStartReset (e : Event) : bool :=
  match e with
  | AssignStartROSpecSent false => true
  | _ => false
  end.

Definition isConfigAssign (e : Event) : bool :=
  match e with
  | AssignReaderConfigSet _ => true
  | _ => false
  end.

(** The value of [isStartROSpecSent] after the assignments of [t], from
    the value [b] before. *)
Fixpoint startFlagAfter (b : bool) (t : list Event) : bool :=
  match t with
  | [] => b
  | AssignStartROSpecSent v :: rest => startFlagAfter v rest
  | _ :: rest => startFlagAfter b rest
  end.

Definition flagOfPhase (ph : StartPhase) : bool :=
  match ph with
  | StartIdle => false
  | StartArmed | StartSent => true
  end.

Definition lowerHexDigit (c : ascii) : bool :=
  let n := Z.of_N (N_of_ascii c) in
  ((48 <=? n) && (n <=? 57)) || ((97 <=? n) && (n <=? 102)).

Fixpoint allChars (p : ascii -> bool) (text : string) : bool :=
  match text with
  | EmptyString => true
  | String c rest => p c && allChars p rest
  end.

(** *** Vocabulary of the further properties *)

Definition isConsoleLog (e : Event) : bool :=
  match e with
  | ConsoleLog _ => true
  | _ => false
  end.

(** The trace without the lines of [console.log]. *)
Definition quiet (t : list Event) : list Event :=
  List.filter (fun e => negb (isConsoleLog e)) t.

(** The tags handed to the listeners of ['didSeeTag']. *)
Definition tagsOf (t : list Event) : list Tag :=
  omap (fun e => match e with Emit (EmitDidSeeTag tag) => Some tag | _ => None end) t.

(** The socket events whose handlers only log and emit. *)
Definition isLifecycle (ev : SocketEvent) : bool :=
  match ev with
  | Connected | TimedOut | Ended => true
  | Data _ | Errored _ _ => false
  end.

Definition catalog : list (list byte) :=
  [bSetReaderConfig; bEnableEventsAndReport; bAddRoSpec; bEnableRoSpec;
   bStartRoSpec; bKeepaliveAck].

Definition catalogWrite (e : Event) : Prop :=
  match e with
  | Write buf => buf ∈ catalog
  | _ => True
  end.

Definition enqueueAll (ts : list Tick) (s : Session) : Session :=
  foldl (fun s' t => enqueue t s') s ts.

Definition emitTag (tag : Tag) : Event := Emit (EmitDidSeeTag tag).

Definition notEmit (e : Event) : Prop :=
  match e with
  | Emit _ => False
  | _ => True
  end.

Definition isReportTick (t : Tick) : bool :=
  match t with
  | ReportTick _ => true
  | DidSeeTagTick _ => false
  end.

(** The start flag is the same before and after. *)
Definition startKept : Session -> list Event -> Session -> Prop :=
  fun s _ s' => isStartROSpecSent s' = isStartROSpecSent s.

(** Two computations that differ by lines of [console.log] only. *)
Definition muted {A} (m m' : M A) : Prop :=
  forall s,
    outcome (m s) = outcome (m' s) /\
    after (m s) = after (m' s) /\
    quiet (trace (m s)) = trace (m' s).

(** A tag as the listeners of ['didSeeTag'] get it. *)
Definition wellFormedTag (tag : Tag) : Prop :=
  exists idb : list byte,
    idb <> [] /\
    tagID tag = Some (toStringHex idb) /\
    0 <= tagSeenCount tag < 65536.

Definition wellFormedTick (t : Tick) : Prop :=
  match t with
  | DidSeeTagTick tag => wellFormedTag tag
  | ReportTick _ => True
  end.

Definition wellFormedEvent (e : Event) : Prop :=
  match e with
  | Emit (EmitDidSeeTag tag) => wellFormedTag tag
  | NextTick t => wellFormedTick t
  | _ => True
  end.

Definition tagsGuarded : Session -> list Event -> Session -> Prop :=
  fun s t s' =>
    Forall wellFormedTick (tickQueue s) ->
    Forall wellFormedEvent t /\ Forall wellFormedTick (tickQueue s').

(** What the handlers of the socket events do themselves: no tag is
    queued or emitted there. *)
Definition syncEvent (e : Event) : Prop :=
  match e with
  | NextTick (DidSeeTagTick _) | Emit (EmitDidSeeTag _) => False
  | _ => True
  end.

(** Text made of pairs of lowercase hexadecimal digits. *)
Fixpoint hexPairs (text : string) : bool :=
  match text with
  | EmptyString => true
  | String h (String l rest) => lowerHexDigit h && lowerHexDigit l && hexPairs rest
  | String _ EmptyString => false
  end.

(** Whatever [m] raises satisfies [P]. *)
Definition raisesOnly (P : JSError -> Prop) {A} (m : M A) : Prop :=
  forall s e, outcome (m s) = Throw e -> P e.

(** The errors of the reads of the handlers. *)
Definition readError (e : JSError) : Prop := e = TypeError \/ e = RangeError.

(** An error object thrown back by the emitter comes from the error
    event [ev], received with no listener. *)
Definition unheardIn (ev : SocketEvent) (e : JSError) : Prop :=
  forall err, e = Unhandled err -> ev = Errored err false.

(** ** What [llrpMain] reads from its argument

    The five [var] declarations at the top of [llrpMain]; [config] is
    not read anywhere else.  [log] and the two flags are only ever
    tested for truth, so the model keeps the truth value of what the
    code stores. *)

Definition ipaddressOf (config : gmap string JSValue) : JSValue :=
  jsOr (property config "ipaddress") (JSString "192.168.0.30").

Definition portOf (config : gmap string JSValue) : JSValue :=
  jsOr (property config "port") (JSNumber 5084).

Definition logOf (config : gmap string JSValue) : bool :=
  truthy (jsOr (property config "log") (JSBool false)).

Definition initialSession (config : gmap string JSValue) : Session :=
  {| isReaderConfigSet :=
       truthy (jsOr (property config "isReaderConfigSet") (JSBool false));
     isStartROSpecSent :=
       truthy (jsOr (property config "isStartROSpecSent") (JSBool false));
     tickQueue := [] |}.

(** ** The closure of [llrpMain]

    What the functions of the session can see besides the session
    itself: the two tables of constants and the decoder they [require],
    and the locals [ipaddress], [port] and [log]. *)

Class Env := mkEnv {
  messageC : MessageConstants;
  parameterC : ParameterConstants;
  decode : Decoder;
  ipaddress : JSValue;
  port : JSValue;
  log : bool
}.

(** ** The session *)

Section Session.

Context {env : Env}.

Definition console (line : LogLine) : M unit := when log (tell (ConsoleLog line)).

(** [client.write(buf)] *)
Definition write (buf : Buffer) : M unit := tell (Write buf).

(** [_this.emit(name, ...)]: the call is recorded; the listeners are
    the user's code and are taken to return. *)
Definition emit (e : Emitted) : M unit := tell (Emit e).

Definition assignReaderConfigSet (v : bool) : M unit := fun s =>
  mkResult (Normal tt) (withReaderConfigSet v s) [AssignReaderConfigSet v].

Definition assignStartROSpecSent (v : bool) : M unit := fun s =>
  mkResult (Normal tt) (withStartROSpecSent v s) [AssignStartROSpecSent v].

(** [process.nextTick(callback)]: the callback joins the end of the queue. *)
Definition nextTick (t : Tick) : M unit := fun s =>
  mkResult (Normal tt) (enqueue t s) [NextTick t].

Definition decodeParameter (block : Buffer) : M (option (list Param)) :=
  tell (DecodeParameter block) ;; ret (decode_parameter decode block).

Definition resetIsStartROSpecSent : M unit := assignStartROSpecSent false.

Definition sendStartROSpec : M unit := fun s =>
  if negb (isStartROSpecSent s)
  then (assignStartROSpecSent true ;; write bStartRoSpec) s
  else ret tt s.

(** The body of the [for] loop of [handleReaderNotification]. *)
Definition notificationStep (p : Param) : M unit :=
  if type p =? ReaderEventNotificationData parameterC then
    let subParameters := mapSubParameters p in
    match subParameters !! ROSpecEvent parameterC with
    | Some event =>
        kind <~ orThrow (readUInt8 event 0) RangeError ;;
        if kind =? 1 then resetIsStartROSpecSent else ret tt
    | None => ret tt
    end
  else ret tt.

Definition handleReaderNotification (msg : LLRPMessage) : M unit :=
  parametersKeyValue <~ decodeParameter (getParameter msg) ;;
  (* [parametersKeyValue.length] of [undefined] is a [TypeError] *)
  parameters <~ orThrow parametersKeyValue TypeError ;;
  forEach notificationStep parameters ;;
  fun s =>
    if negb (isReaderConfigSet s)
    then (write bSetReaderConfig ;; assignReaderConfigSet true) s
    else sendStartROSpec s.

(** [if (tag.tagID)]: [null] and the empty string are both false. *)
Definition tagIDTruthy (id : option string) : bool :=
  match id with
  | Some text => negb (String.eqb text EmptyString)
  | None => false
  end.

(** The object [tag] of [handleROAccessReport]: created with
    [tagID: null, tagSeenCount: 0], then filled from the flattened
    sub-parameters that are present. *)
Definition makeTag (subParameters : gmap Z (list byte)) : M Tag :=
  let id := toStringHex <$> subParameters !! EPC96 parameterC in
  count <~ match subParameters !! TagSeenCount parameterC with
           | Some seen => orThrow (readUInt16BE seen 0) RangeError
           | None => ret 0
           end ;;
  ret {| tagID := id; tagSeenCount := count |}.

(** The callback of [parametersKeyValue.forEach] in
    [handleROAccessReport]. *)
Definition reportStep (decodedParameters : Param) : M unit :=
  if type decodedParameters =? TagReportData parameterC then
    tag <~ makeTag (mapSubParameters decodedParameters) ;;
    console (LogTag (tagID tag) (tagSeenCount tag)) ;;
    if tagIDTruthy (tagID tag) then nextTick (DidSeeTagTick tag) else ret tt
  else ret tt.

(** The callback that [handleROAccessReport] hands to [process.nextTick]. *)
Definition reportCallback (msg : LLRPMessage) : M unit :=
  resetIsStartROSpecSent ;;
  console LogReport ;;
  parametersKeyValue <~ decodeParameter (getParameter msg) ;;
  match parametersKeyValue with
  | Some parameters => forEach reportStep parameters
  | None => ret tt
  end.

Definition handleROAccessReport (msg : LLRPMessage) : M unit :=
  nextTick (ReportTick msg).

(** The [switch] on [message.type.value]: the first matching case runs. *)
Definition dispatch (msg : LLRPMessage) : M unit :=
  let t := type_value msg in
  if t =? READER_EVENT_NOTIFICATION messageC then handleReaderNotification msg
  else if t =? SET_READER_CONFIG_RESPONSE messageC then write bAddRoSpec
  else if t =? ADD_ROSPEC_RESPONSE messageC then write bEnableRoSpec
  else if t =? ENABLE_ROSPEC_RESPONSE messageC then sendStartROSpec
  else if t =? START_ROSPEC_RESPONSE messageC then write bEnableEventsAndReport
  else if t =? RO_ACCESS_REPORT messageC then handleROAccessReport msg
  else if t =? KEEPALIVE messageC then write bKeepaliveAck
  else ret tt.

(** The body of the [for ... in] loop of [onData]. *)
Definition receive (msg : LLRPMessage) : M unit :=
  console (LogReceiving (getTypeName msg)) ;;
  dispatch msg.

(** [onData]; [None] is a chunk that is [null] or [undefined]
    ([data == null]), anything else is a buffer, possibly of length 0. *)
Definition onData (data : option Buffer) : M unit :=
  match data with
  | None => console LogUndefinedData
  | Some chunk =>
      tell (DecodeMessage chunk) ;;
      (* [for ... in] over [undefined] runs no iteration *)
      forEach receive (default [] (decode_message decode chunk))
  end.

Definition onTimeout : M unit :=
  console LogTimeout ;; emit EmitTimeout.

Definition onConnect : M unit := console (LogConnected ipaddress port).

Definition onEnd : M unit := console LogDisconnected ;; emit EmitDisconnect.

(** [_this.emit('error', err)]: an emitter with no listener for
    ['error'] throws [err]. *)
Definition emitError (err : string) (heard : bool) : M unit :=
  emit (EmitError err) ;;
  if heard then ret tt else throw (Unhandled err).

Definition onError (err : string) (heard : bool) : M unit :=
  console (LogError err) ;; emitError err heard.

(** [this.connect]: the handlers are registered; what they do is above. *)
Definition connect : M unit :=
  tell (SetTimeout 60000) ;; tell (Connect port ipaddress).

(** *** The [process.nextTick] queue *)

Definition runTick (t : Tick) : M unit :=
  match t with
  | ReportTick msg => reportCallback msg
  | DidSeeTagTick tag => emit (EmitDidSeeTag tag)
  end.

Definition popTick : M (option Tick) := fun s =>
  match tickQueue s with
  | [] => ret None s
  | t :: rest => mkResult (Normal (Some t)) (withTickQueue rest s) []
  end.

(** Node runs the queued callbacks, oldest first, until the queue is
    empty; a callback may queue more. *)
Fixpoint drainTicks (fuel : nat) : M unit :=
  match fuel with
  | O => ret tt
  | S fuel' =>
      next <~ popTick ;;
      match next with
      | Some t => runTick t ;; drainTicks fuel'
      | None => ret tt
      end
  end.

(** A report callback queues at most one emit per decoded parameter,
    and an emit queues nothing. *)
Definition tickWeight (t : Tick) : nat :=
  match t with
  | ReportTick msg =>
      S (length (default [] (decode_parameter decode (getParameter msg))))
  | DidSeeTagTick _ => 1%nat
  end.

Definition queueWeight (q : list Tick) : nat :=
  foldr (fun t n => (tickWeight t + n)%nat) O q.

Definition processTicks : M unit := fun s =>
  drainTicks (queueWeight (tickQueue s)) s.

(** *** Socket events, each followed by the queued callbacks *)

Definition callback (ev : SocketEvent) : M unit :=
  match ev with
  | Connected => onConnect
  | TimedOut => onTimeout
  | Data data => onData data
  | Ended => onEnd
  | Errored err heard => onError err heard
  end.

Definition handle (ev : SocketEvent) : M unit :=
  callback ev ;; processTicks.

(** A whole run: an uncaught exception ends it. *)
Definition run (evs : list SocketEvent) : M unit := forEach handle evs.

(** *** Vocabulary of the claims *)

(** [msg] was decoded from a chunk of [evs]. *)
Definition received (evs : list SocketEvent) (msg : LLRPMessage) : Prop :=
  exists chunk msgs,
    Data (Some chunk) ∈ evs /\
    decode_message decode chunk = Some msgs /\
    msg ∈ msgs.

Definition tagReport (msg : LLRPMessage) : Prop :=
  type_value msg = RO_ACCESS_REPORT messageC.

(** The test of [handleReaderNotification]: an event-notification
    parameter whose flattened map holds an [ROSpecEvent] value with
    first byte 1. *)
Definition signalsCycleEnd (p : Param) : bool :=
  (type p =? ReaderEventNotificationData parameterC) &&
  match mapSubParameters p !! ROSpecEvent parameterC with
  | Some event =>
      match readUInt8 event 0 with
      | Some kind => kind =? 1
      | None => false
      end
  | None => false
  end.

Definition cycleEndNotification (msg : LLRPMessage) : Prop :=
  type_value msg = READER_EVENT_NOTIFICATION messageC /\
  exists ps p,
    decode_parameter decode (getParameter msg) = Some ps /\
    p ∈ ps /\ signalsCycleEnd p = true.

Definition justifiedTick (evs : list SocketEvent) (t : Tick) : Prop :=
  match t with
  | ReportTick msg => received evs msg /\ tagReport msg
  | DidSeeTagTick _ => True
  end.

Definition justifiedBy (evs : list SocketEvent) (e : Event) : Prop :=
  match e with
  | AssignStartROSpecSent false =>
      exists msg, received evs msg /\ (tagReport msg \/ cycleEndNotification msg)
  | NextTick t => justifiedTick evs t
  | _ => True
  end.

Definition accountable (evs : list SocketEvent)
  : Session -> list Event -> Session -> Prop :=
  fun s t s' =>
    Forall (justifiedTick evs) (tickQueue s) ->
    Forall (justifiedBy evs) t /\ Forall (justifiedTick evs) (tickQueue s').

Definition logged (line : LogLine) : list Event :=
  if log then [ConsoleLog line] else [].

Definition cycleEnded (ps : list Param) : bool := existsb signalsCycleEnd ps.

(** No event-notification parameter carries an [ROSpecEvent] value of
    zero bytes, on which [readUInt8(0)] raises. *)
Definition readable (p : Param) : Prop :=
  type p = ReaderEventNotificationData parameterC ->
  mapSubParameters p !! ROSpecEvent parameterC <> Some [].

(** The reading of a batch in which every message's action, deferred
    part included, is complete before the next message is handled. *)
Definition onDataInOrder (chunk : list byte) : M unit :=
  tell (DecodeMessage chunk) ;;
  forEach (fun msg => receive msg ;; processTicks)
          (default [] (decode_message decode chunk)).

(** *** Vocabulary of the further properties *)

(** Some [case] of the [switch] in [onData] matches the type code. *)
Definition recognized (msg : LLRPMessage) : bool :=
  let t := type_value msg in
  (t =? READER_EVENT_NOTIFICATION messageC)
  || (t =? SET_READER_CONFIG_RESPONSE messageC)
  || (t =? ADD_ROSPEC_RESPONSE messageC)
  || (t =? ENABLE_ROSPEC_RESPONSE messageC)
  || (t =? START_ROSPEC_RESPONSE messageC)
  || (t =? RO_ACCESS_REPORT messageC)
  || (t =? KEEPALIVE messageC).

(** The [case] that matches first is the one of [RO_ACCESS_REPORT]. *)
Definition handledAsReport (msg : LLRPMessage) : bool :=
  let t := type_value msg in
  negb (t =? READER_EVENT_NOTIFICATION messageC)
  && negb (t =? SET_READER_CONFIG_RESPONSE messageC)
  && negb (t =? ADD_ROSPEC_RESPONSE messageC)
  && negb (t =? ENABLE_ROSPEC_RESPONSE messageC)
  && negb (t =? START_ROSPEC_RESPONSE messageC)
  && (t =? RO_ACCESS_REPORT messageC).

(** What [handleROAccessReport] reads from one parameter: the tag it
    builds, or [None] when [readUInt16BE] raises. *)
Definition tagOf (p : Param) : option Tag :=
  let subParameters := mapSubParameters p in
  match
    match subParameters !! TagSeenCount parameterC with
    | Some seen => readUInt16BE seen 0
    | None => Some 0
    end
  with
  | Some count =>
      Some {| tagID := toStringHex <$> subParameters !! EPC96 parameterC;
              tagSeenCount := count |}
  | None => None
  end.

(** The tag one parameter of a report gets emitted, if any. *)
Definition observation (p : Param) : option Tag :=
  if type p =? TagReportData parameterC then
    match tagOf p with
    | Some tag => if tagIDTruthy (tagID tag) then Some tag else None
    | None => None
    end
  else None.

Definition observations (ps : list Param) : list Tag := omap observation ps.

(** A tag-report-data parameter whose count, if present, has the two
    bytes [readUInt16BE(0)] reads. *)
Definition countable (p : Param) : Prop :=
  type p = TagReportData parameterC -> is_Some (tagOf p).

(** The type codes of the five messages of the start-up exchange are
    pairwise different, so that the [switch] tells them apart. *)
Definition handshakeCodesDistinct : Prop :=
  NoDup [READER_EVENT_NOTIFICATION messageC;
         SET_READER_CONFIG_RESPONSE messageC;
         ADD_ROSPEC_RESPONSE messageC;
         ENABLE_ROSPEC_RESPONSE messageC;
         START_ROSPEC_RESPONSE messageC].

(** The parameters [decode.parameter] finds in the block of a message;
    none when it answers [undefined]. *)
Definition parametersOf (msg : LLRPMessage) : list Param :=
  default [] (decode_parameter decode (getParameter msg)).

End Session.

(** The closure that [new llrpMain(config)] builds over given tables and
    a given decoder. *)
Definition closure (mC : MessageConstants) (pC : ParameterConstants)
    (dec : Decoder) (config : gmap string JSValue) : Env :=
  {| messageC := mC; parameterC := pC; decode := dec;
     ipaddress := ipaddressOf config; port := portOf config;
     log := logOf config |}.

(** [new llrpMain(config)], [connect()], then the socket events [evs]. *)
Definition behaviour (mC : MessageConstants) (pC : ParameterConstants)
    (dec : Decoder) (config : gmap string JSValue) (evs : list SocketEvent)
  : Result unit :=
  let env := closure mC pC dec config in
  (connect ;; run evs) (initialSession config).

(** Two configuration objects with the same properties of the given
    names. *)
Definition agreeOn (names : list string) (c1 c2 : gmap string JSValue) : Prop :=
  forall name, name ∈ names -> c1 !! name = c2 !! name.

(** The properties of the configuration object that [llrpMain] reads. *)
Definition configurationFields : list string :=
  ["ipaddress"; "port"; "log"; "isReaderConfigSet"; "isStartROSpecSent"].

(** ** Concrete tables and decoders, for evaluation

    The numbering of LLRP 1.0.1; the code takes it from
    [LLRPMessagesConstants.js] and [LLRPParametersConstants.js]. *)

Definition llrpMessageC : MessageConstants :=
  {| READER_EVENT_NOTIFICATION := 63;
     SET_READER_CONFIG_RESPONSE := 13;
     ADD_ROSPEC_RESPONSE := 30;
     ENABLE_ROSPEC_RESPONSE := 34;
     START_ROSPEC_RESPONSE := 32;
     RO_ACCESS_REPORT := 61;
     KEEPALIVE := 62 |}.

Definition llrpParameterC : ParameterConstants :=
  {| ReaderEventNotificationData := 246;
     ROSpecEvent := 249;
     TagReportData := 240;
     EPC96 := 13;
     TagSeenCount := 8 |}.

(** A decoder that answers every chunk with the messages [msgs] and
    every parameter block with the parameters [ps]. *)
Definition fixedDecoder (msgs : list LLRPMessage) (ps : list Param) : Decoder :=
  {| decode_message := fun _ => Some msgs;
     decode_parameter := fun _ => Some ps |}.

Definition messageOfType (t : Z) : LLRPMessage :=
  {| type_value := t; getParameter := []; getTypeName := EmptyString |}.

(** The closure over the LLRP tables, a decoder and a configuration. *)
Definition llrpEnv (dec : Decoder) (config : gmap string JSValue) : Env :=
  closure llrpMessageC llrpParameterC dec config.

(** The same closure with [log] false. *)
Definition silenced (e : Env) : Env :=
  {| messageC := @messageC e; parameterC := @parameterC e; decode := @decode e;
     ipaddress := @ipaddress e; port := @port e; log := false |}.

(** A decoder that answers [undefined] to everything. *)
Definition undefinedDecoder : Decoder :=
  {| decode_message := fun _ => None;
     decode_parameter := fun _ => None |}.

(** A decoder that reads every byte of a chunk as one message, the byte
    being its type code, and finds no parameter in any block. *)
Definition typeCodeDecoder : Decoder :=
  {| decode_message := fun chunk =>
       Some ((fun b => messageOfType (byteValue b)) <$> chunk);
     decode_parameter := fun _ => Some [] |}.

(** ** Properties *)

Section Properties.

Context {env : Env}.

(** *** Accepted traces compose *)

Lemma scan_app {Q} (step : Q -> Event -> option Q) q t1 t2 :
  scan step q (t1 ++ t2) =
    match scan step q t1 with
    | Some q' => scan step q' t2
    | None => None
    end.
Proof.
  revert q. induction t1 as [|e t1 IH]; intros q; simpl; [reflexivity|].
  destruct (step q e); [apply IH | reflexivity].
Qed.

Lemma lawful_nil s : lawful s [] s.
Proof. split; reflexivity. Qed.

Lemma lawful_app s t1 s1 t2 s2 :
  lawful s t1 s1 -> lawful s1 t2 s2 -> lawful s (t1 ++ t2) s2.
Proof.
  intros [Ha Hb] [Hc Hd]. split; rewrite scan_app.
  - now rewrite Ha.
  - now rewrite Hb.
Qed.

Lemma obeys_ret {A} (a : A) : obeys (ret a).
Proof. intros s. apply lawful_nil. Qed.

Lemma obeys_throw {A} e : obeys (@throw A e).
Proof. intros s. apply lawful_nil. Qed.

Lemma obeys_bind {A B} (m : M A) (f : A -> M B) :
  obeys m -> (forall a, obeys (f a)) -> obeys (bind m f).
Proof.
  intros Hm Hf s. unfold bind.
  destruct (outcome (m s)) as [a|e]; simpl.
  - eapply lawful_app; [apply Hm | apply Hf].
  - apply Hm.
Qed.

Lemma obeys_when c (m : M unit) : obeys m -> obeys (when c m).
Proof. intros H. destruct c; simpl; [exact H | apply obeys_ret]. Qed.

Lemma obeys_orThrow {A} (o : option A) e : obeys (orThrow o e).
Proof. destruct o; [apply obeys_ret | apply obeys_throw]. Qed.

Lemma obeys_forEach {A} (f : A -> M unit) l :
  (forall x, obeys (f x)) -> obeys (forEach f l).
Proof.
  intros H. induction l as [|x l IH]; simpl.
  - apply obeys_ret.
  - apply obeys_bind; [apply H | intros _; exact IH].
Qed.

Lemma neutral_steps e s :
  neutral e = true ->
  startStep (startPhase s) e = Some (startPhase s) /\
  configStep (configPhase s) e = Some (configPhase s).
Proof.
  intros H. unfold startPhase, configPhase.
  destruct (isStartROSpecSent s), (isReaderConfigSet s), e; simpl in *;
    try discriminate; try (split; reflexivity);
    apply andb_prop in H as [H1 H2];
    apply negb_true_iff in H1, H2; rewrite H1, H2; split; reflexivity.
Qed.

Lemma obeys_tell e : neutral e = true -> obeys (tell e).
Proof.
  intros H s. destruct (neutral_steps e s H) as [Ha Hb].
  split; simpl; [now rewrite Ha | now rewrite Hb].
Qed.

Lemma obeys_console line : obeys (console line).
Proof. apply obeys_when, obeys_tell. reflexivity. Qed.

Lemma obeys_emit e : obeys (emit e).
Proof. apply obeys_tell. reflexivity. Qed.

Lemma obeys_nextTick t : obeys (nextTick t).
Proof.
  intros s. destruct (neutral_steps (NextTick t) s eq_refl) as [Ha Hb].
  split; simpl; [now rewrite Ha | now rewrite Hb].
Qed.

Lemma obeys_popTick : obeys popTick.
Proof.
  intros s. unfold popTick. destruct (tickQueue s); [apply lawful_nil|].
  split; reflexivity.
Qed.

Lemma obeys_resetIsStartROSpecSent : obeys resetIsStartROSpecSent.
Proof.
  intros [c st q]. unfold lawful, startPhase, configPhase.
  destruct c, st; split; reflexivity.
Qed.

Lemma obeys_sendStartROSpec : obeys sendStartROSpec.
Proof.
  intros [c st q]. unfold lawful, startPhase, configPhase, sendStartROSpec.
  destruct c, st; split; reflexivity.
Qed.

(** The tail of [handleReaderNotification]. *)
Lemma obeys_configure :
  obeys (fun s =>
           if negb (isReaderConfigSet s)
           then (write bSetReaderConfig ;; assignReaderConfigSet true) s
           else sendStartROSpec s).
Proof.
  intros [c st q]. unfold lawful, startPhase, configPhase, sendStartROSpec.
  destruct c, st; split; reflexivity.
Qed.

Lemma obeys_notificationStep p : obeys (notificationStep p).
Proof.
  unfold notificationStep. destruct (_ =? _); [|apply obeys_ret].
  destruct (_ !! _); [|apply obeys_ret].
  apply obeys_bind; [apply obeys_orThrow|].
  intros kind. destruct (kind =? 1);
    [apply obeys_resetIsStartROSpecSent | apply obeys_ret].
Qed.

Lemma obeys_decodeParameter block : obeys (decodeParameter block).
Proof.
  apply obeys_bind; [apply obeys_tell; reflexivity | intros _; apply obeys_ret].
Qed.

Lemma obeys_handleReaderNotification msg : obeys (handleReaderNotification msg).
Proof.
  apply obeys_bind; [apply obeys_decodeParameter|]. intros pkv.
  apply obeys_bind; [apply obeys_orThrow|]. intros ps.
  apply obeys_bind; [apply obeys_forEach, obeys_notificationStep|]. intros _.
  apply obeys_configure.
Qed.

Lemma obeys_reportStep p : obeys (reportStep p).
Proof.
  unfold reportStep. destruct (_ =? _); [|apply obeys_ret].
  apply obeys_bind.
  - apply obeys_bind; [|intros count; apply obeys_ret].
    destruct (_ !! TagSeenCount _); [apply obeys_orThrow | apply obeys_ret].
  - intros tag. apply obeys_bind; [apply obeys_console|]. intros _.
    destruct (tagIDTruthy _); [apply obeys_nextTick | apply obeys_ret].
Qed.

Lemma obeys_reportCallback msg : obeys (reportCallback msg).
Proof.
  apply obeys_bind; [apply obeys_resetIsStartROSpecSent|]. intros _.
  apply obeys_bind; [apply obeys_console|]. intros _.
  apply obeys_bind; [apply obeys_decodeParameter|]. intros [ps|].
  - apply obeys_forEach, obeys_reportStep.
  - apply obeys_ret.
Qed.

Lemma obeys_write_other buf :
  buf <> bStartRoSpec -> buf <> bSetReaderConfig -> obeys (write buf).
Proof.
  intros H1 H2. apply obeys_tell. simpl.
  now rewrite !bool_decide_eq_false_2.
Qed.

Lemma obeys_dispatch msg : obeys (dispatch msg).
Proof.
  unfold dispatch.
  repeat (destruct (_ =? _);
          [first [ apply obeys_handleReaderNotification
                 | apply obeys_sendStartROSpec
                 | apply obeys_nextTick
                 | apply obeys_write_other; discriminate ] |]).
  apply obeys_ret.
Qed.

Lemma obeys_onData data : obeys (onData data).
Proof.
  destruct data as [chunk|]; simpl; [|apply obeys_console].
  apply obeys_bind; [apply obeys_tell; reflexivity|]. intros _.
  apply obeys_forEach. intros msg.
  apply obeys_bind; [apply obeys_console | intros _; apply obeys_dispatch].
Qed.

Lemma obeys_emitError err heard : obeys (emitError err heard).
Proof.
  apply obeys_bind; [apply obeys_emit | intros _].
  destruct heard; [apply obeys_ret | apply obeys_throw].
Qed.

Lemma obeys_callback ev : obeys (callback ev).
Proof.
  destruct ev; simpl.
  - apply obeys_console.
  - apply obeys_bind; [apply obeys_console | intros _; apply obeys_emit].
  - apply obeys_onData.
  - apply obeys_bind; [apply obeys_console | intros _; apply obeys_emit].
  - apply obeys_bind; [apply obeys_console | intros _; apply obeys_emitError].
Qed.

Lemma obeys_runTick t : obeys (runTick t).
Proof. destruct t; [apply obeys_reportCallback | apply obeys_emit]. Qed.

Lemma obeys_drainTicks fuel : obeys (drainTicks fuel).
Proof.
  induction fuel as [|fuel IH]; simpl; [apply obeys_ret|].
  apply obeys_bind; [apply obeys_popTick|]. intros [t|]; [|apply obeys_ret].
  apply obeys_bind; [apply obeys_runTick | intros _; exact IH].
Qed.

Lemma obeys_processTicks : obeys processTicks.
Proof. intros s. apply obeys_drainTicks. Qed.

Lemma obeys_handle ev : obeys (handle ev).
Proof.
  apply obeys_bind; [apply obeys_callback | intros _; apply obeys_processTicks].
Qed.

Lemma obeys_run evs : obeys (run evs).
Proof. apply obeys_forEach, obeys_handle. Qed.

(** *** Relations between the state before, the trace and the state after *)

Section Respects.

Context (R : Session -> list Event -> Session -> Prop) `{!Compositional R}.

Lemma respects_ret {A} (a : A) : respects R (ret a).
Proof. intros s. apply comp_nil. Qed.

Lemma respects_throw {A} e : respects R (@throw A e).
Proof. intros s. apply comp_nil. Qed.

Lemma respects_emitError err heard :
  respects R (tell (Emit (EmitError err))) -> respects R (emitError err heard).
Proof.
  intros H s. unfold emitError, emit, bind. cbn [tell outcome after trace].
  destruct heard; cbn [ret throw outcome after trace]; rewrite app_nil_r;
    apply H.
Qed.

Lemma respects_bind {A B} (m : M A) (f : A -> M B) :
  respects R m -> (forall a, respects R (f a)) -> respects R (bind m f).
Proof.
  intros Hm Hf s. unfold bind.
  destruct (outcome (m s)) as [a|e]; simpl.
  - eapply comp_app; [apply Hm | apply Hf].
  - apply Hm.
Qed.

(** The continuation only matters at the values [m] can return. *)
Lemma respects_bind_returned {A B} (m : M A) (f : A -> M B) :
  respects R m ->
  (forall a s, outcome (m s) = Normal a -> respects R (f a)) ->
  respects R (bind m f).
Proof.
  intros Hm Hf s. unfold bind.
  destruct (outcome (m s)) as [a|e] eqn:Ho; simpl.
  - eapply comp_app; [apply Hm | eapply Hf, Ho].
  - apply Hm.
Qed.

Lemma respects_when c (m : M unit) : respects R m -> respects R (when c m).
Proof. intros H. destruct c; simpl; [exact H | apply respects_ret]. Qed.

Lemma respects_orThrow {A} (o : option A) e : respects R (orThrow o e).
Proof. destruct o; [apply respects_ret | apply respects_throw]. Qed.

Lemma respects_forEach {A} (f : A -> M unit) l :
  (forall x, x ∈ l -> respects R (f x)) -> respects R (forEach f l).
Proof.
  induction l as [|x l IH]; intros H; simpl.
  - apply respects_ret.
  - apply respects_bind; [apply H; left | intros _].
    apply IH. intros y Hy. apply H. now right.
Qed.

Lemma respects_branch {A} (c : Session -> bool) (m1 m2 : M A) :
  respects R m1 -> respects R m2 ->
  respects R (fun s => if c s then m1 s else m2 s).
Proof. intros H1 H2 s. destruct (c s); [apply H1 | apply H2]. Qed.

End Respects.

#[local] Instance emitsOnly_compositional P : Compositional (emitsOnly P).
Proof.
  split; unfold emitsOnly.
  - intros _. constructor.
  - intros _ t1 _ t2 _ H1 H2. apply Forall_app. now split.
Qed.

Lemma emitsOnly_tell P e : P e -> respects (emitsOnly P) (tell e).
Proof. intros H s. constructor; [exact H | constructor]. Qed.

Lemma emitsOnly_console P line :
  P (ConsoleLog line) -> respects (emitsOnly P) (console line).
Proof. intros H. apply respects_when; [apply _|]. now apply emitsOnly_tell. Qed.

Lemma emitsOnly_nextTick P t : P (NextTick t) -> respects (emitsOnly P) (nextTick t).
Proof. intros H s. constructor; [exact H | constructor]. Qed.

Lemma emitsOnly_popTick P : respects (emitsOnly P) popTick.
Proof. intros s. unfold popTick. destruct (tickQueue s); constructor. Qed.

Lemma emitsOnly_assignStart P v :
  P (AssignStartROSpecSent v) -> respects (emitsOnly P) (assignStartROSpecSent v).
Proof. intros H s. constructor; [exact H | constructor]. Qed.

Lemma emitsOnly_decodeParameter P block :
  P (DecodeParameter block) -> respects (emitsOnly P) (decodeParameter block).
Proof.
  intros H. apply respects_bind; [apply _ | now apply emitsOnly_tell |].
  intros _. apply respects_ret. apply _.
Qed.

(** *** The queued callbacks write nothing to the socket *)

Lemma reportStep_notWrite p : respects (emitsOnly notWrite) (reportStep p).
Proof.
  unfold reportStep. destruct (_ =? _); [|apply respects_ret; apply _].
  apply respects_bind; [apply _ | |].
  - apply respects_bind; [apply _ | | intros count; apply respects_ret; apply _].
    destruct (_ !! TagSeenCount _);
      [apply respects_orThrow | apply respects_ret]; apply _.
  - intros tag. apply respects_bind; [apply _ | now apply emitsOnly_console |].
    intros _. destruct (tagIDTruthy _);
      [now apply emitsOnly_nextTick | apply respects_ret; apply _].
Qed.

Lemma runTick_notWrite t : respects (emitsOnly notWrite) (runTick t).
Proof.
  destruct t as [msg|tag]; simpl; [|now apply emitsOnly_tell].
  apply respects_bind; [apply _ | now apply emitsOnly_assignStart |]. intros _.
  apply respects_bind; [apply _ | now apply emitsOnly_console |]. intros _.
  apply respects_bind; [apply _ | now apply emitsOnly_decodeParameter |].
  intros [ps|]; [|apply respects_ret; apply _].
  apply respects_forEach; [apply _|]. intros p _. apply reportStep_notWrite.
Qed.

Lemma drainTicks_notWrite fuel : respects (emitsOnly notWrite) (drainTicks fuel).
Proof.
  induction fuel as [|fuel IH]; simpl; [apply respects_ret; apply _|].
  apply respects_bind; [apply _ | apply emitsOnly_popTick |].
  intros [t|]; [|apply respects_ret; apply _].
  apply respects_bind; [apply _ | apply runTick_notWrite | intros _; exact IH].
Qed.

Lemma notWrite_writesOf t : Forall notWrite t -> writesOf t = [].
Proof.
  induction 1 as [|e t He _ IH]; [reflexivity|].
  destruct e; simpl in *; try exact IH. contradiction.
Qed.

Lemma processTicks_writes s : writesOf (trace (processTicks s)) = [].
Proof. apply notWrite_writesOf, drainTicks_notWrite. Qed.

(** *** What joins the queue, and why it empties *)

#[local] Instance queued_compositional : Compositional queued.
Proof.
  split; unfold queued.
  - intros s. simpl. now rewrite app_nil_r.
  - intros s t1 s1 t2 s2 H1 H2. unfold ticksOf.
    rewrite omap_app, H2, H1. now rewrite app_assoc.
Qed.

Lemma queued_tell e : notNextTick e -> respects queued (tell e).
Proof.
  intros H s. unfold queued. destruct e; simpl in *;
    try contradiction; now rewrite app_nil_r.
Qed.

Lemma queued_console line : respects queued (console line).
Proof. apply respects_when; [apply _|]. now apply queued_tell. Qed.

Lemma queued_nextTick t : respects queued (nextTick t).
Proof. intros s. reflexivity. Qed.

Lemma queued_assignStart v : respects queued (assignStartROSpecSent v).
Proof. intros s. unfold queued. simpl. now rewrite app_nil_r. Qed.

Lemma queued_assignConfig v : respects queued (assignReaderConfigSet v).
Proof. intros s. unfold queued. simpl. now rewrite app_nil_r. Qed.

Lemma queued_decodeParameter block : respects queued (decodeParameter block).
Proof.
  apply respects_bind; [apply _ | now apply queued_tell |].
  intros _. apply respects_ret. apply _.
Qed.

Lemma queued_sendStartROSpec : respects queued sendStartROSpec.
Proof.
  apply (respects_branch queued (fun s => negb (isStartROSpecSent s))).
  - apply respects_bind; [apply _ | apply queued_assignStart |].
    intros _. now apply queued_tell.
  - apply respects_ret. apply _.
Qed.

Lemma queued_reportStep p : respects queued (reportStep p).
Proof.
  unfold reportStep. destruct (_ =? _); [|apply respects_ret; apply _].
  apply respects_bind; [apply _ | |].
  - apply respects_bind; [apply _ | | intros count; apply respects_ret; apply _].
    destruct (_ !! TagSeenCount _);
      [apply respects_orThrow | apply respects_ret]; apply _.
  - intros tag. apply respects_bind; [apply _ | apply queued_console |].
    intros _. destruct (tagIDTruthy _);
      [apply queued_nextTick | apply respects_ret; apply _].
Qed.

Lemma queued_reportCallback msg : respects queued (reportCallback msg).
Proof.
  apply respects_bind; [apply _ | apply queued_assignStart |]. intros _.
  apply respects_bind; [apply _ | apply queued_console |]. intros _.
  apply respects_bind; [apply _ | apply queued_decodeParameter |].
  intros [ps|]; [|apply respects_ret; apply _].
  apply respects_forEach; [apply _|]. intros p _. apply queued_reportStep.
Qed.

Lemma queued_runTick t : respects queued (runTick t).
Proof.
  destruct t; [apply queued_reportCallback | now apply queued_tell].
Qed.

Lemma queued_handleReaderNotification msg :
  respects queued (handleReaderNotification msg).
Proof.
  apply respects_bind; [apply _ | apply queued_decodeParameter |]. intros pkv.
  apply respects_bind; [apply _ | apply respects_orThrow; apply _ |]. intros ps.
  apply respects_bind; [apply _ | |].
  - apply respects_forEach; [apply _|]. intros p _. unfold notificationStep.
    destruct (_ =? _); [|apply respects_ret; apply _].
    destruct (_ !! _); [|apply respects_ret; apply _].
    apply respects_bind; [apply _ | apply respects_orThrow; apply _ |].
    intros kind. destruct (kind =? 1);
      [apply queued_assignStart | apply respects_ret; apply _].
  - intros _.
    apply (respects_branch queued (fun s => negb (isReaderConfigSet s))).
    + apply respects_bind; [apply _ | now apply queued_tell |].
      intros _. apply queued_assignConfig.
    + apply queued_sendStartROSpec.
Qed.

Lemma queued_dispatch msg : respects queued (dispatch msg).
Proof.
  unfold dispatch.
  repeat (destruct (_ =? _);
          [first [ apply queued_handleReaderNotification
                 | apply queued_sendStartROSpec
                 | apply queued_nextTick
                 | now apply queued_tell ] |]).
  apply respects_ret. apply _.
Qed.

Lemma queued_callback ev : respects queued (callback ev).
Proof.
  destruct ev as [| |[chunk|]| |err heard]; simpl;
    try apply queued_console;
    try (apply respects_bind;
         [apply _ | apply queued_console | intros _; now apply queued_tell]);
    try (apply respects_bind;
         [apply _ | apply queued_console
         | intros _; apply respects_emitError;
           first [now apply queued_tell | apply _]]).
  apply respects_bind; [apply _ | now apply queued_tell |]. intros _.
  apply respects_forEach; [apply _|]. intros msg _.
  apply respects_bind; [apply _ | apply queued_console |]. intros _.
  apply queued_dispatch.
Qed.

Lemma queueWeight_app q1 q2 :
  queueWeight (q1 ++ q2) = (queueWeight q1 + queueWeight q2)%nat.
Proof.
  induction q1 as [|t q1 IH]; simpl; [reflexivity|].
  unfold queueWeight in *. simpl. rewrite IH. lia.
Qed.

Lemma queueWeight_emits q : Forall isEmitTick q -> queueWeight q = length q.
Proof.
  induction 1 as [|t q Ht _ IH]; [reflexivity|].
  destruct t; [contradiction|]. unfold queueWeight in *. simpl. now rewrite IH.
Qed.

(** One report step queues at most one callback, and only an emit. *)
Lemma reportStep_ticks p s :
  Forall isEmitTick (ticksOf (trace (reportStep p s))) /\
  (length (ticksOf (trace (reportStep p s))) <= 1)%nat.
Proof.
  unfold reportStep. destruct (_ =? _); [|simpl; split; [constructor | lia]].
  unfold makeTag, bind, console, when.
  destruct (_ !! TagSeenCount _) as [seen|];
    [destruct (readUInt16BE seen 0)|]; simpl;
    try (split; [constructor | lia]);
    destruct log; simpl; destruct (tagIDTruthy _); simpl;
    (split; [repeat constructor | lia]).
Qed.

Lemma forEach_reportStep_ticks ps s :
  Forall isEmitTick (ticksOf (trace (forEach reportStep ps s))) /\
  (length (ticksOf (trace (forEach reportStep ps s))) <= length ps)%nat.
Proof.
  revert s. induction ps as [|p ps IH]; intros s; simpl.
  - split; [constructor | lia].
  - destruct (reportStep_ticks p s) as [Ha Hb]. unfold bind.
    destruct (outcome (reportStep p s)); simpl.
    + destruct (IH (after (reportStep p s))) as [Hc Hd].
      unfold ticksOf in *. rewrite omap_app, length_app.
      split; [apply Forall_app; now split | lia].
    + split; [exact Ha | lia].
Qed.

Lemma runTick_ticks t s :
  Forall isEmitTick (ticksOf (trace (runTick t s))) /\
  (length (ticksOf (trace (runTick t s))) < tickWeight t)%nat.
Proof.
  destruct t as [msg|tag]; simpl; [|split; [constructor | lia]].
  unfold reportCallback, decodeParameter, resetIsStartROSpecSent, console, when.
  destruct log; unfold bind; simpl;
    destruct (decode_parameter decode (getParameter msg)) as [ps|]; simpl;
    try (split; [constructor | lia]).
  - destruct (forEach_reportStep_ticks ps (withStartROSpecSent false s))
      as [Ha Hb].
    split; [exact Ha | lia].
  - destruct (forEach_reportStep_ticks ps (withStartROSpecSent false s))
      as [Ha Hb].
    split; [exact Ha | lia].
Qed.

(** With the fuel [processTicks] gives it, the loop stops on an empty
    queue or on an exception, never for lack of fuel. *)
Lemma drainTicks_empties fuel s :
  (queueWeight (tickQueue s) <= fuel)%nat ->
  outcome (drainTicks fuel s) = Normal tt ->
  tickQueue (after (drainTicks fuel s)) = [].
Proof.
  revert s. induction fuel as [|fuel IH]; intros s Hw Hn.
  - simpl. destruct (tickQueue s) as [|t q]; [reflexivity|].
    unfold queueWeight in Hw. simpl in Hw. destruct t; simpl in Hw; lia.
  - simpl in Hn |- *. unfold bind at 1 in Hn. unfold bind at 1.
    unfold popTick in *.
    destruct (tickQueue s) as [|t q] eqn:Hq; simpl in Hn |- *; [exact Hq|].
    set (s1 := withTickQueue q s) in *.
    unfold bind in Hn |- *.
    destruct (outcome (runTick t s1)) eqn:Hr; simpl in Hn |- *; [|discriminate].
    apply IH; [|exact Hn].
    rewrite (queued_runTick t s1). simpl. rewrite queueWeight_app.
    destruct (runTick_ticks t s1) as [Ha Hb].
    rewrite (queueWeight_emits _ Ha).
    unfold queueWeight in Hw. simpl in Hw. unfold queueWeight. lia.
Qed.

Lemma processTicks_empties s :
  outcome (processTicks s) = Normal tt ->
  tickQueue (after (processTicks s)) = [].
Proof. apply drainTicks_empties. lia. Qed.

(** *** What an accepted trace looks like *)

Lemma scan_start_flag ph t ph' :
  scan startStep ph t = Some ph' ->
  flagOfPhase ph' = startFlagAfter (flagOfPhase ph) t.
Proof.
  revert ph. induction t as [|e t IH]; intros ph H; simpl in *.
  - now inversion H.
  - destruct (startStep ph e) as [q|] eqn:Hq; [|discriminate].
    rewrite (IH _ H). clear IH H.
    destruct ph, e as [| | | |buf| |[]| | |]; simpl in *;
      try discriminate; try (inversion Hq; reflexivity);
      destruct (bool_decide _); inversion Hq; reflexivity.
Qed.

Lemma scan_start_armed ph t :
  ph <> StartArmed ->
  scan startStep ph t = Some StartArmed ->
  exists t0, t = t0 ++ [AssignStartROSpecSent true] /\
             scan startStep ph t0 = Some StartIdle.
Proof.
  intros Hph. induction t as [|e t _] using rev_ind; intros H.
  - simpl in H. congruence.
  - rewrite scan_app in H.
    destruct (scan startStep ph t) as [q|] eqn:Hq; [|discriminate].
    simpl in H. exists t.
    destruct q, e as [| | | |buf| |[]| | |]; simpl in H;
      try discriminate; try (split; [reflexivity | exact Hq]);
      destruct (bool_decide _); discriminate.
Qed.

Lemma scan_start_write ph t1 t2 ph' :
  ph <> StartArmed ->
  scan startStep ph (t1 ++ Write bStartRoSpec :: t2) = Some ph' ->
  exists t0, t1 = t0 ++ [AssignStartROSpecSent true] /\
             scan startStep ph t0 = Some StartIdle.
Proof.
  intros Hph H. rewrite scan_app in H.
  destruct (scan startStep ph t1) as [q|] eqn:Hq; [|discriminate].
  apply scan_start_armed; [exact Hph|].
  destruct q; [| exact Hq |]; simpl in H;
    first [ discriminate
          | rewrite bool_decide_eq_true_2 in H by reflexivity; discriminate ].
Qed.

Lemma scan_start_segment ph seg ph' :
  scan startStep ph seg = Some ph' ->
  countWhere isStartReset seg = O ->
  (countWhere isStartWrite seg <=
     match ph with StartSent => 0 | _ => 1 end)%nat.
Proof.
  revert ph. induction seg as [|e seg IH]; intros ph H Hr.
  - unfold countWhere. simpl. destruct ph; lia.
  - simpl in H. destruct (startStep ph e) as [q|] eqn:Hq; [|discriminate].
    unfold countWhere in *. simpl in *.
    destruct (isStartReset e) eqn:He; [discriminate|].
    specialize (IH q H Hr). clear H Hr.
    destruct ph, e as [| | | |buf| |[]| | |]; simpl in *;
      try discriminate; try (inversion Hq; subst q; exact IH);
      try (inversion Hq; subst q; lia);
      destruct (bool_decide _); simpl; inversion Hq; subst q; simpl in *; lia.
Qed.

Lemma scan_config_facts ph t ph' :
  scan configStep ph t = Some ph' ->
  (AssignReaderConfigSet false ∉ t) /\
  (countWhere isConfigWrite t <=
     match ph with ConfigUnset => 1 | _ => 0 end)%nat /\
  (countWhere isConfigAssign t <=
     match ph with ConfigSet => 0 | _ => 1 end)%nat /\
  (ph = ConfigSet -> ph' = ConfigSet).
Proof.
  revert ph. induction t as [|e t IH]; intros ph H.
  - simpl in *. inversion H. unfold countWhere. simpl.
    repeat split; try (destruct ph; lia); [apply not_elem_of_nil | auto].
  - simpl in H. destruct (configStep ph e) as [q|] eqn:Hq; [|discriminate].
    destruct (IH q H) as (Ha & Hb & Hc & Hd). clear IH H.
    unfold countWhere in *. simpl.
    assert (He : e <> AssignReaderConfigSet false).
    { intros ->. destruct ph; discriminate. }
    rewrite not_elem_of_cons.
    destruct ph, e as [| | | |buf|[]| | | |]; simpl in *;
      try discriminate; try (inversion Hq; subst q);
      try (repeat split; auto; try lia; congruence);
      destruct (bool_decide _); simpl; inversion Hq; subst q;
      repeat split; auto; try lia; congruence.
Qed.

(** *** Where a reset of the start flag comes from *)

#[local] Instance accountable_compositional evs : Compositional (accountable evs).
Proof.
  split; unfold accountable.
  - intros s H. split; [constructor | exact H].
  - intros s t1 s1 t2 s2 H1 H2 H. destruct (H1 H) as [Ha Hb].
    destruct (H2 Hb) as [Hc Hd]. split; [|exact Hd].
    apply Forall_app. now split.
Qed.

Lemma justified_ticksOf evs t :
  Forall (justifiedBy evs) t -> Forall (justifiedTick evs) (ticksOf t).
Proof.
  induction 1 as [|e t He _ IH]; [constructor|].
  destruct e; simpl; try exact IH. constructor; [exact He | exact IH].
Qed.

Lemma accountable_of evs {A} (m : M A) :
  respects (emitsOnly (justifiedBy evs)) m -> respects queued m ->
  respects (accountable evs) m.
Proof.
  intros He Hq s H. split; [apply He|].
  rewrite (Hq s). apply Forall_app. split; [exact H|].
  apply justified_ticksOf, He.
Qed.

Lemma sendStartROSpec_justified evs :
  respects (emitsOnly (justifiedBy evs)) sendStartROSpec.
Proof.
  intros s. unfold sendStartROSpec.
  destruct (isStartROSpecSent s); simpl; repeat constructor.
Qed.

Lemma notificationStep_justified evs msg ps p :
  received evs msg ->
  type_value msg = READER_EVENT_NOTIFICATION messageC ->
  decode_parameter decode (getParameter msg) = Some ps ->
  p ∈ ps ->
  respects (emitsOnly (justifiedBy evs)) (notificationStep p).
Proof.
  intros Hrecv Htype Hps Hin. unfold notificationStep.
  destruct (_ =? _) eqn:Hp; [|apply respects_ret; apply _].
  destruct (_ !! _) as [event|] eqn:Hev; [|apply respects_ret; apply _].
  apply respects_bind_returned; [apply _ | apply respects_orThrow; apply _ |].
  intros kind s Hk.
  destruct (readUInt8 event 0) as [k|] eqn:Hread; simpl in Hk; [|discriminate].
  inversion Hk; subst k.
  destruct (kind =? 1) eqn:Hone; [|apply respects_ret; apply _].
  apply emitsOnly_assignStart. exists msg. split; [exact Hrecv|]. right.
  split; [exact Htype|]. exists ps, p. repeat split; auto.
  unfold signalsCycleEnd. now rewrite Hp, Hev, Hread, Hone.
Qed.

Lemma handleReaderNotification_justified evs msg :
  received evs msg ->
  type_value msg = READER_EVENT_NOTIFICATION messageC ->
  respects (emitsOnly (justifiedBy evs)) (handleReaderNotification msg).
Proof.
  intros Hrecv Htype.
  apply respects_bind_returned;
    [apply _ | now apply emitsOnly_decodeParameter |].
  intros pkv s0 Hpkv. simpl in Hpkv. inversion Hpkv; subst pkv. clear Hpkv.
  apply respects_bind_returned; [apply _ | apply respects_orThrow; apply _ |].
  intros ps s1 Hps.
  destruct (decode_parameter decode (getParameter msg)) as [ps'|] eqn:Hdec;
    simpl in Hps; [|discriminate].
  inversion Hps; subst ps'. clear Hps.
  apply respects_bind; [apply _ | |].
  - apply respects_forEach; [apply _|]. intros p Hp.
    now apply (notificationStep_justified evs msg ps).
  - intros _.
    apply (respects_branch _ (fun s => negb (isReaderConfigSet s))).
    + intros s. simpl. repeat constructor.
    + apply sendStartROSpec_justified.
Qed.

Lemma dispatch_justified evs msg :
  received evs msg -> respects (emitsOnly (justifiedBy evs)) (dispatch msg).
Proof.
  intros Hrecv. unfold dispatch.
  destruct (_ =? READER_EVENT_NOTIFICATION _) eqn:H1;
    [apply handleReaderNotification_justified; [exact Hrecv | lia]|].
  clear H1.
  destruct (_ =? SET_READER_CONFIG_RESPONSE _); [now apply emitsOnly_tell|].
  destruct (_ =? ADD_ROSPEC_RESPONSE _); [now apply emitsOnly_tell|].
  destruct (_ =? ENABLE_ROSPEC_RESPONSE _); [apply sendStartROSpec_justified|].
  destruct (_ =? START_ROSPEC_RESPONSE _); [now apply emitsOnly_tell|].
  destruct (_ =? RO_ACCESS_REPORT _) eqn:H6.
  { apply emitsOnly_nextTick. split; [exact Hrecv|]. unfold tagReport. lia. }
  destruct (_ =? KEEPALIVE _); [now apply emitsOnly_tell|].
  apply respects_ret. apply _.
Qed.

Lemma callback_justified evs ev :
  ev ∈ evs -> respects (emitsOnly (justifiedBy evs)) (callback ev).
Proof.
  intros Hin. destruct ev as [| |[chunk|]| |err heard]; simpl;
    try (now apply emitsOnly_console);
    try (apply respects_bind;
         [apply _ | now apply emitsOnly_console
         | intros _; now apply emitsOnly_tell]);
    try (apply respects_bind;
         [apply _ | now apply emitsOnly_console
         | intros _; apply respects_emitError;
           first [now apply emitsOnly_tell | apply _]]).
  apply respects_bind; [apply _ | now apply emitsOnly_tell |]. intros _.
  apply respects_forEach; [apply _|]. intros msg Hmsg.
  apply respects_bind; [apply _ | now apply emitsOnly_console |]. intros _.
  apply dispatch_justified.
  destruct (decode_message decode chunk) as [msgs|] eqn:Hdec; simpl in Hmsg.
  - exists chunk, msgs. auto.
  - now apply elem_of_nil in Hmsg.
Qed.

Lemma reportStep_justified evs p :
  respects (emitsOnly (justifiedBy evs)) (reportStep p).
Proof.
  unfold reportStep. destruct (_ =? _); [|apply respects_ret; apply _].
  apply respects_bind; [apply _ | |].
  - apply respects_bind; [apply _ | | intros count; apply respects_ret; apply _].
    destruct (_ !! TagSeenCount _);
      [apply respects_orThrow | apply respects_ret]; apply _.
  - intros tag. apply respects_bind; [apply _ | now apply emitsOnly_console |].
    intros _. destruct (tagIDTruthy _);
      [now apply emitsOnly_nextTick | apply respects_ret; apply _].
Qed.

Lemma runTick_justified evs t :
  justifiedTick evs t -> respects (emitsOnly (justifiedBy evs)) (runTick t).
Proof.
  destruct t as [msg|tag]; simpl; intros H; [|now apply emitsOnly_tell].
  apply respects_bind; [apply _ | |].
  - apply emitsOnly_assignStart. exists msg. destruct H. auto.
  - intros _. apply respects_bind; [apply _ | now apply emitsOnly_console |].
    intros _.
    apply respects_bind; [apply _ | now apply emitsOnly_decodeParameter |].
    intros [ps|]; [|apply respects_ret; apply _].
    apply respects_forEach; [apply _|]. intros p _. apply reportStep_justified.
Qed.

Lemma drainTicks_accountable evs fuel : respects (accountable evs) (drainTicks fuel).
Proof.
  induction fuel as [|fuel IH]; [apply respects_ret; apply _|].
  intros [c st q] Hq. simpl. unfold bind at 1. unfold popTick. simpl.
  destruct q as [|t q]; simpl; [split; [constructor | exact Hq]|].
  inversion Hq as [|? ? Ht Hrest]; subst.
  apply (respects_bind (accountable evs) (runTick t) (fun _ => drainTicks fuel)).
  - apply accountable_of; [now apply runTick_justified | apply queued_runTick].
  - intros _. exact IH.
  - exact Hrest.
Qed.

Lemma run_accountable evs : respects (accountable evs) (run evs).
Proof.
  apply respects_forEach; [apply _|]. intros ev Hin.
  apply respects_bind; [apply _ | |].
  - apply accountable_of; [now apply callback_justified | apply queued_callback].
  - intros _ s. apply drainTicks_accountable.
Qed.

(** *** The two flags over a whole run *)

Lemma flagOfPhase_startPhase s : flagOfPhase (startPhase s) = isStartROSpecSent s.
Proof. unfold startPhase. now destruct (isStartROSpecSent s). Qed.

Lemma startPhase_not_armed s : startPhase s <> StartArmed.
Proof. unfold startPhase. now destruct (isStartROSpecSent s). Qed.

(** C1 (start-command deduplication).  [sendStartROSpec] does nothing
    when [isStartROSpecSent] is true and otherwise assigns [true] and
    then writes the start command.  Over any run of socket events from
    any session: every write of the start command comes directly after
    the assignment of [true] to the flag, made while the flag was false;
    a stretch of the trace without a reset of the flag holds at most one
    start write; the flag at the end is the one the assignments of the
    trace leave; and, from an empty callback queue, a reset of the flag
    only occurs when a received message is a tag report or a reader-event
    notification carrying the cycle-end event. *)
Theorem start_deduplication (evs : list SocketEvent) (s : Session) :
  let t := trace (run evs s) in
  (forall s0,
     sendStartROSpec s0 =
       if isStartROSpecSent s0
       then mkResult (Normal tt) s0 []
       else mkResult (Normal tt) (withStartROSpecSent true s0)
              [AssignStartROSpecSent true; Write bStartRoSpec]) /\
  (forall t1 t2,
     t = t1 ++ Write bStartRoSpec :: t2 ->
     exists t0, t1 = t0 ++ [AssignStartROSpecSent true] /\
                startFlagAfter (isStartROSpecSent s) t0 = false) /\
  (forall t1 seg t2,
     t = t1 ++ seg ++ t2 ->
     countWhere isStartReset seg = O ->
     (countWhere isStartWrite seg <= 1)%nat) /\
  isStartROSpecSent (after (run evs s)) =
    startFlagAfter (isStartROSpecSent s) t /\
  (tickQueue s = [] ->
   AssignStartROSpecSent false ∈ t ->
   exists msg, received evs msg /\ (tagReport msg \/ cycleEndNotification msg)).
Proof.
  intros t. destruct (obeys_run evs s) as [Hscan _]. fold t in Hscan.
  split; [|split; [|split; [|split]]].
  - intros s0. unfold sendStartROSpec. now destruct (isStartROSpecSent s0).
  - intros t1 t2 Heq. rewrite Heq in Hscan.
    destruct (scan_start_write _ _ _ _ (startPhase_not_armed s) Hscan)
      as (t0 & Ht0 & Hidle).
    exists t0. split; [exact Ht0|].
    apply scan_start_flag in Hidle. rewrite flagOfPhase_startPhase in Hidle.
    now rewrite <- Hidle.
  - intros t1 seg t2 Heq Hreset. rewrite Heq, scan_app in Hscan.
    destruct (scan startStep (startPhase s) t1) as [q1|]; [|discriminate Hscan].
    rewrite scan_app in Hscan.
    destruct (scan startStep q1 seg) as [q2|] eqn:Hseg; [|discriminate Hscan].
    pose proof (scan_start_segment _ _ _ Hseg Hreset) as Hle.
    destruct q1; lia.
  - apply scan_start_flag in Hscan.
    now rewrite !flagOfPhase_startPhase in Hscan.
  - intros Hq Hin. destruct (run_accountable evs s) as [Hall _].
    { rewrite Hq. constructor. }
    rewrite Forall_forall in Hall. exact (Hall _ Hin).
Qed.

(** C2 (configuration idempotence).  Over any run of socket events from
    any session: [isReaderConfigSet] is never assigned [false]; it is
    assigned at most once; the configure-reader command is written at
    most once; and if the flag is already true at the start, it is true
    at the end, no configure-reader command is written and the flag is
    not assigned at all. *)
Theorem configuration_sent_once (evs : list SocketEvent) (s : Session) :
  let r := run evs s in
  (AssignReaderConfigSet false ∉ trace r) /\
  (countWhere isConfigAssign (trace r) <= 1)%nat /\
  (countWhere isConfigWrite (trace r) <= 1)%nat /\
  (isReaderConfigSet s = true ->
   isReaderConfigSet (after r) = true /\
   countWhere isConfigWrite (trace r) = O /\
   countWhere isConfigAssign (trace r) = O).
Proof.
  intros r. destruct (obeys_run evs s) as [_ Hscan]. fold r in Hscan.
  destruct (scan_config_facts _ _ _ Hscan) as (Ha & Hb & Hc & Hd).
  unfold configPhase in *.
  split; [exact Ha|]. split; [destruct (isReaderConfigSet s); lia|].
  split; [destruct (isReaderConfigSet s); lia|].
  intros Hset. rewrite Hset in *. specialize (Hd eq_refl).
  destruct (isReaderConfigSet (after r)); [|discriminate].
  repeat split; lia.
Qed.

(** *** The flattener *)

Lemma flatten_other (subs : list Param) (m : gmap Z (list byte)) (k : Z) :
  (forall q, q ∈ subs -> type q <> k) ->
  foldl (fun properties sub => <[type sub := value sub]> properties) m subs !! k
  = m !! k.
Proof.
  revert m. induction subs as [|q subs IH]; intros m H; simpl; [reflexivity|].
  rewrite IH.
  - apply lookup_insert_ne, H. left.
  - intros q' Hq'. apply H. now right.
Qed.

Lemma last_occurrence (subs : list Param) (k : Z) :
  (exists sub, sub ∈ subs /\ type sub = k) ->
  exists pre sub post,
    subs = pre ++ sub :: post /\ type sub = k /\
    (forall q, q ∈ post -> type q <> k).
Proof.
  induction subs as [|q subs IH]; intros (sub & Hin & Hk).
  - now apply elem_of_nil in Hin.
  - destruct (decide (Exists (fun x => type x = k) subs)) as [He|Hn].
    + apply Exists_exists in He. destruct (IH He) as (pre & x & post & -> & Hx & Hp).
      exists (q :: pre), x, post. auto.
    + assert (Hall : forall x, x ∈ subs -> type x <> k).
      { intros x Hx Hxk. apply Hn, Exists_exists. eauto. }
      apply elem_of_cons in Hin as [->|Hin]; [|now destruct (Hall _ Hin)].
      exists [], q, subs. auto.
Qed.

(** C8 (flattener, last write wins).  The flattened map sends the type
    of a sub-parameter that no later sub-parameter shares to that
    sub-parameter's value; it has an entry for a type code exactly when
    some sub-parameter bears it; and a type code borne by none has no
    entry. *)
Theorem mapSubParameters_last_wins (params : Param) :
  (forall pre sub post,
     subParameters params = pre ++ sub :: post ->
     (forall q, q ∈ post -> type q <> type sub) ->
     mapSubParameters params !! type sub = Some (value sub)) /\
  (forall k,
     is_Some (mapSubParameters params !! k) <->
     exists sub, sub ∈ subParameters params /\ type sub = k) /\
  (forall k,
     (forall sub, sub ∈ subParameters params -> type sub <> k) ->
     mapSubParameters params !! k = None).
Proof.
  assert (Hlast : forall pre sub post,
     subParameters params = pre ++ sub :: post ->
     (forall q, q ∈ post -> type q <> type sub) ->
     mapSubParameters params !! type sub = Some (value sub)).
  { intros pre sub post Heq Hpost. unfold mapSubParameters.
    rewrite Heq, foldl_app. simpl.
    rewrite flatten_other by exact Hpost. apply lookup_insert_eq. }
  assert (Hnone : forall k,
     (forall sub, sub ∈ subParameters params -> type sub <> k) ->
     mapSubParameters params !! k = None).
  { intros k H. unfold mapSubParameters.
    rewrite flatten_other by exact H. apply lookup_empty. }
  split; [exact Hlast|]. split; [|exact Hnone].
  intros k. split.
  - intros Hsome.
    destruct (decide (Exists (fun x => type x = k) (subParameters params)))
      as [He|Hn].
    + now apply Exists_exists in He.
    + rewrite Hnone in Hsome; [now destruct Hsome|].
      intros x Hx Hxk. apply Hn, Exists_exists. eauto.
  - intros Hex. destruct (last_occurrence _ _ Hex) as (pre & x & post & Heq & Hx & Hp).
    subst k. rewrite (Hlast pre x post Heq Hp). eauto.
Qed.

(** *** Hexadecimal text *)

Lemma fromHex_hexOfByte (b : byte) (rest : string) :
  fromHex (hexOfByte b +:+ rest) = b :: fromHex rest.
Proof. destruct b; reflexivity. Qed.

Lemma fromHex_toStringHex (buf : list byte) : fromHex (toStringHex buf) = buf.
Proof.
  induction buf as [|b buf IH]; [reflexivity|].
  simpl toStringHex. now rewrite fromHex_hexOfByte, IH.
Qed.

Lemma toStringHex_lower (buf : list byte) :
  allChars lowerHexDigit (toStringHex buf) = true.
Proof.
  induction buf as [|b buf IH]; [reflexivity|].
  simpl toStringHex.
  assert (H : forall rest, allChars lowerHexDigit (hexOfByte b +:+ rest)
                           = allChars lowerHexDigit rest)
    by (intros rest; destruct b; reflexivity).
  now rewrite H.
Qed.

Lemma toStringHex_empty (buf : list byte) :
  String.eqb (toStringHex buf) EmptyString = true <-> buf = [].
Proof.
  destruct buf as [|b buf]; simpl; [tauto|].
  split; [|discriminate]. intros H. destruct b; discriminate H.
Qed.

(** *** Tag extraction *)

Lemma reportStep_made (p : Param) (s : Session) (tag : Tag) :
  type p = TagReportData parameterC ->
  makeTag (mapSubParameters p) s = mkResult (Normal tag) s [] ->
  reportStep p s =
    if tagIDTruthy (tagID tag)
    then mkResult (Normal tt) (enqueue (DidSeeTagTick tag) s)
           (logged (LogTag (tagID tag) (tagSeenCount tag))
            ++ [NextTick (DidSeeTagTick tag)])
    else mkResult (Normal tt) s
           (logged (LogTag (tagID tag) (tagSeenCount tag)) ++ []).
Proof.
  intros Htype Hmade. unfold reportStep.
  rewrite (proj2 (Z.eqb_eq _ _) Htype).
  unfold bind at 1. rewrite Hmade. simpl.
  unfold bind, console, when, logged.
  destruct log; simpl; destruct (tagIDTruthy (tagID tag)); reflexivity.
Qed.

Lemma ticksOf_logged line rest : ticksOf (logged line ++ rest) = ticksOf rest.
Proof. unfold logged. now destruct log. Qed.

Lemma emitsOf_logged line rest : emitsOf (logged line ++ rest) = emitsOf rest.
Proof. unfold logged. now destruct log. Qed.

Lemma tagIDTruthy_hex (buf : list byte) :
  tagIDTruthy (Some (toStringHex buf)) = true <-> buf <> [].
Proof.
  simpl. rewrite negb_true_iff, <- not_true_iff_false, toStringHex_empty. tauto.
Qed.

(** C4 (tag extraction).  For a tag-report-data parameter whose
    flattened map holds the identifier bytes [idb] and a count value
    starting with the bytes [hi], [lo]: the tag object has [tagID] the
    hexadecimal text of [idb] (two lowercase digits per byte, read back
    by [fromHex]) and [tagSeenCount] [256 * hi + lo]; when [idb] is not
    empty the step queues exactly the emit of that tag, and the queued
    callback emits it. *)
Theorem tag_extraction (p : Param) (s : Session)
    (idb : list byte) (hi lo : byte) (rest : list byte) :
  type p = TagReportData parameterC ->
  mapSubParameters p !! EPC96 parameterC = Some idb ->
  mapSubParameters p !! TagSeenCount parameterC = Some (hi :: lo :: rest) ->
  let tag := {| tagID := Some (toStringHex idb);
                tagSeenCount := 256 * byteValue hi + byteValue lo |} in
  makeTag (mapSubParameters p) s = mkResult (Normal tag) s [] /\
  fromHex (toStringHex idb) = idb /\
  allChars lowerHexDigit (toStringHex idb) = true /\
  (idb <> [] ->
   outcome (reportStep p s) = Normal tt /\
   after (reportStep p s) = enqueue (DidSeeTagTick tag) s /\
   ticksOf (trace (reportStep p s)) = [DidSeeTagTick tag] /\
   forall s', runTick (DidSeeTagTick tag) s'
              = mkResult (Normal tt) s' [Emit (EmitDidSeeTag tag)]).
Proof.
  intros Htype Hid Hcount tag.
  assert (Hmade : makeTag (mapSubParameters p) s = mkResult (Normal tag) s []).
  { unfold makeTag, bind. now rewrite Hid, Hcount. }
  split; [exact Hmade|].
  split; [apply fromHex_toStringHex|].
  split; [apply toStringHex_lower|].
  intros Hne. rewrite (reportStep_made p s tag Htype Hmade).
  assert (Ht : tagIDTruthy (tagID tag) = true) by now apply tagIDTruthy_hex.
  rewrite Ht. simpl. rewrite ticksOf_logged. repeat split; reflexivity.
Qed.

(** C7 (missing-field defaults).  For a tag-report-data parameter:
    without a count sub-parameter the tag is built without error and
    has [tagSeenCount = 0], and it is the tag queued for emission when
    the identifier is present and not empty; without an identifier
    sub-parameter a tag that gets built has [tagID = null], and the step
    queues nothing, emits nothing and leaves the session as it was. *)
Theorem missing_field_defaults (p : Param) (s : Session) :
  type p = TagReportData parameterC ->
  (mapSubParameters p !! TagSeenCount parameterC = None ->
   makeTag (mapSubParameters p) s =
     mkResult
       (Normal {| tagID := toStringHex <$> mapSubParameters p !! EPC96 parameterC;
                  tagSeenCount := 0 |})
       s [] /\
   forall idb,
     mapSubParameters p !! EPC96 parameterC = Some idb -> idb <> [] ->
     ticksOf (trace (reportStep p s)) =
       [DidSeeTagTick {| tagID := Some (toStringHex idb); tagSeenCount := 0 |}]) /\
  (mapSubParameters p !! EPC96 parameterC = None ->
   (forall tag, outcome (makeTag (mapSubParameters p) s) = Normal tag ->
                tagID tag = None) /\
   after (reportStep p s) = s /\
   ticksOf (trace (reportStep p s)) = [] /\
   emitsOf (trace (reportStep p s)) = []).
Proof.
  intros Htype. split.
  - intros Hcount.
    assert (Hmade : makeTag (mapSubParameters p) s =
      mkResult
        (Normal {| tagID := toStringHex <$> mapSubParameters p !! EPC96 parameterC;
                   tagSeenCount := 0 |}) s []).
    { unfold makeTag, bind. now rewrite Hcount. }
    split; [exact Hmade|]. intros idb Hid Hne.
    rewrite (reportStep_made p s _ Htype Hmade). simpl. rewrite Hid. simpl.
    change (negb (String.eqb (toStringHex idb) EmptyString))
      with (tagIDTruthy (Some (toStringHex idb))).
    rewrite (proj2 (tagIDTruthy_hex idb) Hne). simpl.
    now rewrite ticksOf_logged.
  - intros Hid. split.
    + intros tag. unfold makeTag, bind. rewrite Hid. simpl.
      destruct (mapSubParameters p !! TagSeenCount parameterC) as [seen|];
        [destruct (readUInt16BE seen 0)|]; simpl;
        intros H; inversion H; reflexivity.
    + destruct (mapSubParameters p !! TagSeenCount parameterC) as [seen|] eqn:Hc;
        [destruct (readUInt16BE seen 0) as [count|] eqn:Hr|].
      * rewrite (reportStep_made p s {| tagID := None; tagSeenCount := count |});
          [| exact Htype | unfold makeTag, bind; now rewrite Hid, Hc, Hr].
        simpl. rewrite ticksOf_logged, emitsOf_logged. auto.
      * unfold reportStep. rewrite (proj2 (Z.eqb_eq _ _) Htype).
        unfold makeTag, bind. rewrite Hc, Hr. simpl. auto.
      * rewrite (reportStep_made p s {| tagID := None; tagSeenCount := 0 |});
          [| exact Htype | unfold makeTag, bind; now rewrite Hid, Hc].
        simpl. rewrite ticksOf_logged, emitsOf_logged. auto.
Qed.

(** C10 (empty identifier).  For a tag-report-data parameter whose
    identifier sub-parameter is present with a value of zero bytes: a
    tag that gets built has [tagID] the empty string, not [null]; the
    test [if (tag.tagID)] is false for it; and the step queues nothing,
    emits nothing and leaves the session as it was. *)
Theorem empty_identifier_suppressed (p : Param) (s : Session) :
  type p = TagReportData parameterC ->
  mapSubParameters p !! EPC96 parameterC = Some [] ->
  (forall tag, outcome (makeTag (mapSubParameters p) s) = Normal tag ->
               tagID tag = Some EmptyString /\ tagID tag <> None /\
               tagIDTruthy (tagID tag) = false) /\
  after (reportStep p s) = s /\
  ticksOf (trace (reportStep p s)) = [] /\
  emitsOf (trace (reportStep p s)) = [].
Proof.
  intros Htype Hid. split.
  - intros tag. unfold makeTag, bind. rewrite Hid. simpl.
    destruct (mapSubParameters p !! TagSeenCount parameterC) as [seen|];
      [destruct (readUInt16BE seen 0)|]; simpl;
      intros H; inversion H; simpl; auto.
  - destruct (mapSubParameters p !! TagSeenCount parameterC) as [seen|] eqn:Hc;
      [destruct (readUInt16BE seen 0) as [count|] eqn:Hr|].
    + rewrite (reportStep_made p s
                 {| tagID := Some EmptyString; tagSeenCount := count |});
        [| exact Htype | unfold makeTag, bind; now rewrite Hid, Hc, Hr].
      simpl. rewrite ticksOf_logged, emitsOf_logged. auto.
    + unfold reportStep. rewrite (proj2 (Z.eqb_eq _ _) Htype).
      unfold makeTag, bind. rewrite Hc, Hr. simpl. auto.
    + rewrite (reportStep_made p s
                 {| tagID := Some EmptyString; tagSeenCount := 0 |});
        [| exact Htype | unfold makeTag, bind; now rewrite Hid, Hc].
      simpl. rewrite ticksOf_logged, emitsOf_logged. auto.
Qed.

(** *** Reader-event notifications *)

Lemma notificationStep_readable (p : Param) (s : Session) :
  readable p ->
  notificationStep p s =
    if signalsCycleEnd p
    then mkResult (Normal tt) (withStartROSpecSent false s)
           [AssignStartROSpecSent false]
    else mkResult (Normal tt) s [].
Proof.
  intros Hr. unfold notificationStep, signalsCycleEnd.
  destruct (type p =? ReaderEventNotificationData parameterC) eqn:Ht;
    simpl; [|reflexivity].
  destruct (mapSubParameters p !! ROSpecEvent parameterC) as [event|] eqn:He;
    [|reflexivity].
  destruct event as [|b rest].
  { exfalso. apply Hr; [lia | exact He]. }
  unfold bind. simpl. destruct (byteValue b =? 1); reflexivity.
Qed.

Lemma forEach_notificationStep (ps : list Param) (s : Session) :
  Forall readable ps ->
  forEach notificationStep ps s =
    mkResult (Normal tt)
      (if cycleEnded ps then withStartROSpecSent false s else s)
      (replicate (length (List.filter signalsCycleEnd ps))
                 (AssignStartROSpecSent false)).
Proof.
  intros H. revert s. induction H as [|p ps Hp _ IH]; intros s; [reflexivity|].
  simpl. unfold bind. rewrite (notificationStep_readable p s Hp).
  destruct (signalsCycleEnd p); simpl; rewrite IH; simpl;
    destruct (cycleEnded ps); reflexivity.
Qed.

(** *** One delivery *)

Lemma writesOf_app t1 t2 : writesOf (t1 ++ t2) = writesOf t1 ++ writesOf t2.
Proof. apply omap_app. Qed.

Lemma queued_receive msg : respects queued (receive msg).
Proof.
  apply respects_bind; [apply _ | apply queued_console |]. intros _.
  apply queued_dispatch.
Qed.

(** C6, as the code has it (chunks that are not there).  A chunk that
    is [null] or [undefined] is dropped: the decoder is not called,
    nothing is written, nothing is emitted, nothing is queued and the
    session is unchanged (a line is logged when [log] is on).  A chunk
    of length zero is not caught by that test: it is handed to
    [decode.message]; if the decoder finds no message in it, nothing
    else happens. *)
Theorem absent_data_dropped (s : Session) :
  onData None s = mkResult (Normal tt) s (logged LogUndefinedData) /\
  decodesOf (trace (onData None s)) = [] /\
  writesOf (trace (onData None s)) = [] /\
  emitsOf (trace (onData None s)) = [] /\
  ticksOf (trace (onData None s)) = [] /\
  (tickQueue s = [] ->
   handle (Data None) s = mkResult (Normal tt) s (logged LogUndefinedData)) /\
  (exists rest, trace (onData (Some []) s) = DecodeMessage [] :: rest) /\
  (default [] (decode_message decode []) = [] ->
   onData (Some []) s = mkResult (Normal tt) s [DecodeMessage []]).
Proof.
  assert (H : onData None s = mkResult (Normal tt) s (logged LogUndefinedData)).
  { unfold onData, console, when, logged. now destruct log. }
  split; [exact H|]. rewrite H. simpl.
  repeat split; try (unfold logged; now destruct log).
  - intros Hq. unfold handle, callback. unfold bind. rewrite H. simpl.
    unfold processTicks. rewrite Hq. simpl. now rewrite app_nil_r.
  - unfold onData, bind. simpl. eauto.
  - intros Hnone. unfold onData. rewrite Hnone. reflexivity.
Qed.

(** *** Messages of no known type *)

Lemma quiet_app t1 t2 : quiet (t1 ++ t2) = quiet t1 ++ quiet t2.
Proof. apply List.filter_app. Qed.

Lemma quiet_logged line : quiet (logged line) = [].
Proof. unfold logged. now destruct log. Qed.

Lemma receive_unrecognized (msg : LLRPMessage) (s : Session) :
  recognized msg = false ->
  receive msg s = mkResult (Normal tt) s (logged (LogReceiving (getTypeName msg)) ++ []).
Proof.
  unfold recognized. intros H.
  repeat (apply orb_false_elim in H as [H ?]).
  unfold receive, dispatch, bind, console, when, logged.
  repeat match goal with E : (_ =? _) = false |- _ => rewrite E; clear E end.
  now destruct log.
Qed.

(** X1 (messages of no known type).  In the loop of [onData], a message
    whose type matches no [case] is logged and otherwise skipped:
    handling a list of messages and handling the same list without such
    messages end in the same way, in the same session, with the same
    trace apart from the lines of [console.log]. *)
Theorem unrecognized_messages_ignored (msgs : list LLRPMessage) (s : Session) :
  let r := forEach receive msgs s in
  let r' := forEach receive (List.filter recognized msgs) s in
  outcome r = outcome r' /\
  after r = after r' /\
  quiet (trace r) = quiet (trace r').
Proof.
  revert s. induction msgs as [|m msgs IH]; intros s; [repeat split|].
  simpl List.filter. destruct (recognized m) eqn:Hm.
  - simpl. unfold bind. destruct (outcome (receive m s)); simpl.
    + destruct (IH (after (receive m s))) as (Ha & Hb & Hc).
      repeat split; [exact Ha | exact Hb |].
      rewrite !quiet_app. now f_equal.
    + repeat split.
  - simpl forEach at 1. unfold bind at 1.
    rewrite (receive_unrecognized m s Hm). simpl.
    destruct (IH s) as (Ha & Hb & Hc).
    repeat split; [exact Ha | exact Hb |].
    rewrite app_nil_r, quiet_app, quiet_logged. exact Hc.
Qed.

(** *** Timeouts, connects and disconnects *)

Lemma tagsOf_app t1 t2 : tagsOf (t1 ++ t2) = tagsOf t1 ++ tagsOf t2.
Proof. apply omap_app. Qed.

Lemma decodesOf_app t1 t2 : decodesOf (t1 ++ t2) = decodesOf t1 ++ decodesOf t2.
Proof. apply List.filter_app. Qed.

Lemma handle_lifecycle (ev : SocketEvent) (s : Session) :
  isLifecycle ev = true ->
  tickQueue s = [] ->
  outcome (handle ev s) = Normal tt /\
  after (handle ev s) = s /\
  writesOf (trace (handle ev s)) = [] /\
  tagsOf (trace (handle ev s)) = [] /\
  decodesOf (trace (handle ev s)) = [] /\
  ticksOf (trace (handle ev s)) = [].
Proof.
  intros Hev Hq. destruct s as [c st q]. simpl in Hq. subst q.
  destruct ev; try discriminate Hev;
    unfold handle, callback, onConnect, onTimeout, onEnd, emit, console, when,
           processTicks, bind;
    destruct log; simpl; repeat split.
Qed.

Lemma handle_empties (ev : SocketEvent) (s : Session) :
  outcome (handle ev s) = Normal tt -> tickQueue (after (handle ev s)) = [].
Proof.
  unfold handle, bind. destruct (outcome (callback ev s)); simpl; [|discriminate].
  apply processTicks_empties.
Qed.

Lemma run_cons (ev : SocketEvent) (evs : list SocketEvent) (s : Session) :
  run (ev :: evs) s = bind (handle ev) (fun _ => run evs) s.
Proof. reflexivity. Qed.

Lemma run_without_lifecycle (evs : list SocketEvent) (s : Session) :
  tickQueue s = [] ->
  outcome (run evs s)
    = outcome (run (List.filter (fun ev => negb (isLifecycle ev)) evs) s) /\
  after (run evs s)
    = after (run (List.filter (fun ev => negb (isLifecycle ev)) evs) s) /\
  writesOf (trace (run evs s))
    = writesOf (trace (run (List.filter (fun ev => negb (isLifecycle ev)) evs) s)) /\
  tagsOf (trace (run evs s))
    = tagsOf (trace (run (List.filter (fun ev => negb (isLifecycle ev)) evs) s)) /\
  decodesOf (trace (run evs s))
    = decodesOf (trace (run (List.filter (fun ev => negb (isLifecycle ev)) evs) s)).
Proof.
  revert s. induction evs as [|ev evs IH]; intros s Hq; [repeat split|].
  simpl List.filter. destruct (isLifecycle ev) eqn:Hev; simpl negb; cbv iota.
  - destruct (handle_lifecycle ev s Hev Hq) as (Ha & Hb & Hc & Hd & He & _).
    destruct (IH s Hq) as (I1 & I2 & I3 & I4 & I5).
    rewrite run_cons. unfold bind. rewrite Ha. cbn [outcome after trace].
    rewrite Hb, writesOf_app, tagsOf_app, decodesOf_app, Hc, Hd, He.
    repeat split; assumption.
  - rewrite !run_cons. unfold bind.
    destruct (outcome (handle ev s)) as [[]|e] eqn:Ho; cbn [outcome after trace];
      [|repeat split].
    destruct (IH (after (handle ev s)) (handle_empties ev s Ho))
      as (I1 & I2 & I3 & I4 & I5).
    rewrite !writesOf_app, !tagsOf_app, !decodesOf_app.
    repeat split; try assumption; now f_equal.
Qed.

(** X2 (timeouts, connects and disconnects).  From a session with no
    callback pending, the handlers of ['timeout'], ['end'] and of the
    connection callback write nothing to the socket and leave the
    session as it was; taking these events out of a run changes neither
    how the run ends, nor the final session, nor the socket writes, nor
    the tags emitted, nor the calls into the decoder. *)
Theorem lifecycle_events_transparent (evs : list SocketEvent) (s : Session) :
  tickQueue s = [] ->
  (forall ev, isLifecycle ev = true ->
     outcome (handle ev s) = Normal tt /\ after (handle ev s) = s /\
     writesOf (trace (handle ev s)) = []) /\
  let r := run evs s in
  let r' := run (List.filter (fun ev => negb (isLifecycle ev)) evs) s in
  outcome r = outcome r' /\
  after r = after r' /\
  writesOf (trace r) = writesOf (trace r') /\
  tagsOf (trace r) = tagsOf (trace r') /\
  decodesOf (trace r) = decodesOf (trace r').
Proof.
  intros Hq. split.
  - intros ev Hev. destruct (handle_lifecycle ev s Hev Hq) as (Ha & Hb & Hc & _).
    auto.
  - exact (run_without_lifecycle evs s Hq).
Qed.

(** *** What is written to the socket *)

Lemma emitsOnly_weaken (P Q : Event -> Prop) {A} (m : M A) :
  (forall e, P e -> Q e) ->
  respects (emitsOnly P) m -> respects (emitsOnly Q) m.
Proof. intros H Hm s. eapply Forall_impl; [apply Hm | exact H]. Qed.

Lemma notWrite_catalogWrite e : notWrite e -> catalogWrite e.
Proof. destruct e; simpl; tauto. Qed.

Lemma notificationStep_notWrite p : respects (emitsOnly notWrite) (notificationStep p).
Proof.
  unfold notificationStep. destruct (_ =? _); [|apply respects_ret; apply _].
  destruct (_ !! _); [|apply respects_ret; apply _].
  apply respects_bind; [apply _ | apply respects_orThrow; apply _ |].
  intros kind. destruct (kind =? 1);
    [now apply emitsOnly_assignStart | apply respects_ret; apply _].
Qed.

Lemma sendStartROSpec_catalog : respects (emitsOnly catalogWrite) sendStartROSpec.
Proof.
  intros s. unfold sendStartROSpec.
  destruct (isStartROSpecSent s); simpl; repeat constructor.
Qed.

Lemma handleReaderNotification_catalog msg :
  respects (emitsOnly catalogWrite) (handleReaderNotification msg).
Proof.
  apply respects_bind; [apply _ | now apply emitsOnly_decodeParameter |].
  intros pkv. apply respects_bind; [apply _ | apply respects_orThrow; apply _ |].
  intros ps. apply respects_bind; [apply _ | |].
  - apply respects_forEach; [apply _|]. intros p _.
    apply (emitsOnly_weaken notWrite); [exact notWrite_catalogWrite|].
    apply notificationStep_notWrite.
  - intros _. apply (respects_branch _ (fun s => negb (isReaderConfigSet s))).
    + intros s. simpl. repeat constructor.
    + apply sendStartROSpec_catalog.
Qed.

Lemma write_catalog buf : buf ∈ catalog -> respects (emitsOnly catalogWrite) (write buf).
Proof. intros H. now apply emitsOnly_tell. Qed.

Lemma dispatch_catalog msg : respects (emitsOnly catalogWrite) (dispatch msg).
Proof.
  unfold dispatch.
  repeat (destruct (_ =? _);
          [first [ apply handleReaderNotification_catalog
                 | apply sendStartROSpec_catalog
                 | now apply emitsOnly_nextTick
                 | apply write_catalog; repeat constructor ] |]).
  apply respects_ret. apply _.
Qed.

Lemma callback_catalog ev : respects (emitsOnly catalogWrite) (callback ev).
Proof.
  destruct ev as [| |[chunk|]| |err heard]; simpl;
    try (now apply emitsOnly_console);
    try (apply respects_bind;
         [apply _ | now apply emitsOnly_console
         | intros _; now apply emitsOnly_tell]);
    try (apply respects_bind;
         [apply _ | now apply emitsOnly_console
         | intros _; apply respects_emitError;
           first [now apply emitsOnly_tell | apply _]]).
  apply respects_bind; [apply _ | now apply emitsOnly_tell |]. intros _.
  apply respects_forEach; [apply _|]. intros msg _.
  apply respects_bind; [apply _ | now apply emitsOnly_console |]. intros _.
  apply dispatch_catalog.
Qed.

Lemma run_catalog evs : respects (emitsOnly catalogWrite) (run evs).
Proof.
  apply respects_forEach; [apply _|]. intros ev _.
  apply respects_bind; [apply _ | apply callback_catalog |]. intros _ s.
  apply (emitsOnly_weaken notWrite); [exact notWrite_catalogWrite|].
  intros s'. apply drainTicks_notWrite.
Qed.

Lemma writes_handleReaderNotification msg s :
  (length (writesOf (trace (handleReaderNotification msg s))) <= 1)%nat.
Proof.
  unfold handleReaderNotification, decodeParameter. unfold bind at 1 2. simpl.
  destruct (decode_parameter decode (getParameter msg)) as [ps|]; simpl; [|lia].
  unfold bind at 1. simpl. unfold bind.
  pose proof (notWrite_writesOf _
    (respects_forEach (emitsOnly notWrite) notificationStep ps
       (fun p _ => notificationStep_notWrite p) s)) as Hloop.
  destruct (outcome (forEach notificationStep ps s)); simpl;
    rewrite ?writesOf_app, Hloop; simpl; [|lia].
  unfold sendStartROSpec.
  destruct (isReaderConfigSet _), (isStartROSpecSent _); simpl; lia.
Qed.

(** X3 (what is written to the socket).  Over any run of socket events,
    from any session, every buffer written to the socket is one of the
    six commands built at the top of [llrpMain]; and handling one
    message writes at most one of them, whatever the message and the
    session. *)
Theorem writes_are_catalog_commands (evs : list SocketEvent) (s : Session) :
  (forall buf, Write buf ∈ trace (run evs s) -> buf ∈ catalog) /\
  (forall msg s0, (length (writesOf (trace (dispatch msg s0))) <= 1)%nat).
Proof.
  split.
  - intros buf Hin. pose proof (run_catalog evs s) as Hall.
    unfold emitsOnly in Hall. rewrite Forall_forall in Hall.
    exact (Hall _ Hin).
  - intros msg s0. unfold dispatch.
    repeat (destruct (_ =? _);
            [first [ apply writes_handleReaderNotification
                   | unfold sendStartROSpec; destruct (isStartROSpecSent s0);
                     simpl; lia
                   | simpl; lia ] |]).
    simpl. lia.
Qed.

(** *** A tag report, from the chunk to the events *)

Lemma bind_returns {A B} (m : M A) (f : A -> M B) s a :
  outcome (m s) = Normal a ->
  bind m f s =
    mkResult (outcome (f a (after (m s)))) (after (f a (after (m s))))
             (trace (m s) ++ trace (f a (after (m s)))).
Proof. intros H. unfold bind. now rewrite H. Qed.

Lemma bind_throws {A B} (m : M A) (f : A -> M B) s e :
  outcome (m s) = Throw e ->
  bind m f s = mkResult (Throw e) (after (m s)) (trace (m s)).
Proof. intros H. unfold bind. now rewrite H. Qed.

Lemma ticksOf_app t1 t2 : ticksOf (t1 ++ t2) = ticksOf t1 ++ ticksOf t2.
Proof. apply omap_app. Qed.

Lemma forEach_app {A} (f : A -> M unit) (l1 l2 : list A) (s : Session) :
  forEach f (l1 ++ l2) s = bind (forEach f l1) (fun _ => forEach f l2) s.
Proof.
  revert s. induction l1 as [|x l1 IH]; intros s; simpl.
  - unfold bind. simpl. now destruct (forEach f l2 s).
  - unfold bind. destruct (outcome (f x s)); simpl; [|reflexivity].
    rewrite IH. unfold bind. destruct (outcome (forEach f l1 _)); simpl;
      now rewrite ?app_assoc.
Qed.

Lemma makeTag_tagOf (p : Param) (s : Session) :
  makeTag (mapSubParameters p) s =
    match tagOf p with
    | Some tag => mkResult (Normal tag) s []
    | None => mkResult (Throw RangeError) s []
    end.
Proof.
  unfold makeTag, tagOf, bind.
  destruct (mapSubParameters p !! TagSeenCount parameterC) as [seen|];
    [destruct (readUInt16BE seen 0)|]; reflexivity.
Qed.

Lemma tagOf_short (p : Param) (seen : list byte) :
  mapSubParameters p !! TagSeenCount parameterC = Some seen ->
  (length seen < 2)%nat ->
  tagOf p = None.
Proof.
  intros Hc Hlen. unfold tagOf. rewrite Hc.
  destruct seen as [|a [|b rest]]; simpl in *; try reflexivity; lia.
Qed.

Lemma reportStep_observation (p : Param) (s : Session) :
  countable p ->
  outcome (reportStep p s) = Normal tt /\
  after (reportStep p s)
    = enqueueAll (DidSeeTagTick <$> option_list (observation p)) s /\
  ticksOf (trace (reportStep p s))
    = DidSeeTagTick <$> option_list (observation p).
Proof.
  intros Hc. unfold observation.
  destruct (type p =? TagReportData parameterC) eqn:Ht.
  - apply Z.eqb_eq in Ht. destruct (Hc Ht) as [tag Htag].
    rewrite (reportStep_made p s tag Ht)
      by (rewrite makeTag_tagOf, Htag; reflexivity).
    rewrite Htag. destruct (tagIDTruthy (tagID tag)); simpl;
      rewrite ticksOf_logged; repeat split.
  - unfold reportStep. rewrite Ht. repeat split.
Qed.

Lemma reportStep_uncountable (p : Param) (s : Session) :
  type p = TagReportData parameterC ->
  tagOf p = None ->
  reportStep p s = mkResult (Throw RangeError) s [].
Proof.
  intros Ht Hnone. unfold reportStep. rewrite (proj2 (Z.eqb_eq _ _) Ht).
  unfold bind at 1. now rewrite makeTag_tagOf, Hnone.
Qed.

Lemma enqueueAll_app (a b : list Tick) (s : Session) :
  enqueueAll (a ++ b) s = enqueueAll b (enqueueAll a s).
Proof. apply foldl_app. Qed.

Lemma enqueueAll_fields (ts : list Tick) (s : Session) :
  isReaderConfigSet (enqueueAll ts s) = isReaderConfigSet s /\
  isStartROSpecSent (enqueueAll ts s) = isStartROSpecSent s /\
  tickQueue (enqueueAll ts s) = tickQueue s ++ ts.
Proof.
  revert s. induction ts as [|t ts IH]; intros s; simpl.
  - now rewrite app_nil_r.
  - destruct (IH (enqueue t s)) as (Ha & Hb & Hc). rewrite Ha, Hb, Hc. simpl.
    now rewrite <- app_assoc.
Qed.

Lemma observations_cons (p : Param) (ps : list Param) :
  observations (p :: ps) = option_list (observation p) ++ observations ps.
Proof. unfold observations. simpl. now destruct (observation p). Qed.

Lemma observations_app (ps qs : list Param) :
  observations (ps ++ qs) = observations ps ++ observations qs.
Proof. apply omap_app. Qed.

Lemma observations_length (ps : list Param) :
  (length (observations ps) <= length ps)%nat.
Proof.
  induction ps as [|p ps IH]; [reflexivity|].
  rewrite observations_cons, length_app. simpl.
  destruct (observation p); simpl; lia.
Qed.

Lemma forEach_reportStep_observations (ps : list Param) (s : Session) :
  Forall countable ps ->
  outcome (forEach reportStep ps s) = Normal tt /\
  after (forEach reportStep ps s)
    = enqueueAll (DidSeeTagTick <$> observations ps) s /\
  ticksOf (trace (forEach reportStep ps s))
    = DidSeeTagTick <$> observations ps /\
  writesOf (trace (forEach reportStep ps s)) = [].
Proof.
  intros H. revert s. induction H as [|p ps Hp _ IH]; intros s; [repeat split|].
  destruct (reportStep_observation p s Hp) as (Ha & Hb & Hc).
  simpl forEach. rewrite (bind_returns _ _ s tt Ha). cbn [outcome after trace].
  destruct (IH (after (reportStep p s))) as (Ia & Ib & Ic & Id).
  rewrite observations_cons, fmap_app, enqueueAll_app, <- Hb.
  rewrite ticksOf_app, writesOf_app, Hc, Ic, Id.
  rewrite (notWrite_writesOf _ (reportStep_notWrite p s)).
  repeat split; assumption.
Qed.

Lemma reportStep_emitsOnly (P : Event -> Prop) (p : Param) :
  (forall line, P (ConsoleLog line)) -> (forall t, P (NextTick t)) ->
  respects (emitsOnly P) (reportStep p).
Proof.
  intros Hlog Htick. unfold reportStep.
  destruct (_ =? _); [|apply respects_ret; apply _].
  apply respects_bind; [apply _ | |].
  - apply respects_bind; [apply _ | | intros count; apply respects_ret; apply _].
    destruct (_ !! TagSeenCount _);
      [apply respects_orThrow | apply respects_ret]; apply _.
  - intros tag. apply respects_bind; [apply _ | now apply emitsOnly_console |].
    intros _. destruct (tagIDTruthy _);
      [now apply emitsOnly_nextTick | apply respects_ret; apply _].
Qed.

Lemma reportCallback_emitsOnly (P : Event -> Prop) (msg : LLRPMessage) :
  (forall line, P (ConsoleLog line)) -> (forall t, P (NextTick t)) ->
  P (AssignStartROSpecSent false) -> (forall block, P (DecodeParameter block)) ->
  respects (emitsOnly P) (reportCallback msg).
Proof.
  intros Hlog Htick Hreset Hdec.
  apply respects_bind; [apply _ | now apply emitsOnly_assignStart |]. intros _.
  apply respects_bind; [apply _ | now apply emitsOnly_console |]. intros _.
  apply respects_bind; [apply _ | now apply emitsOnly_decodeParameter |].
  intros [ps|]; [|apply respects_ret; apply _].
  apply respects_forEach; [apply _|]. intros p _.
  now apply reportStep_emitsOnly.
Qed.

Lemma notEmit_tagsOf t : Forall notEmit t -> tagsOf t = [].
Proof.
  induction 1 as [|e t He _ IH]; [reflexivity|].
  destruct e; simpl in *; try exact IH. contradiction.
Qed.

Lemma reportCallback_tagsOf msg s : tagsOf (trace (reportCallback msg s)) = [].
Proof. apply notEmit_tagsOf. now apply reportCallback_emitsOnly. Qed.

Lemma reportCallback_writesOf msg s : writesOf (trace (reportCallback msg s)) = [].
Proof. apply notWrite_writesOf. now apply reportCallback_emitsOnly. Qed.

Lemma forEach_reportStep_short (pre post : list Param) (p : Param) (s : Session) :
  Forall countable pre ->
  type p = TagReportData parameterC ->
  tagOf p = None ->
  outcome (forEach reportStep (pre ++ p :: post) s) = Throw RangeError /\
  after (forEach reportStep (pre ++ p :: post) s)
    = enqueueAll (DidSeeTagTick <$> observations pre) s /\
  ticksOf (trace (forEach reportStep (pre ++ p :: post) s))
    = DidSeeTagTick <$> observations pre.
Proof.
  intros Hpre Ht Hnone.
  destruct (forEach_reportStep_observations pre s Hpre) as (Ha & Hb & Hc & _).
  rewrite forEach_app, (bind_returns _ _ s tt Ha). cbn [outcome after trace].
  simpl forEach. unfold bind.
  rewrite (reportStep_uncountable p _ Ht Hnone). cbn [outcome after trace].
  rewrite app_nil_r. auto.
Qed.

(** The three steps of [reportCallback] before its loop. *)
Lemma reportCallback_unfold (msg : LLRPMessage) (s : Session) :
  let r := match decode_parameter decode (getParameter msg) with
           | Some ps => forEach reportStep ps (withStartROSpecSent false s)
           | None => ret tt (withStartROSpecSent false s)
           end in
  outcome (reportCallback msg s) = outcome r /\
  after (reportCallback msg s) = after r /\
  ticksOf (trace (reportCallback msg s)) = ticksOf (trace r).
Proof.
  unfold reportCallback, resetIsStartROSpecSent, decodeParameter, console, when.
  unfold bind. simpl.
  destruct log; simpl;
    destruct (decode_parameter decode (getParameter msg)) as [ps|]; simpl;
    try (repeat split; reflexivity);
    destruct (outcome (forEach reportStep ps _)); simpl; repeat split.
Qed.

Lemma tagsOf_emitTag (tags : list Tag) : tagsOf (emitTag <$> tags) = tags.
Proof. induction tags as [|t tags IH]; [reflexivity|]. simpl. f_equal. exact IH. Qed.

Lemma writesOf_emitTag (tags : list Tag) : writesOf (emitTag <$> tags) = [].
Proof. induction tags as [|t tags IH]; [reflexivity|]. exact IH. Qed.

Lemma drainTicks_pop (fuel : nat) (s : Session) (t : Tick) (rest : list Tick) :
  tickQueue s = t :: rest ->
  let r := bind (runTick t) (fun _ => drainTicks fuel) (withTickQueue rest s) in
  outcome (drainTicks (S fuel) s) = outcome r /\
  after (drainTicks (S fuel) s) = after r /\
  trace (drainTicks (S fuel) s) = trace r.
Proof.
  intros Hq r. subst r. cbn [drainTicks].
  set (k := fun next : option Tick =>
              match next with
              | Some t0 => bind (runTick t0) (fun _ => drainTicks fuel)
              | None => ret tt
              end).
  unfold bind at 1 3 5. unfold popTick. rewrite Hq.
  cbn [outcome after trace]. subst k. cbn beta iota. repeat split.
Qed.

(** A queue of emits only: each is run in turn. *)
Lemma drainTicks_emits (tags : list Tag) (fuel : nat) (s : Session) :
  tickQueue s = DidSeeTagTick <$> tags ->
  (length tags <= fuel)%nat ->
  outcome (drainTicks fuel s) = Normal tt /\
  isReaderConfigSet (after (drainTicks fuel s)) = isReaderConfigSet s /\
  isStartROSpecSent (after (drainTicks fuel s)) = isStartROSpecSent s /\
  tickQueue (after (drainTicks fuel s)) = [] /\
  trace (drainTicks fuel s) = emitTag <$> tags.
Proof.
  revert fuel s. induction tags as [|tag tags IH]; intros fuel s Hq Hlen.
  - destruct fuel as [|fuel]; cbn [drainTicks]; [repeat split; exact Hq|].
    unfold bind, popTick. rewrite Hq. cbn. repeat split. exact Hq.
  - destruct fuel as [|fuel]; [simpl in Hlen; lia|].
    destruct (drainTicks_pop fuel s _ _ Hq) as (Ea & Eb & Ec).
    rewrite Ea, Eb, Ec. clear Ea Eb Ec.
    set (s1 := withTickQueue (DidSeeTagTick <$> tags) s).
    rewrite (bind_returns (runTick (DidSeeTagTick tag))
               (fun _ => drainTicks fuel) s1 tt eq_refl).
    cbn [outcome after trace].
    change (after (runTick (DidSeeTagTick tag) s1)) with s1.
    change (trace (runTick (DidSeeTagTick tag) s1)) with [emitTag tag].
    destruct (IH fuel s1 eq_refl) as (Ha & Hb & Hc & Hd & He);
      [simpl in Hlen; lia|].
    rewrite Ha, Hb, Hc, Hd, He. repeat split.
Qed.

Lemma onData_report (chunk : list byte) (msg : LLRPMessage) (s : Session) :
  decode_message decode chunk = Some [msg] ->
  handledAsReport msg = true ->
  outcome (onData (Some chunk) s) = Normal tt /\
  after (onData (Some chunk) s) = enqueue (ReportTick msg) s /\
  writesOf (trace (onData (Some chunk) s)) = [] /\
  tagsOf (trace (onData (Some chunk) s)) = [].
Proof.
  intros Hdec Hrep. unfold handledAsReport in Hrep.
  repeat (apply andb_prop in Hrep as [Hrep ?]).
  repeat match goal with E : negb _ = true |- _ => apply negb_true_iff in E end.
  unfold onData. rewrite Hdec. simpl.
  unfold receive, dispatch, handleROAccessReport, console, when, bind.
  repeat match goal with E : (_ =? _) = _ |- _ => rewrite E; clear E end.
  destruct log; simpl; repeat split.
Qed.

(** A delivery of one tag report, from an empty queue: the callback of
    the report runs, then whatever it queued. *)
Lemma handle_single_report (chunk : list byte) (msg : LLRPMessage) (s : Session) :
  decode_message decode chunk = Some [msg] ->
  handledAsReport msg = true ->
  tickQueue s = [] ->
  let r := bind (reportCallback msg)
             (fun _ => drainTicks
                (length (default [] (decode_parameter decode (getParameter msg))) + 0))
             (withTickQueue [] (enqueue (ReportTick msg) s)) in
  outcome (handle (Data (Some chunk)) s) = outcome r /\
  after (handle (Data (Some chunk)) s) = after r /\
  writesOf (trace (handle (Data (Some chunk)) s)) = writesOf (trace r) /\
  tagsOf (trace (handle (Data (Some chunk)) s)) = tagsOf (trace r).
Proof.
  intros Hdec Hrep Hq r.
  destruct (onData_report chunk msg s Hdec Hrep) as (Ha & Hb & Hc & Hd).
  unfold handle, callback. rewrite (bind_returns _ _ s tt Ha).
  cbn [outcome after trace]. rewrite Hb, writesOf_app, tagsOf_app, Hc, Hd.
  assert (Hq1 : tickQueue (enqueue (ReportTick msg) s) = [ReportTick msg])
    by (simpl; now rewrite Hq).
  unfold processTicks. rewrite Hq1.
  change (queueWeight [ReportTick msg])
    with (S (length (default [] (decode_parameter decode (getParameter msg))) + 0)).
  destruct (drainTicks_pop
              (length (default [] (decode_parameter decode (getParameter msg))) + 0)
              _ _ _ Hq1) as (Ea & Eb & Ec).
  rewrite Ea, Eb, Ec. repeat split.
Qed.

(** X4 (a tag report, from the chunk to the events).  When a chunk
    holds one tag report whose parameters decode to [ps], each
    tag-report-data parameter having a count of at least two bytes or
    none, the delivery ends normally; the tags emitted are, in the order
    of the parameters, those of the tag-report-data parameters whose
    identifier is present and not empty; nothing is written to the
    socket; the start flag ends false and the configuration flag is
    untouched; no callback is left pending. *)
Theorem tag_report_publication (chunk : list byte) (msg : LLRPMessage)
    (ps : list Param) (s : Session) :
  decode_message decode chunk = Some [msg] ->
  handledAsReport msg = true ->
  decode_parameter decode (getParameter msg) = Some ps ->
  Forall countable ps ->
  tickQueue s = [] ->
  let r := handle (Data (Some chunk)) s in
  outcome r = Normal tt /\
  tagsOf (trace r) = observations ps /\
  writesOf (trace r) = [] /\
  isStartROSpecSent (after r) = false /\
  isReaderConfigSet (after r) = isReaderConfigSet s /\
  tickQueue (after r) = [].
Proof.
  intros Hdec Hrep Hps Hcount Hq r. subst r.
  destruct (handle_single_report chunk msg s Hdec Hrep Hq) as (Ea & Eb & Ec & Ed).
  rewrite Ea, Eb, Ec, Ed. clear Ea Eb Ec Ed. rewrite Hps. simpl default.
  set (s0 := withTickQueue [] (enqueue (ReportTick msg) s)).
  destruct (reportCallback_unfold msg s0) as (Ua & Ub & Uc).
  rewrite Hps in Ua, Ub, Uc.
  destruct (forEach_reportStep_observations ps (withStartROSpecSent false s0) Hcount)
    as (Fa & Fb & Fc & _).
  rewrite Fa in Ua. rewrite Fb in Ub. rewrite Fc in Uc.
  rewrite (bind_returns _ _ s0 tt Ua). cbn [outcome after trace]. rewrite Ub.
  set (s2 := enqueueAll (DidSeeTagTick <$> observations ps)
                        (withStartROSpecSent false s0)).
  destruct (enqueueAll_fields (DidSeeTagTick <$> observations ps)
              (withStartROSpecSent false s0)) as (Qa & Qb & Qc).
  fold s2 in Qa, Qb, Qc. simpl in Qc.
  destruct (drainTicks_emits (observations ps) (length ps + 0) s2 Qc)
    as (Da & Db & Dc & Dd & De).
  { pose proof (observations_length ps). lia. }
  rewrite Da, Db, Dc, Dd, De, Qa, Qb.
  rewrite writesOf_app, tagsOf_app, reportCallback_writesOf, reportCallback_tagsOf.
  rewrite writesOf_emitTag, tagsOf_emitTag. repeat split.
Qed.

(** X5 (a count that is too short).  When one tag-report-data parameter
    of a report has a count sub-parameter of fewer than two bytes,
    [readUInt16BE] raises in the callback of the report: the delivery
    ends with that [RangeError]; no tag of the report is emitted, not
    even those of the parameters before the bad one, which stay queued;
    the start flag has been reset. *)
Theorem short_count_loses_report (chunk : list byte) (msg : LLRPMessage)
    (pre post : list Param) (p : Param) (seen : list byte) (s : Session) :
  decode_message decode chunk = Some [msg] ->
  handledAsReport msg = true ->
  decode_parameter decode (getParameter msg) = Some (pre ++ p :: post) ->
  Forall countable pre ->
  type p = TagReportData parameterC ->
  mapSubParameters p !! TagSeenCount parameterC = Some seen ->
  (length seen < 2)%nat ->
  tickQueue s = [] ->
  let r := handle (Data (Some chunk)) s in
  outcome r = Throw RangeError /\
  tagsOf (trace r) = [] /\
  writesOf (trace r) = [] /\
  isStartROSpecSent (after r) = false /\
  tickQueue (after r) = DidSeeTagTick <$> observations pre.
Proof.
  intros Hdec Hrep Hps Hpre Ht Hseen Hlen Hq r. subst r.
  destruct (handle_single_report chunk msg s Hdec Hrep Hq) as (Ea & Eb & Ec & Ed).
  rewrite Ea, Eb, Ec, Ed. clear Ea Eb Ec Ed.
  set (s0 := withTickQueue [] (enqueue (ReportTick msg) s)).
  destruct (reportCallback_unfold msg s0) as (Ua & Ub & _).
  rewrite Hps in Ua, Ub.
  destruct (forEach_reportStep_short pre post p (withStartROSpecSent false s0)
              Hpre Ht (tagOf_short p seen Hseen Hlen)) as (Fa & Fb & _).
  rewrite Fa in Ua. rewrite Fb in Ub.
  rewrite (bind_throws _ _ s0 RangeError Ua). cbn [outcome after trace]. rewrite Ub.
  destruct (enqueueAll_fields (DidSeeTagTick <$> observations pre)
              (withStartROSpecSent false s0)) as (_ & Qb & Qc).
  rewrite Qb, Qc, reportCallback_writesOf, reportCallback_tagsOf. repeat split.
Qed.

(** *** A notification that cannot be read *)

Lemma notificationStep_unreadable (p : Param) (s : Session) :
  type p = ReaderEventNotificationData parameterC ->
  mapSubParameters p !! ROSpecEvent parameterC = Some [] ->
  notificationStep p s = mkResult (Throw RangeError) s [].
Proof.
  intros Ht Hev. unfold notificationStep.
  now rewrite (proj2 (Z.eqb_eq _ _) Ht), Hev.
Qed.

(** X6 (a notification that cannot be read).  If [decode.parameter]
    answers [undefined] for the parameter block of a reader-event
    notification, [handleReaderNotification] raises a [TypeError] right
    after the decoding, with the session untouched, whereas the callback
    of a tag report in the same situation completes and only resets the
    start flag.  If an event-notification parameter carries an
    [ROSpecEvent] value of zero bytes, [readUInt8] raises a [RangeError]:
    nothing is written to the socket and [isReaderConfigSet] keeps its
    value. *)
Theorem notification_failures (msg : LLRPMessage) (s : Session) :
  (decode_parameter decode (getParameter msg) = None ->
   handleReaderNotification msg s
     = mkResult (Throw TypeError) s [DecodeParameter (getParameter msg)] /\
   outcome (reportCallback msg s) = Normal tt /\
   after (reportCallback msg s) = withStartROSpecSent false s) /\
  (forall pre p post,
     decode_parameter decode (getParameter msg) = Some (pre ++ p :: post) ->
     Forall readable pre ->
     type p = ReaderEventNotificationData parameterC ->
     mapSubParameters p !! ROSpecEvent parameterC = Some [] ->
     outcome (handleReaderNotification msg s) = Throw RangeError /\
     writesOf (trace (handleReaderNotification msg s)) = [] /\
     isReaderConfigSet (after (handleReaderNotification msg s))
       = isReaderConfigSet s).
Proof.
  split.
  - intros Hdec. split; [|split].
    + unfold handleReaderNotification, decodeParameter, bind. simpl.
      now rewrite Hdec.
    + destruct (reportCallback_unfold msg s) as (Ua & _). now rewrite Hdec in Ua.
    + destruct (reportCallback_unfold msg s) as (_ & Ub & _). now rewrite Hdec in Ub.
  - intros pre p post Hdec Hpre Ht Hev.
    assert (Hloop : forEach notificationStep (pre ++ p :: post) s
              = mkResult (Throw RangeError)
                  (if cycleEnded pre then withStartROSpecSent false s else s)
                  (replicate (length (List.filter signalsCycleEnd pre))
                             (AssignStartROSpecSent false) ++ [])).
    { rewrite forEach_app. unfold bind at 1.
      rewrite (forEach_notificationStep pre s Hpre). cbn [outcome after trace].
      simpl forEach. unfold bind.
      now rewrite (notificationStep_unreadable p _ Ht Hev). }
    unfold handleReaderNotification, decodeParameter, bind. simpl.
    rewrite Hdec. simpl. rewrite Hloop. simpl.
    split; [reflexivity|]. split.
    + rewrite app_nil_r. apply notWrite_writesOf.
      apply Forall_replicate. exact I.
    + now destruct (cycleEnded pre).
Qed.

(** *** The start flag after a delivery with a tag report *)

#[local] Instance startKept_compositional : Compositional startKept.
Proof.
  split; unfold startKept.
  - reflexivity.
  - intros s t1 s1 t2 s2 H1 H2. now rewrite H2.
Qed.

Lemma startKept_reportStep p : respects startKept (reportStep p).
Proof.
  unfold reportStep. destruct (_ =? _); [|apply respects_ret; apply _].
  apply respects_bind; [apply _ | |].
  - apply respects_bind; [apply _ | | intros count; apply respects_ret; apply _].
    destruct (_ !! TagSeenCount _);
      [apply respects_orThrow | apply respects_ret]; apply _.
  - intros tag. apply respects_bind; [apply _ | |].
    + apply respects_when; [apply _|]. intros s. reflexivity.
    + intros _. destruct (tagIDTruthy _);
        [intros s; reflexivity | apply respects_ret; apply _].
Qed.

Lemma runTick_start (t : Tick) (s : Session) :
  isStartROSpecSent (after (runTick t s))
    = if isReportTick t then false else isStartROSpecSent s.
Proof.
  destruct t as [msg|tag]; [|reflexivity]. cbn [runTick isReportTick].
  destruct (reportCallback_unfold msg s) as (_ & Ub & _). rewrite Ub.
  destruct (decode_parameter decode (getParameter msg)) as [ps|]; [|reflexivity].
  exact (respects_forEach startKept reportStep ps
           (fun p _ => startKept_reportStep p) (withStartROSpecSent false s)).
Qed.

Lemma existsb_emits (q : list Tick) :
  Forall isEmitTick q -> existsb isReportTick q = false.
Proof.
  induction 1 as [|t q Ht _ IH]; [reflexivity|].
  destruct t; [contradiction | exact IH].
Qed.

Lemma drainTicks_start (fuel : nat) (s : Session) :
  (queueWeight (tickQueue s) <= fuel)%nat ->
  outcome (drainTicks fuel s) = Normal tt ->
  isStartROSpecSent (after (drainTicks fuel s))
    = if existsb isReportTick (tickQueue s) then false else isStartROSpecSent s.
Proof.
  revert s. induction fuel as [|fuel IH]; intros s Hw Hn.
  - destruct (tickQueue s) as [|t q] eqn:Hq; [reflexivity|].
    unfold queueWeight in Hw. simpl in Hw. destruct t; simpl in Hw; lia.
  - destruct (tickQueue s) as [|t q] eqn:Hq.
    { cbn [drainTicks]. unfold bind, popTick. now rewrite Hq. }
    destruct (drainTicks_pop fuel s t q Hq) as (Ea & Eb & _).
    rewrite Ea in Hn. rewrite Eb. clear Ea Eb.
    set (s1 := withTickQueue q s) in *.
    unfold bind in Hn |- *.
    destruct (outcome (runTick t s1)) eqn:Hr; cbn [outcome after] in Hn |- *;
      [|discriminate].
    destruct (runTick_ticks t s1) as [Hemits Hlen].
    rewrite IH; [| |exact Hn].
    + rewrite (queued_runTick t s1), existsb_app, (existsb_emits _ Hemits).
      rewrite orb_false_r, runTick_start. simpl.
      destruct t; simpl; now destruct (existsb isReportTick q).
    + rewrite (queued_runTick t s1). simpl. rewrite queueWeight_app.
      rewrite (queueWeight_emits _ Hemits).
      unfold queueWeight in Hw. simpl in Hw. unfold queueWeight. lia.
Qed.

Lemma receive_report_ticks (msg : LLRPMessage) (s : Session) :
  handledAsReport msg = true ->
  ticksOf (trace (receive msg s)) = [ReportTick msg].
Proof.
  intros Hrep. unfold handledAsReport in Hrep.
  repeat (apply andb_prop in Hrep as [Hrep ?]).
  repeat match goal with E : negb _ = true |- _ => apply negb_true_iff in E end.
  unfold receive, dispatch, handleROAccessReport, console, when, bind.
  repeat match goal with E : (_ =? _) = _ |- _ => rewrite E; clear E end.
  now destruct log.
Qed.

Lemma forEach_receive_ticks (msgs : list LLRPMessage) (msg : LLRPMessage)
    (s : Session) :
  outcome (forEach receive msgs s) = Normal tt ->
  msg ∈ msgs ->
  handledAsReport msg = true ->
  ReportTick msg ∈ ticksOf (trace (forEach receive msgs s)).
Proof.
  revert s. induction msgs as [|m msgs IH]; intros s Hn Hin Hrep.
  - now apply elem_of_nil in Hin.
  - simpl forEach in Hn |- *. unfold bind in Hn |- *.
    destruct (outcome (receive m s)) eqn:Hm; cbn [outcome trace] in Hn |- *;
      [|discriminate].
    rewrite ticksOf_app, elem_of_app.
    apply elem_of_cons in Hin as [->|Hin].
    + left. rewrite (receive_report_ticks m s Hrep). left.
    + right. now apply IH.
Qed.

(** X7 (the start flag after a delivery with a tag report).  A delivery
    that holds a tag report and completes ends with [isStartROSpecSent]
    false, whatever the other messages of the chunk are and did: the
    reset of the report runs after the whole chunk has been handled, so
    it also undoes the flag of a start command written for a later
    message of the same chunk. *)
Theorem report_delivery_clears_start (chunk : list byte)
    (msgs : list LLRPMessage) (msg : LLRPMessage) (s : Session) :
  decode_message decode chunk = Some msgs ->
  msg ∈ msgs ->
  handledAsReport msg = true ->
  outcome (handle (Data (Some chunk)) s) = Normal tt ->
  isStartROSpecSent (after (handle (Data (Some chunk)) s)) = false.
Proof.
  intros Hdec Hin Hrep Hn. unfold handle in Hn |- *. unfold bind in Hn |- *.
  destruct (outcome (callback (Data (Some chunk)) s)) eqn:Hc;
    cbn [outcome after] in Hn |- *; [|discriminate].
  unfold processTicks in Hn |- *. rewrite drainTicks_start; [|lia|exact Hn].
  rewrite (queued_callback (Data (Some chunk)) s), existsb_app.
  assert (Ht : existsb isReportTick
                 (ticksOf (trace (callback (Data (Some chunk)) s))) = true).
  { apply existsb_exists. exists (ReportTick msg). split; [|reflexivity].
    apply list_elem_of_In.
    simpl callback in Hc |- *. unfold onData in Hc |- *. rewrite Hdec in Hc |- *.
    simpl default in Hc |- *. unfold bind in Hc |- *. simpl in Hc |- *.
    destruct (outcome (forEach receive msgs s)) as [[]|] eqn:Hf;
      [|discriminate].
    simpl. now apply forEach_receive_ticks. }
  rewrite Ht, orb_true_r. reflexivity.
Qed.

(** *** Logging *)

Lemma muted_ret {A} (a : A) : muted (ret a) (ret a).
Proof. intros s. repeat split. Qed.

Lemma muted_throw {A} e : muted (@throw A e) (throw e).
Proof. intros s. repeat split. Qed.

Lemma muted_bind {A B} (m m' : M A) (f f' : A -> M B) :
  muted m m' -> (forall a, muted (f a) (f' a)) -> muted (bind m f) (bind m' f').
Proof.
  intros Hm Hf s. unfold bind. destruct (Hm s) as (Ho & Ha & Ht).
  rewrite <- Ho, <- Ha, <- Ht.
  destruct (outcome (m s)) as [a|e]; simpl; [|repeat split].
  destruct (Hf a (after (m s))) as (Fo & Fa & Ft).
  rewrite quiet_app, Ft. repeat split; assumption.
Qed.

Lemma muted_forEach {A} (f f' : A -> M unit) (l : list A) :
  (forall x, muted (f x) (f' x)) -> muted (forEach f l) (forEach f' l).
Proof.
  intros H. induction l as [|x l IH]; simpl; [apply muted_ret|].
  apply muted_bind; [apply H | intros _; exact IH].
Qed.

Lemma muted_orThrow {A} (o : option A) e : muted (orThrow o e) (orThrow o e).
Proof. destruct o; [apply muted_ret | apply muted_throw]. Qed.

Lemma muted_tell e : isConsoleLog e = false -> muted (tell e) (tell e).
Proof. intros H s. simpl. unfold quiet. simpl. rewrite H. repeat split. Qed.

Lemma muted_console line : muted (console line) (console (env := silenced env) line).
Proof. intros s. unfold console, when. simpl. destruct log; repeat split. Qed.

Lemma muted_sendStartROSpec : muted sendStartROSpec sendStartROSpec.
Proof.
  intros s. unfold sendStartROSpec. destruct (isStartROSpecSent s); repeat split.
Qed.

Lemma muted_decodeParameter block :
  muted (decodeParameter block) (decodeParameter (env := silenced env) block).
Proof.
  apply muted_bind; [now apply muted_tell | intros _; apply muted_ret].
Qed.

Lemma muted_handleReaderNotification msg :
  muted (handleReaderNotification msg)
        (handleReaderNotification (env := silenced env) msg).
Proof.
  apply muted_bind; [apply muted_decodeParameter|]. intros pkv.
  apply muted_bind; [apply muted_orThrow|]. intros ps.
  apply muted_bind.
  - apply muted_forEach. intros p.
    change (notificationStep (env := silenced env) p) with (notificationStep p).
    unfold notificationStep. destruct (_ =? _); [|apply muted_ret].
    destruct (_ !! _); [|apply muted_ret].
    apply muted_bind; [apply muted_orThrow|]. intros kind.
    destruct (kind =? 1); [|apply muted_ret]. intros s. repeat split.
  - intros _ s. destruct (isReaderConfigSet s); simpl;
      [apply muted_sendStartROSpec | repeat split].
Qed.

Lemma muted_dispatch msg : muted (dispatch msg) (dispatch (env := silenced env) msg).
Proof.
  unfold dispatch. simpl.
  repeat (destruct (_ =? _);
          [first [ apply muted_handleReaderNotification
                 | apply muted_sendStartROSpec
                 | now apply muted_tell
                 | intros s; repeat split ] |]).
  apply muted_ret.
Qed.

Lemma muted_callback ev : muted (callback ev) (callback (env := silenced env) ev).
Proof.
  destruct ev as [| |[chunk|]| |err heard]; simpl;
    try apply muted_console;
    try (apply muted_bind;
         [apply muted_console | intros _; now apply muted_tell]);
    try (apply muted_bind;
         [apply muted_console
         | intros _; apply muted_bind;
           [now apply muted_tell
           | intros _; destruct heard; [apply muted_ret | apply muted_throw]]]).
  apply muted_bind; [now apply muted_tell |]. intros _.
  apply muted_forEach. intros msg.
  apply muted_bind; [apply muted_console | intros _; apply muted_dispatch].
Qed.

Lemma muted_reportStep p : muted (reportStep p) (reportStep (env := silenced env) p).
Proof.
  unfold reportStep. simpl. destruct (_ =? _); [|apply muted_ret].
  apply muted_bind.
  - apply muted_bind; [|intros count; apply muted_ret].
    destruct (_ !! TagSeenCount _); [apply muted_orThrow | apply muted_ret].
  - intros tag. apply muted_bind; [apply muted_console|]. intros _.
    destruct (tagIDTruthy _); [intros s; repeat split | apply muted_ret].
Qed.

Lemma muted_runTick t : muted (runTick t) (runTick (env := silenced env) t).
Proof.
  destruct t as [msg|tag]; simpl; [|now apply muted_tell].
  apply muted_bind; [intros s; repeat split|]. intros _.
  apply muted_bind; [apply muted_console|]. intros _.
  apply muted_bind; [apply muted_decodeParameter|].
  intros [ps|]; [|apply muted_ret].
  apply muted_forEach, muted_reportStep.
Qed.

Lemma muted_drainTicks fuel :
  muted (drainTicks fuel) (drainTicks (env := silenced env) fuel).
Proof.
  induction fuel as [|fuel IH]; simpl; [apply muted_ret|].
  apply muted_bind.
  - intros s. unfold popTick. destruct (tickQueue s); repeat split.
  - intros [t|]; [|apply muted_ret].
    apply muted_bind; [apply muted_runTick | intros _; exact IH].
Qed.

Lemma muted_run evs : muted (run evs) (run (env := silenced env) evs).
Proof.
  apply muted_forEach. intros ev.
  apply muted_bind; [apply muted_callback|]. intros _ s.
  apply muted_drainTicks.
Qed.

Lemma quiet_idem t : quiet (quiet t) = quiet t.
Proof.
  unfold quiet. induction t as [|e t IH]; [reflexivity|].
  simpl. destruct (isConsoleLog e) eqn:He; simpl; [exact IH|].
  rewrite He. simpl. now f_equal.
Qed.

(** X8 (logging).  The flag [log] changes nothing but the lines of
    [console.log]: a run with logging on and the same run with logging
    off end in the same way, in the same session, and their traces are
    the same once the log lines are taken out; with logging off there is
    no log line at all. *)
Theorem logging_is_transparent (evs : list SocketEvent) (s : Session) :
  let r := run evs s in
  let r' := run (env := silenced env) evs s in
  outcome r = outcome r' /\
  after r = after r' /\
  quiet (trace r) = trace r' /\
  quiet (trace r') = trace r'.
Proof.
  intros r r'. destruct (muted_run evs s) as (Ha & Hb & Hc).
  repeat split; try assumption.
  fold r r' in Hc. rewrite <- Hc. apply quiet_idem.
Qed.

(** *** The tags that get emitted *)

Lemma byteValue_range (b : byte) : 0 <= byteValue b < 256.
Proof.
  unfold byteValue. pose proof (Byte.to_N_bounded b) as H. lia.
Qed.

Lemma readUInt16BE_range (buf : list byte) (offset : nat) (c : Z) :
  readUInt16BE buf offset = Some c -> 0 <= c < 65536.
Proof.
  unfold readUInt16BE.
  destruct (buf !! offset) as [hi|]; [|discriminate].
  destruct (buf !! S offset) as [lo|]; [|discriminate].
  intros H. inversion H.
  pose proof (byteValue_range hi). pose proof (byteValue_range lo). lia.
Qed.

Lemma tagOf_wellFormed (p : Param) (tag : Tag) :
  tagOf p = Some tag -> tagIDTruthy (tagID tag) = true -> wellFormedTag tag.
Proof.
  unfold tagOf. intros Htag Htruthy.
  destruct (mapSubParameters p !! EPC96 parameterC) as [idb|] eqn:Hid.
  - exists idb.
    destruct (mapSubParameters p !! TagSeenCount parameterC) as [seen|];
      [destruct (readUInt16BE seen 0) as [c|] eqn:Hc|];
      inversion Htag; subst tag; simpl in *;
      (split; [now apply tagIDTruthy_hex | split; [reflexivity|]]);
      [exact (readUInt16BE_range _ _ _ Hc) | lia].
  - destruct (mapSubParameters p !! TagSeenCount parameterC) as [seen|];
      [destruct (readUInt16BE seen 0)|];
      inversion Htag; subst tag; discriminate Htruthy.
Qed.

Lemma reportStep_wellFormed p : respects (emitsOnly wellFormedEvent) (reportStep p).
Proof.
  unfold reportStep. destruct (_ =? _); [|apply respects_ret; apply _].
  apply respects_bind_returned; [apply _ | |].
  - apply respects_bind; [apply _ | | intros count; apply respects_ret; apply _].
    destruct (_ !! TagSeenCount _);
      [apply respects_orThrow | apply respects_ret]; apply _.
  - intros tag s Hmade. rewrite makeTag_tagOf in Hmade.
    destruct (tagOf p) as [tag'|] eqn:Htag; simpl in Hmade; [|discriminate].
    inversion Hmade; subst tag'.
    apply respects_bind; [apply _ | now apply emitsOnly_console |]. intros _.
    destruct (tagIDTruthy (tagID tag)) eqn:Htruthy; [|apply respects_ret; apply _].
    apply emitsOnly_nextTick. exact (tagOf_wellFormed p tag Htag Htruthy).
Qed.

Lemma runTick_wellFormed t :
  wellFormedTick t -> respects (emitsOnly wellFormedEvent) (runTick t).
Proof.
  destruct t as [msg|tag]; simpl; intros H; [|now apply emitsOnly_tell].
  apply respects_bind; [apply _ | now apply emitsOnly_assignStart |]. intros _.
  apply respects_bind; [apply _ | now apply emitsOnly_console |]. intros _.
  apply respects_bind; [apply _ | now apply emitsOnly_decodeParameter |].
  intros [ps|]; [|apply respects_ret; apply _].
  apply respects_forEach; [apply _|]. intros p _. apply reportStep_wellFormed.
Qed.

Lemma notificationStep_emitsOnly (P : Event -> Prop) (p : Param) :
  P (AssignStartROSpecSent false) ->
  respects (emitsOnly P) (notificationStep p).
Proof.
  intros H. unfold notificationStep.
  destruct (_ =? _); [|apply respects_ret; apply _].
  destruct (_ !! _); [|apply respects_ret; apply _].
  apply respects_bind; [apply _ | apply respects_orThrow; apply _ |].
  intros kind. destruct (kind =? 1);
    [now apply emitsOnly_assignStart | apply respects_ret; apply _].
Qed.

Lemma sendStartROSpec_sync : respects (emitsOnly syncEvent) sendStartROSpec.
Proof.
  intros s. unfold sendStartROSpec.
  destruct (isStartROSpecSent s); simpl; repeat constructor.
Qed.

Lemma dispatch_sync msg : respects (emitsOnly syncEvent) (dispatch msg).
Proof.
  unfold dispatch.
  destruct (_ =? READER_EVENT_NOTIFICATION _).
  { apply respects_bind; [apply _ | now apply emitsOnly_decodeParameter |].
    intros pkv. apply respects_bind; [apply _ | apply respects_orThrow; apply _ |].
    intros ps. apply respects_bind; [apply _ | |].
    - apply respects_forEach; [apply _|]. intros p _.
      now apply notificationStep_emitsOnly.
    - intros _. apply (respects_branch _ (fun s => negb (isReaderConfigSet s))).
      + intros s. simpl. repeat constructor.
      + apply sendStartROSpec_sync. }
  repeat (destruct (_ =? _);
          [first [ apply sendStartROSpec_sync
                 | now apply emitsOnly_nextTick
                 | now apply emitsOnly_tell ] |]).
  apply respects_ret. apply _.
Qed.

Lemma callback_sync ev : respects (emitsOnly syncEvent) (callback ev).
Proof.
  destruct ev as [| |[chunk|]| |err heard]; simpl;
    try (now apply emitsOnly_console);
    try (apply respects_bind;
         [apply _ | now apply emitsOnly_console
         | intros _; now apply emitsOnly_tell]);
    try (apply respects_bind;
         [apply _ | now apply emitsOnly_console
         | intros _; apply respects_emitError;
           first [now apply emitsOnly_tell | apply _]]).
  apply respects_bind; [apply _ | now apply emitsOnly_tell |]. intros _.
  apply respects_forEach; [apply _|]. intros msg _.
  apply respects_bind; [apply _ | now apply emitsOnly_console |]. intros _.
  apply dispatch_sync.
Qed.

Lemma syncEvent_wellFormed e : syncEvent e -> wellFormedEvent e.
Proof. destruct e as [| | | | | | |[]|[]|]; simpl; tauto. Qed.

#[local] Instance tagsGuarded_compositional : Compositional tagsGuarded.
Proof.
  split; unfold tagsGuarded.
  - intros s H. split; [constructor | exact H].
  - intros s t1 s1 t2 s2 H1 H2 H. destruct (H1 H) as [Ha Hb].
    destruct (H2 Hb) as [Hc Hd]. split; [|exact Hd].
    apply Forall_app. now split.
Qed.

Lemma wellFormed_ticksOf t :
  Forall wellFormedEvent t -> Forall wellFormedTick (ticksOf t).
Proof.
  induction 1 as [|e t He _ IH]; [constructor|].
  destruct e; simpl; try exact IH. constructor; [exact He | exact IH].
Qed.

Lemma tagsGuarded_of {A} (m : M A) :
  respects (emitsOnly wellFormedEvent) m -> respects queued m ->
  respects tagsGuarded m.
Proof.
  intros He Hq s H. split; [apply He|].
  rewrite (Hq s). apply Forall_app. split; [exact H|].
  apply wellFormed_ticksOf, He.
Qed.

Lemma drainTicks_tagsGuarded fuel : respects tagsGuarded (drainTicks fuel).
Proof.
  induction fuel as [|fuel IH]; [apply respects_ret; apply _|].
  intros s Hq. destruct (tickQueue s) as [|t q] eqn:Hs.
  { cbn [drainTicks]. unfold bind, popTick. rewrite Hs. simpl.
    split; [constructor | now rewrite Hs]. }
  destruct (drainTicks_pop fuel s t q Hs) as (_ & Eb & Ec).
  rewrite Eb, Ec. inversion Hq as [|? ? Ht Hrest]; subst.
  apply (respects_bind tagsGuarded (runTick t) (fun _ => drainTicks fuel)).
  - apply tagsGuarded_of; [now apply runTick_wellFormed | apply queued_runTick].
  - intros _. exact IH.
  - exact Hrest.
Qed.

Lemma run_tagsGuarded evs : respects tagsGuarded (run evs).
Proof.
  apply respects_forEach; [apply _|]. intros ev _.
  apply respects_bind; [apply _ | |].
  - apply tagsGuarded_of; [|apply queued_callback].
    apply (emitsOnly_weaken syncEvent); [exact syncEvent_wellFormed|].
    apply callback_sync.
  - intros _ s. apply drainTicks_tagsGuarded.
Qed.

Lemma toStringHex_length (buf : list byte) :
  String.length (toStringHex buf) = (2 * length buf)%nat.
Proof.
  induction buf as [|b buf IH]; [reflexivity|].
  change (toStringHex (b :: buf))
    with (String (hexDigit (byteValue b / 16))
            (String (hexDigit (byteValue b mod 16)) (toStringHex buf))).
  cbn [String.length]. rewrite IH. simpl length. lia.
Qed.

(** X9 (the tags that get emitted).  Over any run from a session with
    no callback pending, every tag handed to the listeners of
    ['didSeeTag'] has a [tagID] that is the hexadecimal text of at least
    one byte (lowercase digits, two per byte, never [null] nor empty)
    and a [tagSeenCount] between 0 and 65535. *)
Theorem emitted_tags_well_formed (evs : list SocketEvent) (s : Session)
    (tag : Tag) :
  tickQueue s = [] ->
  tag ∈ tagsOf (trace (run evs s)) ->
  (exists idb : list byte,
     idb <> [] /\
     tagID tag = Some (toStringHex idb) /\
     String.length (toStringHex idb) = (2 * length idb)%nat /\
     allChars lowerHexDigit (toStringHex idb) = true) /\
  tagIDTruthy (tagID tag) = true /\
  0 <= tagSeenCount tag < 65536.
Proof.
  intros Hq Hin. destruct (run_tagsGuarded evs s) as [Hall _].
  { rewrite Hq. constructor. }
  assert (Hw : wellFormedTag tag).
  { unfold tagsOf in Hin. apply list_elem_of_omap in Hin as (e & He & Htag).
    rewrite Forall_forall in Hall. specialize (Hall e He).
    destruct e as [| | | | | | | |[]|]; try discriminate Htag.
    inversion Htag; subst. exact Hall. }
  destruct Hw as (idb & Hne & Hid & Hcount).
  split; [|split; [|exact Hcount]].
  - exists idb. repeat split; try assumption.
    + apply toStringHex_length.
    + apply toStringHex_lower.
  - rewrite Hid. now apply tagIDTruthy_hex.
Qed.

(** *** The start-up exchange *)

Lemma handleReaderNotification_readable (msg : LLRPMessage) (ps : list Param)
    (s : Session) :
  decode_parameter decode (getParameter msg) = Some ps ->
  Forall readable ps ->
  let s1 := if cycleEnded ps then withStartROSpecSent false s else s in
  handleReaderNotification msg s =
    mkResult (Normal tt)
      (if isReaderConfigSet s
       then if isStartROSpecSent s1 then s1 else withStartROSpecSent true s1
       else withReaderConfigSet true s1)
      (DecodeParameter (getParameter msg)
       :: replicate (length (List.filter signalsCycleEnd ps))
                    (AssignStartROSpecSent false)
       ++ (if isReaderConfigSet s
           then if isStartROSpecSent s1 then []
                else [AssignStartROSpecSent true; Write bStartRoSpec]
           else [Write bSetReaderConfig; AssignReaderConfigSet true])).
Proof.
  intros Hdec Hread s1.
  unfold handleReaderNotification, decodeParameter, bind. simpl.
  rewrite Hdec. simpl. rewrite (forEach_notificationStep ps s Hread). simpl.
  fold s1.
  assert (Hc : isReaderConfigSet s1 = isReaderConfigSet s)
    by (unfold s1; now destruct (cycleEnded ps)).
  rewrite Hc. unfold sendStartROSpec.
  destruct (isReaderConfigSet s); simpl; [|reflexivity].
  destruct (isStartROSpecSent s1); simpl; [now rewrite app_nil_r | reflexivity].
Qed.

Lemma writesOf_resets (n : nat) :
  writesOf (replicate n (AssignStartROSpecSent false)) = [].
Proof. induction n as [|n IH]; [reflexivity | exact IH]. Qed.

Lemma writesOf_notification (block : list byte) (k : nat) (rest : list Event) :
  writesOf (DecodeParameter block
            :: replicate k (AssignStartROSpecSent false) ++ rest)
  = writesOf rest.
Proof.
  change (writesOf (replicate k (AssignStartROSpecSent false) ++ rest)
          = writesOf rest).
  now rewrite writesOf_app, writesOf_resets.
Qed.

Lemma forEach_receive_cons (m : LLRPMessage) (ms : list LLRPMessage) (s : Session) :
  outcome (dispatch m s) = Normal tt ->
  outcome (forEach receive (m :: ms) s)
    = outcome (forEach receive ms (after (dispatch m s))) /\
  after (forEach receive (m :: ms) s)
    = after (forEach receive ms (after (dispatch m s))) /\
  writesOf (trace (forEach receive (m :: ms) s))
    = writesOf (trace (dispatch m s))
      ++ writesOf (trace (forEach receive ms (after (dispatch m s)))).
Proof.
  intros Hn. simpl forEach. unfold receive, console, when, bind.
  destruct log; simpl; rewrite Hn; simpl; rewrite writesOf_app; repeat split.
Qed.

(** X10 (the start-up exchange).  With the five type codes of the
    exchange pairwise different, from a session with both flags false:
    handling a reader-event notification whose parameters can be read,
    then the responses to set-reader-config, add-rospec, enable-rospec
    and start-rospec, writes the configure, add-rospec, enable-rospec,
    start-rospec and enable-events-and-reports commands, in that order
    and nothing else, and ends with both flags true. *)
Theorem handshake_sequence (n c a e st : LLRPMessage) (ps : list Param)
    (s : Session) :
  handshakeCodesDistinct ->
  type_value n = READER_EVENT_NOTIFICATION messageC ->
  type_value c = SET_READER_CONFIG_RESPONSE messageC ->
  type_value a = ADD_ROSPEC_RESPONSE messageC ->
  type_value e = ENABLE_ROSPEC_RESPONSE messageC ->
  type_value st = START_ROSPEC_RESPONSE messageC ->
  decode_parameter decode (getParameter n) = Some ps ->
  Forall readable ps ->
  isReaderConfigSet s = false ->
  isStartROSpecSent s = false ->
  let r := forEach receive [n; c; a; e; st] s in
  outcome r = Normal tt /\
  writesOf (trace r)
    = [bSetReaderConfig; bAddRoSpec; bEnableRoSpec; bStartRoSpec;
       bEnableEventsAndReport] /\
  isReaderConfigSet (after r) = true /\
  isStartROSpecSent (after r) = true /\
  tickQueue (after r) = tickQueue s.
Proof.
  intros Hdistinct Hn Hc Ha He Hst Hdec Hread Hcfg Hstart r. subst r.
  unfold handshakeCodesDistinct in Hdistinct.
  rewrite !NoDup_cons, !not_elem_of_cons in Hdistinct.
  destruct Hdistinct as ((N1 & N2 & N3 & N4 & _) & (N5 & N6 & N7 & _)
                         & (N8 & N9 & _) & (N10 & _) & _).
  assert (D1 : dispatch n s = handleReaderNotification n s).
  { unfold dispatch. now rewrite (proj2 (Z.eqb_eq _ _) Hn). }
  assert (D2 : forall s0, dispatch c s0 = write bAddRoSpec s0).
  { intros s0. unfold dispatch. rewrite Hc.
    rewrite (proj2 (Z.eqb_neq _ _)) by congruence. now rewrite Z.eqb_refl. }
  assert (D3 : forall s0, dispatch a s0 = write bEnableRoSpec s0).
  { intros s0. unfold dispatch. rewrite Ha.
    rewrite !(proj2 (Z.eqb_neq _ _)) by congruence. now rewrite Z.eqb_refl. }
  assert (D4 : forall s0, dispatch e s0 = sendStartROSpec s0).
  { intros s0. unfold dispatch. rewrite He.
    rewrite !(proj2 (Z.eqb_neq _ _)) by congruence. now rewrite Z.eqb_refl. }
  assert (D5 : forall s0, dispatch st s0 = write bEnableEventsAndReport s0).
  { intros s0. unfold dispatch. rewrite Hst.
    rewrite !(proj2 (Z.eqb_neq _ _)) by congruence. now rewrite Z.eqb_refl. }
  rewrite (handleReaderNotification_readable n ps s Hdec Hread) in D1.
  rewrite Hcfg in D1.
  set (s0 := if cycleEnded ps then withStartROSpecSent false s else s) in D1.
  assert (Hs0 : isStartROSpecSent s0 = false /\ tickQueue s0 = tickQueue s).
  { unfold s0. destruct (cycleEnded ps); simpl; auto. }
  destruct Hs0 as [Hs0 Hq0].
  destruct (forEach_receive_cons n [c; a; e; st] s) as (E1 & E2 & E3);
    [now rewrite D1|].
  rewrite E1, E2, E3, D1. cbn [outcome after trace]. clear E1 E2 E3.
  set (s1 := withReaderConfigSet true s0).
  destruct (forEach_receive_cons c [a; e; st] s1) as (E1 & E2 & E3);
    [now rewrite D2|].
  rewrite E1, E2, E3, D2. cbn [write tell outcome after trace]. clear E1 E2 E3.
  destruct (forEach_receive_cons a [e; st] s1) as (E1 & E2 & E3);
    [now rewrite D3|].
  rewrite E1, E2, E3, D3. cbn [write tell outcome after trace]. clear E1 E2 E3.
  assert (D4' : sendStartROSpec s1
                = mkResult (Normal tt) (withStartROSpecSent true s1)
                    [AssignStartROSpecSent true; Write bStartRoSpec]).
  { unfold sendStartROSpec. simpl. now rewrite Hs0. }
  destruct (forEach_receive_cons e [st] s1) as (E1 & E2 & E3);
    [now rewrite D4, D4'|].
  rewrite E1, E2, E3, D4, D4'. cbn [outcome after trace]. clear E1 E2 E3.
  destruct (forEach_receive_cons st [] (withStartROSpecSent true s1))
    as (E1 & E2 & E3); [now rewrite D5|].
  rewrite E1, E2, E3, D5. cbn [write tell outcome after trace forEach ret].
  rewrite writesOf_notification.
  repeat split. simpl. exact Hq0.
Qed.

(** *** Hexadecimal text, both ways *)

Lemma hex_pair (h l : ascii) :
  lowerHexDigit h = true -> lowerHexDigit l = true ->
  exists b : byte,
    (forall rest, fromHex (String h (String l rest)) = b :: fromHex rest) /\
    hexOfByte b = String h (String l EmptyString).
Proof.
  intros Hh Hl.
  destruct h as [[] [] [] [] [] [] [] []]; try discriminate Hh;
    destruct l as [[] [] [] [] [] [] [] []]; try discriminate Hl;
    eexists; (split; [intros rest; simpl; reflexivity | reflexivity]).
Qed.

Lemma hexPairs_toStringHex (buf : list byte) : hexPairs (toStringHex buf) = true.
Proof.
  induction buf as [|b buf IH]; [reflexivity|].
  change (toStringHex (b :: buf))
    with (String (hexDigit (byteValue b / 16))
            (String (hexDigit (byteValue b mod 16)) (toStringHex buf))).
  cbn [hexPairs]. rewrite IH, andb_true_r. destruct b; reflexivity.
Qed.

Lemma toStringHex_fromHex_bounded (n : nat) (text : string) :
  (String.length text <= n)%nat ->
  hexPairs text = true ->
  toStringHex (fromHex text) = text.
Proof.
  revert text. induction n as [|n IH]; intros text Hlen Hp.
  - destruct text; [reflexivity | simpl in Hlen; lia].
  - destruct text as [|h [|l rest]]; [reflexivity | discriminate Hp |].
    cbn [hexPairs] in Hp. apply andb_prop in Hp as [Hp Hrest].
    apply andb_prop in Hp as [Hh Hl].
    destruct (hex_pair h l Hh Hl) as (b & Hfrom & Hto).
    rewrite Hfrom. cbn [toStringHex]. rewrite Hto.
    cbn [String.length] in Hlen.
    rewrite (IH rest) by (assumption || lia). reflexivity.
Qed.

(** X11 (hexadecimal text, both ways).  [toString('hex')] of a buffer is
    text made of pairs of lowercase hexadecimal digits, two characters
    per byte, from which [new Buffer(text, 'hex')] gives the buffer
    back; and any text made of such pairs is given back by
    [toString('hex')] of the buffer [new Buffer(text, 'hex')] builds
    from it, so that no byte of such a literal is lost or added. *)
Theorem hex_round_trip :
  (forall buf : list byte,
     fromHex (toStringHex buf) = buf /\
     hexPairs (toStringHex buf) = true /\
     String.length (toStringHex buf) = (2 * length buf)%nat) /\
  (forall text : string,
     hexPairs text = true -> toStringHex (fromHex text) = text).
Proof.
  split.
  - intros buf. split; [apply fromHex_toStringHex|].
    split; [apply hexPairs_toStringHex | apply toStringHex_length].
  - intros text. now apply (toStringHex_fromHex_bounded (String.length text)).
Qed.

(** *** The ways a handler can raise *)

#[local] Instance readable_dec (p : Param) : Decision (readable p).
Proof. unfold readable. apply _. Qed.

#[local] Instance countable_dec (p : Param) : Decision (countable p).
Proof. unfold countable. apply _. Qed.

Lemma notificationStep_throw (p : Param) (s : Session) (e : JSError) :
  outcome (notificationStep p s) = Throw e -> e = RangeError.
Proof.
  unfold notificationStep. destruct (_ =? _); [|discriminate].
  destruct (_ !! _) as [event|]; [|discriminate].
  unfold bind. destruct (readUInt8 event 0) as [kind|]; simpl.
  - destruct (kind =? 1); discriminate.
  - intros H. now inversion H.
Qed.

Lemma forEach_throw {A} (f : A -> M unit) (l : list A) (s : Session) (e e0 : JSError) :
  (forall x s' e', outcome (f x s') = Throw e' -> e' = e0) ->
  outcome (forEach f l s) = Throw e -> e = e0.
Proof.
  intros Hf. revert s. induction l as [|x l IH]; intros s; [discriminate|].
  simpl. unfold bind. destruct (outcome (f x s)) eqn:Hx; simpl.
  - apply IH.
  - intros H. inversion H; subst. exact (Hf x s e Hx).
Qed.

Lemma reportStep_throw (p : Param) (s : Session) (e : JSError) :
  outcome (reportStep p s) = Throw e -> e = RangeError.
Proof.
  unfold reportStep. destruct (_ =? _); [|discriminate].
  unfold bind at 1. rewrite makeTag_tagOf.
  destruct (tagOf p) as [tag|]; simpl.
  - unfold bind, console, when.
    destruct log; simpl; destruct (tagIDTruthy _); discriminate.
  - intros H. now inversion H.
Qed.

Lemma unreadable_exists (ps : list Param) :
  ~ Forall readable ps -> exists p, p ∈ ps /\ ~ readable p.
Proof.
  intros H. apply not_Forall_Exists in H; [|apply _].
  apply Exists_exists in H. exact H.
Qed.

Lemma uncountable_exists (ps : list Param) :
  ~ Forall countable ps -> exists p, p ∈ ps /\ ~ countable p.
Proof.
  intros H. apply not_Forall_Exists in H; [|apply _].
  apply Exists_exists in H. exact H.
Qed.

(** X12 (the ways a handler can raise).  Handling a message raises only
    for a reader-event notification, and then either a [TypeError]
    because [decode.parameter] answered [undefined], or a [RangeError]
    because an event-notification parameter carries an [ROSpecEvent]
    value of zero bytes.  A queued callback raises only when it is the
    callback of a tag report one of whose tag-report-data parameters has
    a count of fewer than two bytes, and then a [RangeError]. *)
Theorem raises_characterised :
  (forall msg s e,
     outcome (dispatch msg s) = Throw e ->
     type_value msg = READER_EVENT_NOTIFICATION messageC /\
     ((e = TypeError /\ decode_parameter decode (getParameter msg) = None) \/
      (e = RangeError /\
       exists ps p, decode_parameter decode (getParameter msg) = Some ps /\
                    p ∈ ps /\ ~ readable p))) /\
  (forall t s e,
     outcome (runTick t s) = Throw e ->
     e = RangeError /\
     exists msg ps p,
       t = ReportTick msg /\
       decode_parameter decode (getParameter msg) = Some ps /\
       p ∈ ps /\ ~ countable p).
Proof.
  split.
  - intros msg s e. unfold dispatch.
    destruct (_ =? READER_EVENT_NOTIFICATION _) eqn:Hn.
    + intros H. split; [lia|].
      destruct (decode_parameter decode (getParameter msg)) as [ps|] eqn:Hdec.
      * right. destruct (decide (Forall readable ps)) as [Hall|Hnot].
        { rewrite (handleReaderNotification_readable msg ps s Hdec Hall) in H.
          discriminate H. }
        destruct (unreadable_exists ps Hnot) as (p & Hin & Hp).
        split; [|exists ps, p; auto].
        revert H. unfold handleReaderNotification, decodeParameter, bind. simpl.
        rewrite Hdec. simpl.
        destruct (outcome (forEach notificationStep ps s)) eqn:Hloop; simpl.
        { unfold sendStartROSpec.
          destruct (isReaderConfigSet _), (isStartROSpecSent _); discriminate. }
        intros H. inversion H; subst.
        exact (forEach_throw notificationStep ps s e RangeError
                 notificationStep_throw Hloop).
      * left. revert H.
        unfold handleReaderNotification, decodeParameter, bind. simpl.
        rewrite Hdec. simpl. intros H. inversion H. auto.
    + unfold sendStartROSpec, handleROAccessReport.
      repeat (destruct (_ =? _); [try discriminate|]);
        try (destruct (isStartROSpecSent s); discriminate);
        try discriminate.
  - intros t s e. destruct t as [msg|tag]; [|discriminate].
    cbn [runTick]. intros H.
    destruct (reportCallback_unfold msg s) as (Ua & _). rewrite H in Ua.
    destruct (decode_parameter decode (getParameter msg)) as [ps|] eqn:Hdec;
      [|discriminate Ua].
    symmetry in Ua. split.
    + exact (forEach_throw reportStep ps _ e RangeError reportStep_throw Ua).
    + destruct (decide (Forall countable ps)) as [Hall|Hnot].
      { destruct (forEach_reportStep_observations ps
                    (withStartROSpecSent false s) Hall) as (Fa & _).
        rewrite Fa in Ua. discriminate Ua. }
      destruct (uncountable_exists ps Hnot) as (p & Hin & Hp).
      exists msg, ps, p. auto.
Qed.

(** *** Chunks that arrive joined *)

Lemma notNextTick_ticksOf t : Forall notNextTick t -> ticksOf t = [].
Proof.
  induction 1 as [|e t He _ IH]; [reflexivity|].
  destruct e; simpl in *; try exact IH. contradiction.
Qed.

Lemma dispatch_notNextTick (msg : LLRPMessage) :
  handledAsReport msg = false ->
  respects (emitsOnly notNextTick) (dispatch msg).
Proof.
  unfold handledAsReport, dispatch. intros Hrep.
  destruct (_ =? READER_EVENT_NOTIFICATION _).
  { apply respects_bind; [apply _ | now apply emitsOnly_decodeParameter |].
    intros pkv. apply respects_bind; [apply _ | apply respects_orThrow; apply _ |].
    intros ps. apply respects_bind; [apply _ | |].
    - apply respects_forEach; [apply _|]. intros p _.
      now apply notificationStep_emitsOnly.
    - intros _ s. unfold sendStartROSpec.
      destruct (isReaderConfigSet s), (isStartROSpecSent s); simpl;
        repeat constructor. }
  destruct (_ =? SET_READER_CONFIG_RESPONSE _); [now apply emitsOnly_tell|].
  destruct (_ =? ADD_ROSPEC_RESPONSE _); [now apply emitsOnly_tell|].
  destruct (_ =? ENABLE_ROSPEC_RESPONSE _).
  { intros s. unfold sendStartROSpec.
    destruct (isStartROSpecSent s); simpl; repeat constructor. }
  destruct (_ =? START_ROSPEC_RESPONSE _); [now apply emitsOnly_tell|].
  destruct (_ =? RO_ACCESS_REPORT _); [discriminate Hrep|].
  destruct (_ =? KEEPALIVE _); [now apply emitsOnly_tell|].
  apply respects_ret. apply _.
Qed.

Lemma forEach_receive_idle (msgs : list LLRPMessage) (s : Session) :
  Forall (fun m => handledAsReport m = false) msgs ->
  tickQueue (after (forEach receive msgs s)) = tickQueue s.
Proof.
  intros Hall.
  assert (Hq : respects queued (forEach receive msgs)).
  { apply respects_forEach; [apply _|]. intros m _. apply queued_receive. }
  rewrite (Hq s).
  assert (Hn : respects (emitsOnly notNextTick) (forEach receive msgs)).
  { apply respects_forEach; [apply _|]. intros m Hm.
    apply respects_bind; [apply _ | now apply emitsOnly_console |]. intros _.
    apply dispatch_notNextTick. rewrite Forall_forall in Hall. now apply Hall. }
  rewrite (notNextTick_ticksOf _ (Hn s)). apply app_nil_r.
Qed.

Lemma processTicks_idle (s : Session) :
  tickQueue s = [] -> processTicks s = mkResult (Normal tt) s [].
Proof. intros Hq. unfold processTicks. now rewrite Hq. Qed.

Lemma handle_data (chunk : list byte) (msgs : list LLRPMessage) (s : Session) :
  decode_message decode chunk = Some msgs ->
  handle (Data (Some chunk)) s =
    bind (bind (tell (DecodeMessage chunk)) (fun _ => forEach receive msgs))
         (fun _ => processTicks) s.
Proof. intros Hdec. unfold handle, callback, onData. now rewrite Hdec. Qed.

(** X13 (chunks that arrive joined).  From a session with no callback
    pending, when the first of two chunks holds no tag report, it makes
    no difference to how things end, to the final session, to the socket
    writes and to the tags emitted whether the two chunks arrive one
    after the other or joined into one. *)
Theorem joined_chunks (joined first second : list byte)
    (ms1 ms2 : list LLRPMessage) (s : Session) :
  decode_message decode joined = Some (ms1 ++ ms2) ->
  decode_message decode first = Some ms1 ->
  decode_message decode second = Some ms2 ->
  Forall (fun m => handledAsReport m = false) ms1 ->
  tickQueue s = [] ->
  let r := run [Data (Some joined)] s in
  let r' := run [Data (Some first); Data (Some second)] s in
  outcome r = outcome r' /\
  after r = after r' /\
  writesOf (trace r) = writesOf (trace r') /\
  tagsOf (trace r) = tagsOf (trace r').
Proof.
  intros Hj H1 H2 Hidle Hq r r'. subst r r'.
  pose proof (forEach_receive_idle ms1 s Hidle) as Hq1. rewrite Hq in Hq1.
  assert (Hw : forall c, writesOf [DecodeMessage c] = []) by reflexivity.
  assert (Ht : forall c, tagsOf [DecodeMessage c] = []) by reflexivity.
  unfold run. cbn [forEach]. unfold bind.
  rewrite (handle_data joined _ s Hj), (handle_data first _ s H1).
  unfold bind. cbn [tell outcome after trace].
  rewrite forEach_app. unfold bind.
  destruct (outcome (forEach receive ms1 s)) as [[]|e] eqn:Ho1;
    cbn [outcome after trace ret]; [|repeat split].
  rewrite (processTicks_idle _ Hq1). cbn [outcome after trace].
  rewrite (handle_data second _ _ H2).
  unfold bind. cbn [tell outcome after trace].
  destruct (outcome (forEach receive ms2 _)) as [[]|e] eqn:Ho2;
    cbn [outcome after trace ret];
    [destruct (outcome (processTicks _)) as [[]|e]; cbn [outcome after trace ret]|];
    (split; [reflexivity|]); (split; [reflexivity|]);
    rewrite ?writesOf_app, ?tagsOf_app, ?Hw, ?Ht; cbn [app];
    rewrite ?app_nil_r, <- ?app_assoc; split; reflexivity.
Qed.

(** *** The notification handler, every decoded list *)

Lemma readable_split (ps : list Param) :
  Forall readable ps \/
  exists pre p post,
    ps = pre ++ p :: post /\ Forall readable pre /\
    type p = ReaderEventNotificationData parameterC /\
    mapSubParameters p !! ROSpecEvent parameterC = Some [].
Proof.
  induction ps as [|p ps IH]; [left; constructor|].
  destruct (decide (type p = ReaderEventNotificationData parameterC)) as [Ht|Ht].
  - destruct (mapSubParameters p !! ROSpecEvent parameterC) as [[|b event]|] eqn:He.
    + right. exists [], p, ps. repeat split; [constructor | exact Ht | exact He].
    + destruct IH as [IH|(pre & q & post & -> & Hpre & Hq & Hv)].
      * left. constructor; [|exact IH]. intros _. rewrite He. discriminate.
      * right. exists (p :: pre), q, post. repeat split; try assumption.
        constructor; [|exact Hpre]. intros _. rewrite He. discriminate.
    + destruct IH as [IH|(pre & q & post & -> & Hpre & Hq & Hv)].
      * left. constructor; [|exact IH]. intros _. rewrite He. discriminate.
      * right. exists (p :: pre), q, post. repeat split; try assumption.
        constructor; [|exact Hpre]. intros _. rewrite He. discriminate.
  - destruct IH as [IH|(pre & q & post & -> & Hpre & Hq & Hv)].
    + left. constructor; [|exact IH]. intros Hp. contradiction.
    + right. exists (p :: pre), q, post. repeat split; try assumption.
      constructor; [|exact Hpre]. intros Hp. contradiction.
Qed.

(** C3, as the code has it (reader-event dispatch).  For a reader-event
    notification whose parameter block decodes to a list [ps], the
    block is decoded and the list is walked in order.  If no event
    parameter of [ps] carries an [ROSpecEvent] value of zero bytes, the
    start flag is reset once for every event-notification parameter
    whose flattened map holds an [ROSpecEvent] value with first byte 1;
    afterwards, if [isReaderConfigSet] is false the configure command is
    written and the flag set, otherwise the start command is sent unless
    the start flag, as the resets left it, is true.  If a parameter of
    [ps] does carry such an empty value, [readUInt8(0)] raises at the
    first one, after the resets of the parameters before it, and the
    configure-or-start step is not reached: nothing is written and
    [isReaderConfigSet] keeps its value.  One of the two is the case
    for every list. *)
Theorem reader_notification_action (msg : LLRPMessage) (ps : list Param)
    (s : Session) :
  type_value msg = READER_EVENT_NOTIFICATION messageC ->
  decode_parameter decode (getParameter msg) = Some ps ->
  (Forall readable ps ->
   let s1 := if cycleEnded ps then withStartROSpecSent false s else s in
   dispatch msg s =
     mkResult (Normal tt)
       (if isReaderConfigSet s
        then if isStartROSpecSent s1 then s1 else withStartROSpecSent true s1
        else withReaderConfigSet true s1)
       (DecodeParameter (getParameter msg)
        :: replicate (length (List.filter signalsCycleEnd ps))
                     (AssignStartROSpecSent false)
        ++ (if isReaderConfigSet s
            then if isStartROSpecSent s1 then []
                 else [AssignStartROSpecSent true; Write bStartRoSpec]
            else [Write bSetReaderConfig; AssignReaderConfigSet true]))) /\
  (forall pre p post,
     ps = pre ++ p :: post ->
     Forall readable pre ->
     type p = ReaderEventNotificationData parameterC ->
     mapSubParameters p !! ROSpecEvent parameterC = Some [] ->
     let s1 := if cycleEnded pre then withStartROSpecSent false s else s in
     dispatch msg s =
       mkResult (Throw RangeError) s1
         (DecodeParameter (getParameter msg)
          :: replicate (length (List.filter signalsCycleEnd pre))
                       (AssignStartROSpecSent false)) /\
     writesOf (trace (dispatch msg s)) = [] /\
     isReaderConfigSet (after (dispatch msg s)) = isReaderConfigSet s) /\
  (Forall readable ps \/
   exists pre p post,
     ps = pre ++ p :: post /\ Forall readable pre /\
     type p = ReaderEventNotificationData parameterC /\
     mapSubParameters p !! ROSpecEvent parameterC = Some []).
Proof.
  intros Htype Hdec. split; [|split; [|apply readable_split]].
  - intros Hread s1. unfold dispatch.
    rewrite (proj2 (Z.eqb_eq _ _) Htype).
    unfold handleReaderNotification, decodeParameter, bind. simpl.
    rewrite Hdec. simpl. rewrite (forEach_notificationStep ps s Hread). simpl.
    fold s1.
    assert (Hc : isReaderConfigSet s1 = isReaderConfigSet s)
      by (unfold s1; now destruct (cycleEnded ps)).
    rewrite Hc. unfold sendStartROSpec.
    destruct (isReaderConfigSet s); simpl; [|reflexivity].
    destruct (isStartROSpecSent s1); simpl; [now rewrite app_nil_r | reflexivity].
  - intros pre p post -> Hpre Ht Hv s1.
    assert (Hd : dispatch msg s =
                 mkResult (Throw RangeError) s1
                   (DecodeParameter (getParameter msg)
                    :: replicate (length (List.filter signalsCycleEnd pre))
                                 (AssignStartROSpecSent false))).
    { assert (Hloop : forEach notificationStep (pre ++ p :: post) s
                = mkResult (Throw RangeError) s1
                    (replicate (length (List.filter signalsCycleEnd pre))
                               (AssignStartROSpecSent false) ++ [])).
      { rewrite forEach_app. unfold bind at 1.
        rewrite (forEach_notificationStep pre s Hpre). cbn [outcome after trace].
        simpl forEach. unfold bind.
        now rewrite (notificationStep_unreadable p _ Ht Hv). }
      unfold dispatch. rewrite (proj2 (Z.eqb_eq _ _) Htype).
      unfold handleReaderNotification, decodeParameter, bind. simpl.
      rewrite Hdec. simpl. rewrite Hloop. simpl. now rewrite app_nil_r. }
    split; [exact Hd|]. rewrite Hd. cbn [trace after]. split.
    + apply notWrite_writesOf. constructor; [exact I|].
      apply Forall_replicate. exact I.
    + unfold s1. now destruct (cycleEnded pre).
Qed.

(** *** The callbacks of a batch *)

Lemma receive_ticks (msg : LLRPMessage) (s : Session) :
  ticksOf (trace (receive msg s))
    = if handledAsReport msg then [ReportTick msg] else [].
Proof.
  destruct (handledAsReport msg) eqn:Hrep; [now apply receive_report_ticks|].
  apply notNextTick_ticksOf.
  assert (H : respects (emitsOnly notNextTick) (receive msg)); [|apply H].
  apply respects_bind; [apply _ | now apply emitsOnly_console |]. intros _.
  now apply dispatch_notNextTick.
Qed.

Lemma syncEvent_tagsOf t : Forall syncEvent t -> tagsOf t = [].
Proof.
  induction 1 as [|e t He _ IH]; [reflexivity|].
  destruct e as [| | | | | | | |em|]; simpl in *; try exact IH.
  destruct em; simpl in *; [exact IH | exact IH | exact IH | contradiction].
Qed.

Lemma receive_tagsOf (msg : LLRPMessage) (s : Session) :
  tagsOf (trace (receive msg s)) = [].
Proof.
  apply syncEvent_tagsOf.
  assert (H : respects (emitsOnly syncEvent) (receive msg)); [|apply H].
  apply respects_bind; [apply _ | now apply emitsOnly_console |]. intros _.
  apply dispatch_sync.
Qed.

(** What one step of a report callback logs, queues and returns does not
    depend on the session it runs in. *)
Lemma reportStep_indep (p : Param) (s1 s2 : Session) :
  outcome (reportStep p s1) = outcome (reportStep p s2) /\
  trace (reportStep p s1) = trace (reportStep p s2).
Proof.
  unfold reportStep. destruct (_ =? _); [|split; reflexivity].
  unfold bind. rewrite !makeTag_tagOf.
  destruct (tagOf p) as [tag|]; cbn [outcome after trace]; [|split; reflexivity].
  unfold console, when.
  destruct log; cbn [outcome after trace tell ret];
    destruct (tagIDTruthy (tagID tag)); split; reflexivity.
Qed.

Lemma forEach_indep {A} (f : A -> M unit) (l : list A) :
  (forall x s1 s2, outcome (f x s1) = outcome (f x s2) /\
                   trace (f x s1) = trace (f x s2)) ->
  forall s1 s2,
    outcome (forEach f l s1) = outcome (forEach f l s2) /\
    trace (forEach f l s1) = trace (forEach f l s2).
Proof.
  intros Hf. induction l as [|x l IH]; intros s1 s2; [split; reflexivity|].
  cbn [forEach]. unfold bind.
  destruct (Hf x s1 s2) as [Ho Ht]. rewrite Ho, Ht.
  destruct (outcome (f x s2)) as [[]|e]; cbn [outcome trace];
    [|split; reflexivity].
  destruct (IH (after (f x s1)) (after (f x s2))) as [Ho' Ht'].
  now rewrite Ho', Ht'.
Qed.

Lemma reportCallback_indep (msg : LLRPMessage) (s1 s2 : Session) :
  outcome (reportCallback msg s1) = outcome (reportCallback msg s2) /\
  trace (reportCallback msg s1) = trace (reportCallback msg s2).
Proof.
  unfold reportCallback, resetIsStartROSpecSent, decodeParameter, console, when.
  unfold bind. simpl.
  destruct log; simpl;
    (destruct (decode_parameter decode (getParameter msg)) as [ps|]; simpl;
     [|split; reflexivity]);
    match goal with
    | |- context [forEach reportStep ps ?a] =>
        destruct (forEach_indep reportStep ps reportStep_indep a
                    (withStartROSpecSent false s2)) as [Ho Ht];
        rewrite Ho, Ht
    end;
    destruct (outcome (forEach reportStep ps _)); simpl; split; reflexivity.
Qed.

(** A loop over the parameters of a report completes only if every
    count can be read. *)
Lemma forEach_reportStep_completes (ps : list Param) (s : Session) :
  outcome (forEach reportStep ps s) = Normal tt -> Forall countable ps.
Proof.
  revert s. induction ps as [|p ps IH]; intros s Hn; [constructor|].
  cbn [forEach] in Hn. unfold bind in Hn.
  destruct (decide (countable p)) as [Hc|Hc].
  - destruct (reportStep_observation p s Hc) as (Ho & _).
    rewrite Ho in Hn. cbn [outcome] in Hn.
    constructor; [exact Hc | exact (IH _ Hn)].
  - exfalso.
    destruct (decide (type p = TagReportData parameterC)) as [Ht|Ht];
      [|apply Hc; intros Hp; contradiction].
    destruct (tagOf p) as [tag|] eqn:Htag;
      [apply Hc; intros _; rewrite Htag; eauto|].
    rewrite (reportStep_uncountable p s Ht Htag) in Hn. discriminate Hn.
Qed.

Lemma reportCallback_completes (msg : LLRPMessage) (s : Session) :
  (Forall countable (parametersOf msg) ->
   outcome (reportCallback msg s) = Normal tt) /\
  (outcome (reportCallback msg s) = Normal tt ->
   Forall countable (parametersOf msg) /\
   after (reportCallback msg s)
     = enqueueAll (DidSeeTagTick <$> observations (parametersOf msg))
                  (withStartROSpecSent false s)).
Proof.
  destruct (reportCallback_unfold msg s) as (Uo & Ua & _).
  unfold parametersOf.
  destruct (decode_parameter decode (getParameter msg)) as [ps|];
    cbn [default] in *.
  - split.
    + intros Hc. rewrite Uo.
      now destruct (forEach_reportStep_observations ps
                      (withStartROSpecSent false s) Hc).
    + intros Hn. rewrite Uo in Hn.
      pose proof (forEach_reportStep_completes ps _ Hn) as Hc.
      split; [exact Hc|]. rewrite Ua.
      now destruct (forEach_reportStep_observations ps
                      (withStartROSpecSent false s) Hc) as (_ & Hb & _).
  - split; [intros _; rewrite Uo; reflexivity|].
    intros _. split; [constructor|]. rewrite Ua. reflexivity.
Qed.

Lemma isEmitTick_tags (tags : list Tag) : Forall isEmitTick (DidSeeTagTick <$> tags).
Proof. induction tags; constructor; [exact I | assumption]. Qed.

(** A queue of report callbacks followed by emits: the callbacks run in
    order, each adding its emits at the end of the queue, and the emits
    run after the last callback. *)
Lemma drainTicks_reports (s0 : Session) (reports : list LLRPMessage) :
  forall (tags : list Tag) (fuel : nat) (s : Session),
  tickQueue s = (ReportTick <$> reports) ++ (DidSeeTagTick <$> tags) ->
  (queueWeight (tickQueue s) <= fuel)%nat ->
  (Forall (fun msg => Forall countable (parametersOf msg)) reports ->
   outcome (drainTicks fuel s) = Normal tt) /\
  (outcome (drainTicks fuel s) = Normal tt ->
   trace (drainTicks fuel s)
     = (reports ≫= fun msg => trace (reportCallback msg s0))
       ++ (emitTag <$> tags
                       ++ (reports ≫= fun msg => observations (parametersOf msg)))).
Proof.
  induction reports as [|msg reports IH]; intros tags fuel s Hq Hw.
  - cbn in Hq. rewrite Hq, (queueWeight_emits _ (isEmitTick_tags tags)) in Hw.
    rewrite length_fmap in Hw.
    destruct (drainTicks_emits tags fuel s Hq Hw) as (Ho & _ & _ & _ & Ht).
    split; [intros _; exact Ho|]. intros _. cbn. now rewrite app_nil_r.
  - cbn [fmap list_fmap app] in Hq.
    destruct fuel as [|fuel].
    { rewrite Hq in Hw. unfold queueWeight in Hw. simpl in Hw. lia. }
    destruct (drainTicks_pop fuel s _ _ Hq) as (Ea & _ & Ec).
    rewrite Ea, Ec. clear Ea Ec.
    set (rest := (ReportTick <$> reports) ++ (DidSeeTagTick <$> tags)) in *.
    set (s1 := withTickQueue rest s).
    cbn [runTick]. unfold bind.
    destruct (reportCallback_completes msg s1) as [Hgo Hdone].
    destruct (reportCallback_indep msg s1 s0) as [_ Htr].
    assert (Hnext : outcome (reportCallback msg s1) = Normal tt ->
              tickQueue (after (reportCallback msg s1))
                = (ReportTick <$> reports)
                  ++ (DidSeeTagTick <$> tags ++ observations (parametersOf msg)) /\
              (queueWeight (tickQueue (after (reportCallback msg s1))) <= fuel)%nat).
    { intros Hn. destruct (Hdone Hn) as [_ Hafter].
      assert (Hqa : tickQueue (after (reportCallback msg s1))
                = (ReportTick <$> reports)
                  ++ (DidSeeTagTick <$> tags ++ observations (parametersOf msg))).
      { rewrite Hafter.
        destruct (enqueueAll_fields
                    (DidSeeTagTick <$> observations (parametersOf msg))
                    (withStartROSpecSent false s1)) as (_ & _ & Hq').
        rewrite Hq'. cbn [tickQueue withStartROSpecSent]. unfold s1.
        cbn [tickQueue withTickQueue]. unfold rest.
        now rewrite fmap_app, app_assoc. }
      split; [exact Hqa|]. rewrite Hqa.
      rewrite Hq in Hw. change (ReportTick msg :: rest) with ([ReportTick msg] ++ rest) in Hw.
      rewrite queueWeight_app in Hw. unfold rest in Hw.
      rewrite !queueWeight_app in *.
      rewrite (queueWeight_emits _ (isEmitTick_tags _)) in *.
      rewrite (queueWeight_emits _ (isEmitTick_tags tags)) in Hw.
      rewrite !length_fmap in *. rewrite length_app.
      pose proof (observations_length (parametersOf msg)).
      unfold queueWeight at 1 in Hw. simpl in Hw. unfold parametersOf in *. lia. }
    split.
    + intros Hall. apply Forall_cons in Hall as [Hmsg Hall].
      pose proof (Hgo Hmsg) as Hn. rewrite Hn. cbn [outcome].
      destruct (Hnext Hn) as [Hqa Hwa].
      exact (proj1 (IH _ fuel _ Hqa Hwa) Hall).
    + destruct (outcome (reportCallback msg s1)) as [[]|e] eqn:Hn;
        cbn [outcome trace]; [|discriminate].
      intros Hn'. destruct (Hnext eq_refl) as [Hqa Hwa].
      rewrite (proj2 (IH _ fuel _ Hqa Hwa) Hn'), Htr.
      cbn [mbind list_bind]. now rewrite <- !app_assoc.
Qed.

(** C5, as the code has it (batch ordering).  For a chunk decoding to
    [A; B; C] whose three handlers complete: the trace of the delivery
    is the decode, then what handling [A], [B] and [C] does, in that
    order and each from the state the one before left, then the queued
    callbacks; the socket writes are those of [A], [B], [C] in order,
    the callbacks adding none.  [handleROAccessReport] is the
    exception: it only queues its callback, so that after [C] the queue
    holds, behind what was pending, one callback for each tag report of
    the batch, in batch order.  From an empty queue these callbacks then
    run, after the whole batch and in that order: each resets the start
    flag, decodes the parameters of its report and queues the emits of
    its tags; the emits run after the last callback, in the order of
    the reports and of their parameters.  The callbacks complete when
    every count of the reports can be read; a delivery that completes
    with a tag report in the batch leaves the start flag false, whatever
    [B] and [C] did to it, and leaves the queue empty for the next
    socket event. *)
Theorem batch_order (chunk : list byte) (A B C : LLRPMessage) (s : Session) :
  decode_message decode chunk = Some [A; B; C] ->
  let rA := receive A s in
  let rB := receive B (after rA) in
  let rC := receive C (after rB) in
  outcome rA = Normal tt -> outcome rB = Normal tt -> outcome rC = Normal tt ->
  let r := handle (Data (Some chunk)) s in
  let reports := List.filter handledAsReport [A; B; C] in
  let tags := reports ≫= (fun msg => observations (parametersOf msg)) in
  trace r = DecodeMessage chunk
            :: trace rA ++ trace rB ++ trace rC ++ trace (processTicks (after rC)) /\
  writesOf (trace r) = writesOf (trace rA) ++ writesOf (trace rB) ++ writesOf (trace rC) /\
  (forall msg s0,
     handleROAccessReport msg s0 =
       mkResult (Normal tt) (enqueue (ReportTick msg) s0) [NextTick (ReportTick msg)]) /\
  ticksOf (trace rA) ++ ticksOf (trace rB) ++ ticksOf (trace rC)
    = ReportTick <$> reports /\
  tickQueue (after rC) = tickQueue s ++ (ReportTick <$> reports) /\
  (forall msg s0, exists rest,
     trace (runTick (ReportTick msg) s0) = AssignStartROSpecSent false :: rest) /\
  (tickQueue s = [] ->
   (Forall (fun msg => Forall countable (parametersOf msg)) reports ->
    outcome r = Normal tt) /\
   (outcome r = Normal tt ->
    trace (processTicks (after rC))
      = (reports ≫= fun msg => trace (reportCallback msg s))
        ++ (emitTag <$> tags) /\
    tagsOf (trace r) = tags)) /\
  (outcome r = Normal tt -> reports <> [] ->
   isStartROSpecSent (after r) = false) /\
  (outcome r = Normal tt -> tickQueue (after r) = []).
Proof.
  intros Hdec rA rB rC HA HB HC r reports tags.
  assert (Hr : outcome r = outcome (processTicks (after rC)) /\
               after r = after (processTicks (after rC)) /\
               trace r = DecodeMessage chunk :: trace rA ++ trace rB ++ trace rC
                         ++ trace (processTicks (after rC))).
  { unfold r, handle, callback, onData. rewrite Hdec. simpl.
    unfold bind. simpl. fold rA. rewrite HA. simpl. fold rB. rewrite HB. simpl.
    fold rC. rewrite HC. simpl. rewrite app_nil_r.
    now rewrite <- !app_assoc. }
  destruct Hr as (Hro & Hra & Hrt).
  assert (Hticks : ticksOf (trace rA) ++ ticksOf (trace rB) ++ ticksOf (trace rC)
                   = ReportTick <$> reports).
  { unfold rA, rB, rC, reports. rewrite !receive_ticks. cbn [List.filter].
    destruct (handledAsReport A), (handledAsReport B), (handledAsReport C);
      reflexivity. }
  assert (Hqueue : tickQueue (after rC) = tickQueue s ++ (ReportTick <$> reports)).
  { rewrite <- Hticks. unfold rC. rewrite (queued_receive C (after rB)). unfold rB.
    rewrite (queued_receive B (after rA)). unfold rA.
    rewrite (queued_receive A s). now rewrite <- !app_assoc. }
  split; [exact Hrt|]. split.
  { rewrite Hrt. simpl. rewrite !writesOf_app, processTicks_writes.
    now rewrite app_nil_r. }
  split; [reflexivity|]. split; [exact Hticks|]. split; [exact Hqueue|].
  split.
  { intros msg s0. simpl. unfold reportCallback, resetIsStartROSpecSent.
    unfold bind at 1. simpl. eauto. }
  split; [|split].
  - intros Hidle. rewrite Hidle in Hqueue. cbn [app] in Hqueue.
    assert (Hq' : tickQueue (after rC) = (ReportTick <$> reports)
                                         ++ (DidSeeTagTick <$> []))
      by (cbn [fmap list_fmap]; now rewrite app_nil_r).
    destruct (drainTicks_reports s reports [] _ (after rC) Hq' (le_n _))
      as [Hgo Hdone].
    fold (processTicks (after rC)) in Hgo, Hdone.
    split; [intros Hall; rewrite Hro; exact (Hgo Hall)|].
    intros Hn. rewrite Hro in Hn. pose proof (Hdone Hn) as Ht.
    cbn [app] in Ht. fold tags in Ht. split; [exact Ht|].
    rewrite Hrt, Ht.
    match goal with |- tagsOf (_ :: ?t) = _ => change (tagsOf t = tags) end.
    rewrite !tagsOf_app, tagsOf_emitTag.
    unfold rA, rB, rC. rewrite !receive_tagsOf. cbn [app].
    assert (Hnone : forall l : list LLRPMessage,
              tagsOf (l ≫= fun msg => trace (reportCallback msg s)) = []).
    { induction l as [|m l IH]; [reflexivity|]. cbn [mbind list_bind].
      now rewrite tagsOf_app, reportCallback_tagsOf, IH. }
    now rewrite Hnone.
  - intros Hn Hsome. rewrite Hro in Hn. rewrite Hra.
    unfold processTicks in Hn |- *. rewrite drainTicks_start; [|lia|exact Hn].
    rewrite Hqueue, existsb_app.
    destruct reports as [|m l]; [contradiction|]. cbn. now rewrite orb_true_r.
  - intros Hn. rewrite Hro in Hn. rewrite Hra. now apply processTicks_empties.
Qed.

(** *** What ends a run *)

Lemma raisesOnly_ret P {A} (a : A) : raisesOnly P (ret a).
Proof. intros s e H. discriminate H. Qed.

Lemma raisesOnly_tell P e0 : raisesOnly P (tell e0).
Proof. intros s e H. discriminate H. Qed.

Lemma raisesOnly_throw (P : JSError -> Prop) {A} e0 : P e0 -> raisesOnly P (@throw A e0).
Proof. intros H0 s e H. inversion H. now subst. Qed.

Lemma raisesOnly_bind P {A B} (m : M A) (f : A -> M B) :
  raisesOnly P m -> (forall a, raisesOnly P (f a)) -> raisesOnly P (bind m f).
Proof.
  intros Hm Hf s e. unfold bind.
  destruct (outcome (m s)) as [a|e0] eqn:Ho; cbn [outcome].
  - apply Hf.
  - intros H. inversion H. subst. eapply Hm, Ho.
Qed.

Lemma raisesOnly_forEach P {A} (f : A -> M unit) (l : list A) :
  (forall x, raisesOnly P (f x)) -> raisesOnly P (forEach f l).
Proof.
  intros Hf. induction l as [|x l IH]; [apply raisesOnly_ret|].
  apply raisesOnly_bind; [apply Hf | intros _; exact IH].
Qed.

Lemma raisesOnly_console P line : raisesOnly P (console line).
Proof.
  unfold console, when. destruct log; [apply raisesOnly_tell | apply raisesOnly_ret].
Qed.

Lemma raisesOnly_weaken (P Q : JSError -> Prop) {A} (m : M A) :
  (forall e, P e -> Q e) -> raisesOnly P m -> raisesOnly Q m.
Proof. intros H Hm s e He. apply H. eapply Hm, He. Qed.

Lemma sendStartROSpec_raises P : raisesOnly P sendStartROSpec.
Proof.
  intros s e. unfold sendStartROSpec.
  destruct (isStartROSpecSent s); simpl; discriminate.
Qed.

Lemma dispatch_raises msg : raisesOnly readError (dispatch msg).
Proof.
  unfold dispatch.
  destruct (_ =? READER_EVENT_NOTIFICATION _).
  { apply raisesOnly_bind.
    { apply raisesOnly_bind; [apply raisesOnly_tell | intros _; apply raisesOnly_ret]. }
    intros pkv. apply raisesOnly_bind.
    { destruct pkv; [apply raisesOnly_ret | apply raisesOnly_throw; now left]. }
    intros ps. apply raisesOnly_bind.
    - apply raisesOnly_forEach. intros p s e He. right.
      exact (notificationStep_throw p s e He).
    - intros _ s e. unfold sendStartROSpec.
      destruct (isReaderConfigSet s), (isStartROSpecSent s); simpl; discriminate. }
  destruct (_ =? SET_READER_CONFIG_RESPONSE _); [apply raisesOnly_tell|].
  destruct (_ =? ADD_ROSPEC_RESPONSE _); [apply raisesOnly_tell|].
  destruct (_ =? ENABLE_ROSPEC_RESPONSE _); [apply sendStartROSpec_raises|].
  destruct (_ =? START_ROSPEC_RESPONSE _); [apply raisesOnly_tell|].
  destruct (_ =? RO_ACCESS_REPORT _); [intros s e H; discriminate H|].
  destruct (_ =? KEEPALIVE _); [apply raisesOnly_tell | apply raisesOnly_ret].
Qed.

Lemma runTick_raises t : raisesOnly readError (runTick t).
Proof.
  destruct t as [msg|tag]; [|apply raisesOnly_tell].
  cbn [runTick]. unfold reportCallback.
  apply raisesOnly_bind; [intros s e H; discriminate H | intros _].
  apply raisesOnly_bind; [apply raisesOnly_console | intros _].
  apply raisesOnly_bind.
  { apply raisesOnly_bind; [apply raisesOnly_tell | intros _; apply raisesOnly_ret]. }
  intros [ps|]; [|apply raisesOnly_ret].
  apply raisesOnly_forEach. intros p s e He. right.
  exact (reportStep_throw p s e He).
Qed.

Lemma drainTicks_raises fuel : raisesOnly readError (drainTicks fuel).
Proof.
  induction fuel as [|fuel IH]; [apply raisesOnly_ret|].
  cbn [drainTicks]. apply raisesOnly_bind.
  - intros s e. unfold popTick. destruct (tickQueue s); discriminate.
  - intros [t|]; [|apply raisesOnly_ret].
    apply raisesOnly_bind; [apply runTick_raises | intros _; exact IH].
Qed.

Lemma handle_raises ev : raisesOnly (unheardIn ev) (handle ev).
Proof.
  assert (Hread : forall e, readError e -> unheardIn ev e).
  { intros e [->| ->] err H; discriminate H. }
  apply raisesOnly_bind.
  - destruct ev as [| |[chunk|]| |err heard]; cbn [callback].
    + apply raisesOnly_console.
    + apply raisesOnly_bind; [apply raisesOnly_console | intros _; apply raisesOnly_tell].
    + apply (raisesOnly_weaken readError); [exact Hread|].
      apply raisesOnly_bind; [apply raisesOnly_tell | intros _].
      apply raisesOnly_forEach. intros msg.
      apply raisesOnly_bind; [apply raisesOnly_console | intros _; apply dispatch_raises].
    + apply raisesOnly_console.
    + apply raisesOnly_bind; [apply raisesOnly_console | intros _; apply raisesOnly_tell].
    + apply raisesOnly_bind; [apply raisesOnly_console | intros _].
      apply raisesOnly_bind; [apply raisesOnly_tell | intros _].
      destruct heard; [apply raisesOnly_ret|].
      apply raisesOnly_throw. intros err0 H. now inversion H.
  - intros _. apply (raisesOnly_weaken readError); [exact Hread|].
    intros s. apply drainTicks_raises.
Qed.

Lemma run_empties (evs : list SocketEvent) (s : Session) :
  tickQueue s = [] ->
  outcome (run evs s) = Normal tt ->
  tickQueue (after (run evs s)) = [].
Proof.
  revert s. induction evs as [|ev evs IH]; intros s Hq Hn; [exact Hq|].
  rewrite run_cons in Hn |- *. unfold bind in Hn |- *.
  destruct (outcome (handle ev s)) as [[]|e] eqn:Ho; cbn [outcome after] in Hn |- *;
    [|discriminate].
  apply IH; [exact (handle_empties ev s Ho) | exact Hn].
Qed.

Lemma handle_error (err : string) (heard : bool) (s : Session) :
  tickQueue s = [] ->
  handle (Errored err heard) s =
    mkResult (if heard then Normal tt else Throw (Unhandled err)) s
             (logged (LogError err) ++ [Emit (EmitError err)]).
Proof.
  intros Hq. destruct s as [c st q]. simpl in Hq. subst q.
  unfold handle, callback, onError, emitError, emit, console, when, logged,
         processTicks, bind.
  destruct log, heard; reflexivity.
Qed.

(** X14 (an error event).  In a run that has completed so far, from a
    session with no callback pending: when the socket reports an error
    and no listener is registered for ['error'], [onError] logs, calls
    [emit] and the emitter throws the error back; the run ends there,
    with the session as the events before left it, and no later event
    is handled.  With a listener registered the handler returns, and
    the run goes on as if the error event had not been there: same end,
    same final session, same socket writes, same tags, same calls into
    the decoder.  A run ends with an error thrown back by the emitter
    only if such an error event was among its events. *)
Theorem unheard_error_ends_run (before rest : list SocketEvent) (err : string)
    (s : Session) :
  tickQueue s = [] ->
  outcome (run before s) = Normal tt ->
  let r0 := run before s in
  let r := run (before ++ Errored err false :: rest) s in
  let r' := run (before ++ Errored err true :: rest) s in
  let r'' := run (before ++ rest) s in
  (outcome r = Throw (Unhandled err) /\
   after r = after r0 /\
   trace r = trace r0 ++ logged (LogError err) ++ [Emit (EmitError err)]) /\
  (outcome r' = outcome r'' /\
   after r' = after r'' /\
   writesOf (trace r') = writesOf (trace r'') /\
   tagsOf (trace r') = tagsOf (trace r'') /\
   decodesOf (trace r') = decodesOf (trace r'')) /\
  (forall evs s0 err0,
     outcome (run evs s0) = Throw (Unhandled err0) -> Errored err0 false ∈ evs).
Proof.
  intros Hq Hn r0 r r' r''. subst r0 r r' r''.
  pose proof (run_empties before s Hq Hn) as Hq1.
  unfold run in *. rewrite !forEach_app.
  rewrite !(bind_returns (forEach handle before) _ s tt Hn).
  cbn [outcome after trace forEach]. unfold bind.
  rewrite !(handle_error err _ _ Hq1). cbn [outcome after trace].
  split; [repeat split|]. split.
  - rewrite !writesOf_app, !tagsOf_app, !decodesOf_app.
    assert (Hw : writesOf (logged (LogError err)) = []
                 /\ tagsOf (logged (LogError err)) = []
                 /\ decodesOf (logged (LogError err)) = [])
      by (unfold logged; destruct log; repeat split).
    destruct Hw as (Hw1 & Hw2 & Hw3). rewrite Hw1, Hw2, Hw3. cbn [app].
    destruct (outcome (forEach handle rest _)); cbn [outcome after trace];
      repeat split.
  - clear. intros evs. induction evs as [|ev evs IH]; intros s0 err0 H;
      [discriminate H|].
    cbn [forEach] in H. unfold bind in H.
    destruct (outcome (handle ev s0)) as [[]|e] eqn:Ho; cbn [outcome] in H.
    + right. exact (IH _ _ H).
    + inversion H. subst e.
      rewrite (handle_raises ev s0 _ Ho err0 eq_refl). left.
Qed.

End Properties.

(** ** The configuration object *)

Lemma agreeOn_property names c1 c2 name :
  agreeOn names c1 c2 -> name ∈ names -> property c1 name = property c2 name.
Proof. intros H Hin. unfold property. now rewrite (H name Hin). Qed.

(** C9, as the code has it (configuration surface).  What a client does
    on any sequence of socket events is determined by five properties of
    its configuration object: [ipaddress], [port], [log],
    [isReaderConfigSet] and [isStartROSpecSent].  Two configuration
    objects that agree on these five give the same outcome, the same
    final session and the same trace, whatever else they hold. *)
Theorem configuration_surface (mC : MessageConstants) (pC : ParameterConstants)
    (dec : Decoder) (c1 c2 : gmap string JSValue) :
  agreeOn configurationFields c1 c2 ->
  forall evs, behaviour mC pC dec c1 evs = behaviour mC pC dec c2 evs.
Proof.
  intros H evs.
  unfold behaviour, closure, ipaddressOf, portOf, logOf, initialSession.
  rewrite (agreeOn_property _ _ _ "ipaddress" H) by (repeat constructor).
  rewrite (agreeOn_property _ _ _ "port" H) by (repeat constructor).
  rewrite (agreeOn_property _ _ _ "log" H) by (repeat constructor).
  rewrite (agreeOn_property _ _ _ "isReaderConfigSet" H) by (repeat constructor).
  rewrite (agreeOn_property _ _ _ "isStartROSpecSent" H) by (repeat constructor).
  reflexivity.
Qed.

(** ** Evaluation on concrete inputs *)

(** Two configuration objects that agree on address, port and logging
    flag and differ in [isReaderConfigSet]: on the first reader-event
    notification one client writes the configure command, the other the
    start command. *)
Lemma configuration_surface_counterexample :
  let c1 : gmap string JSValue := ∅ in
  let c2 : gmap string JSValue := {[ "isReaderConfigSet" := JSBool true ]} in
  let dec := fixedDecoder [messageOfType 63] [] in
  let evs := [Data (Some [])] in
  agreeOn ["ipaddress"; "port"; "log"] c1 c2 /\
  writesOf (trace (behaviour llrpMessageC llrpParameterC dec c1 evs))
    = [bSetReaderConfig] /\
  writesOf (trace (behaviour llrpMessageC llrpParameterC dec c2 evs))
    = [bStartRoSpec] /\
  behaviour llrpMessageC llrpParameterC dec c1 evs
    <> behaviour llrpMessageC llrpParameterC dec c2 evs.
Proof.
  intros c1 c2 dec evs. split; [|split; [|split]].
  - intros name Hin.
    repeat (apply elem_of_cons in Hin as [->|Hin]; [reflexivity|]).
    now apply elem_of_nil in Hin.
  - reflexivity.
  - reflexivity.
  - intros Heq. apply (f_equal (fun r => writesOf (trace r))) in Heq.
    discriminate Heq.
Qed.

(** A configuration object with a property the code never reads. *)
Lemma configuration_surface_witness :
  let c1 : gmap string JSValue := {[ "retries" := JSNumber 3 ]} in
  let c2 : gmap string JSValue := ∅ in
  let dec := fixedDecoder [messageOfType 63] [] in
  agreeOn configurationFields c1 c2 /\
  behaviour llrpMessageC llrpParameterC dec c1 [Data (Some [])]
    = behaviour llrpMessageC llrpParameterC dec c2 [Data (Some [])].
Proof.
  intros c1 c2 dec.
  assert (H : agreeOn configurationFields c1 c2).
  { intros name Hin.
    repeat (apply elem_of_cons in Hin as [->|Hin]; [reflexivity|]).
    now apply elem_of_nil in Hin. }
  split; [exact H|].
  exact (configuration_surface llrpMessageC llrpParameterC dec c1 c2 H
           [Data (Some [])]).
Defined.

(** A chunk of length zero reaches the decoder. *)
Lemma absent_data_dropped_counterexample :
  let e := llrpEnv (fixedDecoder [] []) ∅ in
  decodesOf (trace (onData (env := e) (Some []) (initialSession ∅)))
    = [DecodeMessage []] /\
  decodesOf (trace (onData (env := e) (Some []) (initialSession ∅))) <> [].
Proof. intros e. split; [reflexivity | discriminate]. Qed.

(** One chunk carrying a tag report, from a fresh session with the
    default configuration: the reset it causes is accounted for. *)
Lemma start_deduplication_witness :
  let evs := [Data (Some [])] in
  let e := llrpEnv (fixedDecoder [messageOfType 61] []) ∅ in
  let s := initialSession ∅ in
  tickQueue s = [] /\
  AssignStartROSpecSent false ∈ trace (run (env := e) evs s) /\
  exists msg, received (env := e) evs msg /\
              (tagReport (env := e) msg \/ cycleEndNotification (env := e) msg).
Proof.
  intros evs e s.
  assert (Hq : tickQueue s = []) by reflexivity.
  assert (Hin : AssignStartROSpecSent false ∈ trace (run (env := e) evs s)).
  { vm_compute. repeat constructor. }
  split; [exact Hq|]. split; [exact Hin|].
  exact (proj2 (proj2 (proj2 (proj2
    (@start_deduplication e evs s)))) Hq Hin).
Defined.

(** A session configured with [isReaderConfigSet: true] receives two
    reader-event notifications. *)
Lemma configuration_sent_once_witness :
  let evs := [Data (Some []); Data (Some [])] in
  let cfg : gmap string JSValue := {[ "isReaderConfigSet" := JSBool true ]} in
  let e := llrpEnv (fixedDecoder [messageOfType 63] []) cfg in
  let s := initialSession cfg in
  isReaderConfigSet s = true /\
  isReaderConfigSet (after (run (env := e) evs s)) = true /\
  countWhere isConfigWrite (trace (run (env := e) evs s)) = O /\
  countWhere isConfigAssign (trace (run (env := e) evs s)) = O.
Proof.
  intros evs cfg e s.
  assert (Hset : isReaderConfigSet s = true) by reflexivity.
  split; [exact Hset|].
  exact (proj2 (proj2 (proj2 (@configuration_sent_once e evs s))) Hset).
Defined.

(** The identifier [AABBCCDDEEFF] with the count [0002], and the whole
    path of a tag report carrying them, from the chunk to the event. *)
Lemma tag_extraction_witness :
  let p := mkParam 240 []
             [mkParam 13 [xaa; xbb; xcc; xdd; xee; xff] [];
              mkParam 8 [x00; x02] []] in
  let e := llrpEnv (fixedDecoder [messageOfType 61] [p]) ∅ in
  let s := initialSession ∅ in
  makeTag (env := e) (mapSubParameters p) s =
    mkResult (Normal {| tagID := Some "aabbccddeeff"; tagSeenCount := 2 |}) s [] /\
  ticksOf (trace (reportStep (env := e) p s)) =
    [DidSeeTagTick {| tagID := Some "aabbccddeeff"; tagSeenCount := 2 |}] /\
  emitsOf (trace (handle (env := e) (Data (Some [])) s)) =
    [EmitDidSeeTag {| tagID := Some "aabbccddeeff"; tagSeenCount := 2 |}].
Proof.
  intros p e s.
  destruct (@tag_extraction e p s [xaa; xbb; xcc; xdd; xee; xff] x00 x02 [])
    as (Hmade & _ & _ & Hpub); [reflexivity | reflexivity | reflexivity |].
  split; [exact Hmade|].
  destruct Hpub as (_ & _ & Hticks & _); [discriminate|].
  split; [exact Hticks | reflexivity].
Defined.

(** An [undefined] chunk, with logging on. *)
Lemma absent_data_dropped_witness :
  let cfg : gmap string JSValue := {[ "log" := JSBool true ]} in
  let e := llrpEnv (fixedDecoder [messageOfType 62] []) cfg in
  let s := initialSession cfg in
  tickQueue s = [] /\
  handle (env := e) (Data None) s =
    mkResult (Normal tt) s [ConsoleLog LogUndefinedData].
Proof.
  intros cfg e s.
  assert (Hq : tickQueue s = []) by reflexivity.
  split; [exact Hq|].
  exact (proj1 (proj2 (proj2 (proj2 (proj2 (proj2
    (@absent_data_dropped e s)))))) Hq).
Defined.

(** A tag-report-data parameter with an identifier and no count. *)
Lemma missing_field_defaults_witness :
  let p := mkParam 240 [] [mkParam 13 [x30; x08] []] in
  let e := llrpEnv (fixedDecoder [] [p]) ∅ in
  let s := initialSession ∅ in
  type p = TagReportData (parameterC (Env := e)) /\
  mapSubParameters p !! TagSeenCount (parameterC (Env := e)) = None /\
  makeTag (env := e) (mapSubParameters p) s =
    mkResult (Normal {| tagID := Some "3008"; tagSeenCount := 0 |}) s [].
Proof.
  intros p e s.
  assert (H1 : type p = TagReportData (parameterC (Env := e))) by reflexivity.
  assert (H2 : mapSubParameters p !! TagSeenCount (parameterC (Env := e)) = None)
    by reflexivity.
  split; [exact H1|]. split; [exact H2|].
  exact (proj1 (proj1 (@missing_field_defaults e p s H1) H2)).
Defined.

(** Two sub-parameters of type 13: the later value is the one kept. *)
Lemma mapSubParameters_last_wins_witness :
  let first := mkParam 13 [x01] [] in
  let count := mkParam 8 [x00; x07] [] in
  let second := mkParam 13 [x02] [] in
  let params := mkParam 240 [] [first; count; second] in
  subParameters params = [first; count] ++ second :: [] /\
  mapSubParameters params !! 13 = Some [x02].
Proof.
  intros first count second params.
  assert (H : subParameters params = [first; count] ++ second :: [])
    by reflexivity.
  split; [exact H|].
  refine (proj1 (mapSubParameters_last_wins params) [first; count] second [] H _).
  intros q Hq. now apply elem_of_nil in Hq.
Defined.

(** An identifier sub-parameter of zero bytes, with a count. *)
Lemma empty_identifier_suppressed_witness :
  let p := mkParam 240 [] [mkParam 13 [] []; mkParam 8 [x00; x05] []] in
  let e := llrpEnv (fixedDecoder [] [p]) ∅ in
  let s := initialSession ∅ in
  type p = TagReportData (parameterC (Env := e)) /\
  mapSubParameters p !! EPC96 (parameterC (Env := e)) = Some [] /\
  after (reportStep (env := e) p s) = s /\
  ticksOf (trace (reportStep (env := e) p s)) = [] /\
  emitsOf (trace (reportStep (env := e) p s)) = [].
Proof.
  intros p e s.
  assert (H1 : type p = TagReportData (parameterC (Env := e))) by reflexivity.
  assert (H2 : mapSubParameters p !! EPC96 (parameterC (Env := e)) = Some [])
    by reflexivity.
  split; [exact H1|]. split; [exact H2|].
  exact (proj2 (@empty_identifier_suppressed e p s H1 H2)).
Defined.

(** A connect, a notification, a timeout and a disconnect. *)
Lemma lifecycle_events_transparent_witness :
  let e := llrpEnv (fixedDecoder [messageOfType 63] []) ∅ in
  let s := initialSession ∅ in
  tickQueue s = [] /\
  writesOf (trace (run (env := e) [Connected; Data (Some []); TimedOut; Ended] s))
    = writesOf (trace (run (env := e) [Data (Some [])] s)).
Proof.
  intros e s. assert (Hq : tickQueue s = []) by reflexivity.
  split; [exact Hq|].
  exact (proj1 (proj2 (proj2 (proj2
    (@lifecycle_events_transparent e
       [Connected; Data (Some []); TimedOut; Ended] s Hq))))).
Defined.

(** A report with three tag-report-data parameters: identifier and
    count, identifier only, count only. *)
Lemma tag_report_publication_witness :
  let p1 := mkParam 240 [] [mkParam 13 [xaa; xbb] []; mkParam 8 [x00; x02] []] in
  let p2 := mkParam 240 [] [mkParam 13 [xcc] []] in
  let p3 := mkParam 240 [] [mkParam 8 [x00; x09] []] in
  let msg := messageOfType 61 in
  let e := llrpEnv (fixedDecoder [msg] [p1; p2; p3]) ∅ in
  let s := initialSession ∅ in
  Forall (countable (env := e)) [p1; p2; p3] /\
  tagsOf (trace (handle (env := e) (Data (Some [])) s))
    = [ {| tagID := Some "aabb"; tagSeenCount := 2 |};
        {| tagID := Some "cc"; tagSeenCount := 0 |} ].
Proof.
  intros p1 p2 p3 msg e s.
  assert (Hc : Forall (countable (env := e)) [p1; p2; p3]).
  { repeat constructor; intros _; eexists; reflexivity. }
  split; [exact Hc|].
  exact (proj1 (proj2
    (@tag_report_publication e [] msg [p1; p2; p3] s
       eq_refl eq_refl eq_refl Hc eq_refl))).
Defined.

(** A report whose second parameter has a count of one byte. *)
Lemma short_count_loses_report_witness :
  let p1 := mkParam 240 [] [mkParam 13 [xaa; xbb] []; mkParam 8 [x00; x02] []] in
  let bad := mkParam 240 [] [mkParam 13 [xcc] []; mkParam 8 [x01] []] in
  let msg := messageOfType 61 in
  let e := llrpEnv (fixedDecoder [msg] [p1; bad; p1]) ∅ in
  let s := initialSession ∅ in
  Forall (countable (env := e)) [p1] /\
  outcome (handle (env := e) (Data (Some [])) s) = Throw RangeError /\
  tagsOf (trace (handle (env := e) (Data (Some [])) s)) = [].
Proof.
  intros p1 bad msg e s.
  assert (Hc : Forall (countable (env := e)) [p1]).
  { repeat constructor; intros _; eexists; reflexivity. }
  split; [exact Hc|].
  destruct (@short_count_loses_report e [] msg [p1] [p1] bad [x01] s
              eq_refl eq_refl eq_refl Hc eq_refl eq_refl)
    as (Ha & Hb & _); [simpl; lia | reflexivity |].
  split; [exact Ha | exact Hb].
Defined.

(** A notification and a decoder that answers [undefined]. *)
Lemma notification_failures_witness :
  let e := llrpEnv undefinedDecoder ∅ in
  let msg := messageOfType 63 in
  let s := initialSession ∅ in
  decode_parameter (decode (Env := e)) (getParameter msg) = None /\
  handleReaderNotification (env := e) msg s
    = mkResult (Throw TypeError) s [DecodeParameter []].
Proof.
  intros e msg s.
  assert (H : decode_parameter (decode (Env := e)) (getParameter msg) = None)
    by reflexivity.
  split; [exact H|].
  exact (proj1 (proj1 (@notification_failures e msg s) H)).
Defined.

(** A tag report and an enable-rospec response in one chunk, from a
    fresh session: the start command is written and the flag ends false. *)
Lemma report_delivery_clears_start_witness :
  let msgs := [messageOfType 61; messageOfType 34] in
  let e := llrpEnv (fixedDecoder msgs []) ∅ in
  let s := initialSession ∅ in
  writesOf (trace (handle (env := e) (Data (Some [])) s)) = [bStartRoSpec] /\
  outcome (handle (env := e) (Data (Some [])) s) = Normal tt /\
  isStartROSpecSent (after (handle (env := e) (Data (Some [])) s)) = false.
Proof.
  intros msgs e s. split; [reflexivity|].
  assert (Hn : outcome (handle (env := e) (Data (Some [])) s) = Normal tt)
    by reflexivity.
  split; [exact Hn|].
  refine (@report_delivery_clears_start e [] msgs (messageOfType 61) s
            eq_refl _ eq_refl Hn).
  repeat constructor.
Defined.

(** The tag of a report carrying the identifier [AABB] and the count
    [0002]. *)
Lemma emitted_tags_well_formed_witness :
  let p := mkParam 240 [] [mkParam 13 [xaa; xbb] []; mkParam 8 [x00; x02] []] in
  let e := llrpEnv (fixedDecoder [messageOfType 61] [p]) ∅ in
  let s := initialSession ∅ in
  let tag := {| tagID := Some "aabb"; tagSeenCount := 2 |} in
  tickQueue s = [] /\
  tag ∈ tagsOf (trace (run (env := e) [Data (Some [])] s)) /\
  tagIDTruthy (tagID tag) = true /\
  0 <= tagSeenCount tag < 65536.
Proof.
  intros p e s tag.
  assert (Hq : tickQueue s = []) by reflexivity.
  assert (Hin : tag ∈ tagsOf (trace (run (env := e) [Data (Some [])] s))).
  { vm_compute. repeat constructor. }
  split; [exact Hq|]. split; [exact Hin|].
  exact (proj2 (@emitted_tags_well_formed e [Data (Some [])] s tag Hq Hin)).
Defined.

(** The exchange with the type codes of LLRP. *)
Lemma handshake_sequence_witness :
  let e := llrpEnv (fixedDecoder [] []) ∅ in
  let s := initialSession ∅ in
  handshakeCodesDistinct (env := e) /\
  writesOf (trace (forEach (receive (env := e))
                     [messageOfType 63; messageOfType 13; messageOfType 30;
                      messageOfType 34; messageOfType 32] s))
    = [bSetReaderConfig; bAddRoSpec; bEnableRoSpec; bStartRoSpec;
       bEnableEventsAndReport].
Proof.
  intros e s.
  assert (Hd : handshakeCodesDistinct (env := e)).
  { unfold handshakeCodesDistinct. simpl.
    rewrite !NoDup_cons, !not_elem_of_cons.
    repeat split; try discriminate; try apply not_elem_of_nil.
    apply NoDup_nil_2. }
  split; [exact Hd|].
  refine (proj1 (proj2
    (@handshake_sequence e (messageOfType 63) (messageOfType 13)
       (messageOfType 30) (messageOfType 34) (messageOfType 32) [] s
       Hd eq_refl eq_refl eq_refl eq_refl eq_refl eq_refl _ eq_refl eq_refl))).
  constructor.
Defined.

(** The literal of the configure command. *)
Lemma hex_round_trip_witness :
  hexPairs "040300000010000000000000e2000580" = true /\
  toStringHex bSetReaderConfig = "040300000010000000000000e2000580"%string.
Proof.
  assert (H : hexPairs "040300000010000000000000e2000580" = true) by reflexivity.
  split; [exact H|].
  exact (proj2 hex_round_trip "040300000010000000000000e2000580"%string H).
Defined.

(** A notification and a decoder that answers [undefined]. *)
Lemma raises_characterised_witness :
  let e := llrpEnv undefinedDecoder ∅ in
  let msg := messageOfType 63 in
  let s := initialSession ∅ in
  outcome (dispatch (env := e) msg s) = Throw TypeError /\
  type_value msg = READER_EVENT_NOTIFICATION (messageC (Env := e)).
Proof.
  intros e msg s.
  assert (H : outcome (dispatch (env := e) msg s) = Throw TypeError)
    by reflexivity.
  split; [exact H|].
  exact (proj1 (proj1 (@raises_characterised e) msg s TypeError H)).
Defined.

(** A notification and an enable-rospec response, joined or apart. *)
Lemma joined_chunks_witness :
  let e := llrpEnv typeCodeDecoder ∅ in
  let s := initialSession ∅ in
  Forall (fun m => handledAsReport (env := e) m = false) [messageOfType 63] /\
  writesOf (trace (run (env := e) [Data (Some [x3f; x22])] s))
    = writesOf (trace (run (env := e) [Data (Some [x3f]); Data (Some [x22])] s)).
Proof.
  intros e s.
  assert (Hi : Forall (fun m => handledAsReport (env := e) m = false)
                      [messageOfType 63]) by (repeat constructor).
  split; [exact Hi|].
  exact (proj1 (proj2 (proj2
    (@joined_chunks e [x3f; x22] [x3f] [x22]
       [messageOfType 63] [messageOfType 34] s
       eq_refl eq_refl eq_refl Hi eq_refl)))).
Defined.

(** A notification whose event parameter carries a read-specification
    event of zero bytes, received by a fresh session: [readUInt8(0)]
    raises, and the configure command, due because [isReaderConfigSet]
    is false, is not written. *)
Lemma reader_notification_action_counterexample :
  let event := mkParam 246 [] [mkParam 249 [] []] in
  let msg := messageOfType 63 in
  let e := llrpEnv (fixedDecoder [msg] [event]) ∅ in
  let s := initialSession ∅ in
  type_value msg = READER_EVENT_NOTIFICATION (messageC (Env := e)) /\
  isReaderConfigSet s = false /\
  dispatch (env := e) msg s
    = mkResult (Throw RangeError) s [DecodeParameter []] /\
  handle (env := e) (Data (Some [])) s
    = mkResult (Throw RangeError) s [DecodeMessage []; DecodeParameter []] /\
  ~ (Write bSetReaderConfig ∈ trace (dispatch (env := e) msg s) /\
     isReaderConfigSet (after (dispatch (env := e) msg s)) = true).
Proof.
  intros event msg e s. repeat split. intros [_ H]. discriminate H.
Qed.

(** A tag report, an enable-read-spec response and a keepalive in one
    chunk, with the start flag set: the response is handled before the
    reset that the report queued, so no start command is written;
    handling each message to completion would have written one. *)
Lemma batch_order_counterexample :
  let A := messageOfType 61 in
  let B := messageOfType 34 in
  let C := messageOfType 62 in
  let e := llrpEnv (fixedDecoder [A; B; C] []) ∅ in
  let s := {| isReaderConfigSet := true; isStartROSpecSent := true;
              tickQueue := [] |} in
  trace (handle (env := e) (Data (Some [])) s)
    = [DecodeMessage []; NextTick (ReportTick A); Write bKeepaliveAck;
       AssignStartROSpecSent false; DecodeParameter []] /\
  trace (onDataInOrder (env := e) [] s)
    = [DecodeMessage []; NextTick (ReportTick A);
       AssignStartROSpecSent false; DecodeParameter [];
       AssignStartROSpecSent true; Write bStartRoSpec;
       Write bKeepaliveAck] /\
  writesOf (trace (handle (env := e) (Data (Some [])) s)) = [bKeepaliveAck] /\
  writesOf (trace (onDataInOrder (env := e) [] s))
    = [bStartRoSpec; bKeepaliveAck] /\
  handle (env := e) (Data (Some [])) s <> onDataInOrder (env := e) [] s.
Proof.
  intros A B C e s. repeat (split; [reflexivity|]).
  intros Heq. apply (f_equal (fun r => writesOf (trace r))) in Heq.
  discriminate Heq.
Qed.

(** A notification carrying the end-of-cycle event (type 1, read
    specification 1), with configuration pushed and a start in flight:
    the flag is reset and the start command sent again.  With a second
    event parameter whose value is empty behind it, the flag is reset
    and the handler raises before the start command. *)
Lemma reader_notification_action_witness :
  let event := mkParam 246 [] [mkParam 249 [x01; x00; x00; x00; x01] []] in
  let bad := mkParam 246 [] [mkParam 249 [] []] in
  let e := llrpEnv (fixedDecoder [] [event]) ∅ in
  let e' := llrpEnv (fixedDecoder [] [event; bad]) ∅ in
  let msg := messageOfType 63 in
  let s := {| isReaderConfigSet := true; isStartROSpecSent := true;
              tickQueue := [] |} in
  type_value msg = READER_EVENT_NOTIFICATION (messageC (Env := e)) /\
  decode_parameter (decode (Env := e)) (getParameter msg) = Some [event] /\
  Forall (readable (env := e)) [event] /\
  dispatch (env := e) msg s =
    mkResult (Normal tt) s
      [DecodeParameter []; AssignStartROSpecSent false;
       AssignStartROSpecSent true; Write bStartRoSpec] /\
  dispatch (env := e') msg s =
    mkResult (Throw RangeError) (withStartROSpecSent false s)
      [DecodeParameter []; AssignStartROSpecSent false].
Proof.
  intros event bad e e' msg s.
  assert (H1 : type_value msg = READER_EVENT_NOTIFICATION (messageC (Env := e)))
    by reflexivity.
  assert (H2 : decode_parameter (decode (Env := e)) (getParameter msg)
               = Some [event]) by reflexivity.
  assert (H3 : Forall (readable (env := e)) [event]).
  { repeat constructor. intros _. vm_compute. discriminate. }
  split; [exact H1|]. split; [exact H2|]. split; [exact H3|]. split.
  - exact (proj1 (@reader_notification_action e msg [event] s H1 H2) H3).
  - exact (proj1 (proj1 (proj2
      (@reader_notification_action e' msg [event; bad] s eq_refl eq_refl))
      [event] bad [] eq_refl H3 eq_refl eq_refl)).
Defined.

(** A tag report carrying the identifier [AABB] with the count [0002],
    a keepalive and an enable-read-spec response in one chunk, received
    by a fresh session: the two writes of the batch come first, in
    order; the callback of the report runs after them, so the tag is
    emitted and the start flag, set for the response, ends false. *)
Lemma batch_order_witness :
  let p := mkParam 240 [] [mkParam 13 [xaa; xbb] []; mkParam 8 [x00; x02] []] in
  let A := messageOfType 61 in
  let B := messageOfType 62 in
  let C := messageOfType 34 in
  let e := llrpEnv (fixedDecoder [A; B; C] [p]) ∅ in
  let s := initialSession ∅ in
  let tag := {| tagID := Some "aabb"; tagSeenCount := 2 |} in
  Forall (fun msg => Forall (countable (env := e)) (parametersOf (env := e) msg))
         (List.filter (handledAsReport (env := e)) [A; B; C]) /\
  outcome (handle (env := e) (Data (Some [])) s) = Normal tt /\
  writesOf (trace (handle (env := e) (Data (Some [])) s))
    = [bKeepaliveAck; bStartRoSpec] /\
  trace (processTicks (env := e)
           (after (forEach (receive (env := e)) [A; B; C] s)))
    = [AssignStartROSpecSent false; DecodeParameter [];
       NextTick (DidSeeTagTick tag); Emit (EmitDidSeeTag tag)] /\
  tagsOf (trace (handle (env := e) (Data (Some [])) s)) = [tag] /\
  isStartROSpecSent (after (handle (env := e) (Data (Some [])) s)) = false /\
  tickQueue (after (handle (env := e) (Data (Some [])) s)) = [].
Proof.
  intros p A B C e s tag.
  assert (Hc : Forall (fun msg => Forall (countable (env := e))
                                         (parametersOf (env := e) msg))
                      (List.filter (handledAsReport (env := e)) [A; B; C])).
  { repeat constructor. intros _. eexists. reflexivity. }
  destruct (@batch_order e [] A B C s eq_refl eq_refl eq_refl eq_refl)
    as (_ & Hw & _ & _ & _ & _ & Hrun & Hflag & Hq).
  destruct (Hrun eq_refl) as [Hgo Hdone].
  pose proof (Hgo Hc) as Hn.
  destruct (Hdone Hn) as [Htrace Htags].
  split; [exact Hc|]. split; [exact Hn|]. split; [exact Hw|].
  split; [exact Htrace|]. split; [exact Htags|].
  split; [apply (Hflag Hn); discriminate | exact (Hq Hn)].
Defined.

(** A notification, a connection reset that nobody listens for, and a
    second notification that is never handled. *)
Lemma unheard_error_ends_run_witness :
  let e := llrpEnv (fixedDecoder [messageOfType 63] []) ∅ in
  let s := initialSession ∅ in
  let evs := [Data (Some []); Errored "ECONNRESET" false; Data (Some [])] in
  tickQueue s = [] /\
  outcome (run (env := e) [Data (Some [])] s) = Normal tt /\
  outcome (run (env := e) evs s) = Throw (Unhandled "ECONNRESET") /\
  after (run (env := e) evs s) = after (run (env := e) [Data (Some [])] s).
Proof.
  intros e s evs.
  assert (Hq : tickQueue s = []) by reflexivity.
  assert (Hn : outcome (run (env := e) [Data (Some [])] s) = Normal tt)
    by reflexivity.
  split; [exact Hq|]. split; [exact Hn|].
  destruct (@unheard_error_ends_run e [Data (Some [])] [Data (Some [])]
              "ECONNRESET" s Hq Hn) as ((Ho & Ha & _) & _).
  split; [exact Ho | exact Ha].
Defined.
